(** * Speech_Summary: the transcribe / summarize / title pipeline

    A shallow embedding of [transcription.py], [summarization.py] and
    [title_generation.py], followed by the properties of the pipeline's
    fallback chain, chunking and text normalisation.

    Python strings are sequences of Unicode code points, so a string is a
    list of code points here; the remote services, the local models, the
    process environment and the random source are the fields of an
    environment record; a Python exception is the [Raise] case of [result]. *)

From Stdlib Require Import Ascii String DecimalString.
From Stdlib Require Import List Arith NArith Lia Bool Permutation Sorted.
From Equations Require Import Equations.
Import ListNotations.

Set Implicit Arguments.

(* ===================================================================== *)
(** ** Python values: strings, exceptions, the [re] functions            *)
(* ===================================================================== *)

Module Py.

(** A character is a Unicode code point, a string a list of them. *)
Abbreviation char := N (only parsing).
Abbreviation str := (list N) (only parsing).

(** The code points of an ASCII literal. *)
Definition lit (s : string) : str := map N_of_ascii (list_ascii_of_string s).

(** The code point of an ASCII character. *)
Definition ch (a : ascii) : char := N_of_ascii a.

Definition nl : char := 10%N.

Definition char_eqb (a b : char) : bool := N.eqb a b.

Definition str_eq_dec : forall a b : str, {a = b} + {a <> b} :=
  list_eq_dec N.eq_dec.

Definition str_eqb (a b : str) : bool := if str_eq_dec a b then true else false.

(** [str.isspace] on one code point; [\s] of [re] and the separators of
    [str.split()] and [str.strip()] are the same set. *)
Definition isspace (c : char) : bool :=
  ((9 <=? c) && (c <=? 13) || (28 <=? c) && (c <=? 32)
   || (c =? 133) || (c =? 160) || (c =? 5760)
   || (8192 <=? c) && (c <=? 8202)
   || (c =? 8232) || (c =? 8233) || (c =? 8239) || (c =? 8287)
   || (c =? 12288))%N.

(** The case mappings and the decimal-digit class come from the Unicode
    database, which is no part of the repository. *)
Record unicode_db := {
  lower : str -> str;              (* str.lower *)
  capitalize : str -> str;         (* str.capitalize *)
  isdecimal : char -> bool         (* \d *)
}.

Definition ascii_lower_char (c : char) : char :=
  if ((65 <=? c) && (c <=? 90))%N then (c + 32)%N else c.
Definition ascii_upper_char (c : char) : char :=
  if ((97 <=? c) && (c <=? 122))%N then (c - 32)%N else c.

(** The database restricted to ASCII. *)
Definition ascii_db : unicode_db := {|
  lower := map ascii_lower_char;
  capitalize := fun s =>
    match s with
    | [] => []
    | c :: s' => ascii_upper_char c :: map ascii_lower_char s'
    end;
  isdecimal := fun c => ((48 <=? c) && (c <=? 57))%N
|}.

Fixpoint take_while (p : char -> bool) (s : str) : str :=
  match s with
  | [] => []
  | c :: s' => if p c then c :: take_while p s' else []
  end.

Fixpoint drop_while (p : char -> bool) (s : str) : str :=
  match s with
  | [] => []
  | c :: s' => if p c then drop_while p s' else s
  end.

(** [s.strip()] *)
Definition strip (s : str) : str :=
  rev (drop_while isspace (rev (drop_while isspace s))).

(** [sep.join(parts)] *)
Fixpoint join (sep : str) (parts : list str) : str :=
  match parts with
  | [] => []
  | [p] => p
  | p :: ps => p ++ sep ++ join sep ps
  end.

(** [s.split()]: the maximal runs of non-whitespace. [cur] is the word
    being read. *)
Fixpoint split_ws_from (cur : str) (s : str) : list str :=
  match s with
  | [] => match cur with [] => [] | _ => [cur] end
  | c :: s' =>
      if isspace c
      then match cur with
           | [] => split_ws_from [] s'
           | _ => cur :: split_ws_from [] s'
           end
      else split_ws_from (cur ++ [c]) s'
  end.

Definition split_ws (s : str) : list str := split_ws_from [] s.

(** [s.split(sep)] for a one-character separator. *)
Fixpoint split_on (sep : char) (s : str) : list str :=
  match s with
  | [] => [[]]
  | c :: s' =>
      if char_eqb c sep then [] :: split_on sep s'
      else match split_on sep s' with
           | [] => [[c]]
           | l :: ls => (c :: l) :: ls
           end
  end.

Fixpoint starts_with (p s : str) : bool :=
  match p, s with
  | [], _ => true
  | _ :: _, [] => false
  | a :: p', b :: s' => char_eqb a b && starts_with p' s'
  end.

(** [p in s] *)
Fixpoint contains (p s : str) : bool :=
  starts_with p s ||
  match s with
  | [] => false
  | _ :: s' => contains p s'
  end.

(** [l[i:j]] for [0 <= i <= j]. *)
Definition slice {A} (l : list A) (i j : nat) : list A :=
  firstn (j - i) (skipn i l).

(** [l[-n:]] for [n > 0]. *)
Definition last_n {A} (n : nat) (l : list A) : list A :=
  skipn (length l - n) l.

(** [range(start, stop, step)] for [step > 0]; [stop - start] rounds of
    the counter are enough. *)
Fixpoint range_from (fuel : nat) (i stop step : nat) : list nat :=
  match fuel with
  | O => []
  | S fuel' =>
      if i <? stop then i :: range_from fuel' (i + step) stop step else []
  end.

Definition range (start stop step : nat) : list nat :=
  range_from (stop - start) start stop step.

(** [str(n)] for a non-negative integer. *)
Definition str_of_nat (n : nat) : str := lit (NilZero.string_of_uint (Nat.to_uint n)).

(** *** Exceptions *)

Inductive result (A : Type) : Type :=
| Ok (a : A)
| Raise (e : str).          (* [str(e)] of the exception *)
Arguments Ok {A} a.
Arguments Raise {A} e.

Definition bind {A B} (r : result A) (k : A -> result B) : result B :=
  match r with
  | Ok a => k a
  | Raise e => Raise e
  end.

(** [try: body  except Exception as e: handler(e)] *)
Definition try_except {A} (body : result A) (handler : str -> result A) : result A :=
  match body with
  | Ok a => Ok a
  | Raise e => handler e
  end.

Fixpoint mapM {A B} (f : A -> result B) (l : list A) : result (list B) :=
  match l with
  | [] => Ok []
  | a :: l' => bind (f a) (fun b => bind (mapM f l') (fun bs => Ok (b :: bs)))
  end.

(** *** The [re] module, for patterns that match no empty string

    A pattern is given by its matcher: from the character before the
    position (for a look-behind or [^]) and the rest of the subject, the
    length of the match that starts there. [scan] walks the subject as
    [re] does, left to right, resuming after each match. *)

Definition matcher := option char -> str -> option nat.

Inductive piece : Type :=
| Char (c : char)           (* a character outside every match *)
| Match (w : str).          (* a match *)

Fixpoint scan (m : matcher) (prev : option char) (skip : nat) (s : str)
  : list piece :=
  match s with
  | [] => []
  | c :: s' =>
      match skip with
      | S k => scan m (Some c) k s'
      | O =>
          match m prev s with
          | Some (S k) => Match (firstn (S k) s) :: scan m (Some c) k s'
          | _ => Char c :: scan m (Some c) 0 s'
          end
      end
  end.

(** [re.sub(pattern, repl, s)] *)
Definition re_sub (m : matcher) (repl : str) (s : str) : str :=
  flat_map (fun p => match p with Char c => [c] | Match _ => repl end)
           (scan m None 0 s).

Fixpoint split_pieces (cur : str) (ps : list piece) : list str :=
  match ps with
  | [] => [cur]
  | Char c :: ps' => split_pieces (cur ++ [c]) ps'
  | Match _ :: ps' => cur :: split_pieces [] ps'
  end.

(** [re.split(pattern, s)], the pattern without groups. *)
Definition re_split (m : matcher) (s : str) : list str :=
  split_pieces [] (scan m None 0 s).

Fixpoint matches_of (ps : list piece) : list str :=
  match ps with
  | [] => []
  | Char _ :: ps' => matches_of ps'
  | Match w :: ps' => w :: matches_of ps'
  end.

(** [re.findall(pattern, s)], [group] taking the pattern's one group out
    of a match. *)
Definition re_findall (m : matcher) (group : str -> str) (s : str) : list str :=
  map group (matches_of (scan m None 0 s)).

(** The length of a non-empty run of [p] at the head of [s]. *)
Definition run_of (p : char -> bool) (s : str) : option nat :=
  match length (take_while p s) with
  | O => None
  | n => Some n
  end.

(** [\s+] *)
Definition ws_plus : matcher := fun _ s => run_of isspace s.

(** A word: not empty, and without whitespace. *)
Definition is_word (w : str) : Prop :=
  w <> [] /\ Forall (fun c => isspace c = false) w.

(** Neither the first nor the last character is whitespace. *)
Definition trimmed (s : str) : Prop :=
  (forall c rest, s = c :: rest -> isspace c = false)
  /\ (forall init c, s = init ++ [c] -> isspace c = false).

(** The string has a character that is no whitespace. *)
Definition visible (s : str) : Prop := exists c, In c s /\ isspace c = false.

End Py.
Import Py.

Declare Scope py_scope.
Delimit Scope py_scope with py.
Notation "x <- e ;; k" := (bind e (fun x => k))
  (at level 61, e at next level, right associativity) : py_scope.
Open Scope py_scope.

(* ===================================================================== *)
(** ** transcription.py                                                  *)
(* ===================================================================== *)

Module Transcription.

(** One entry of the remote response's ["segments"]. *)
Record segment := {
  seg_speaker : option str;   (* segment.get('speaker', ...), as an f-string renders it *)
  seg_text : option str       (* segment['text']; KeyError when the key is missing *)
}.

(** What [openai.audio.transcriptions.create] hands back: a dict with
    optional ["segments"] and ["text"] keys, or an object with or
    without a [text] attribute. *)
Inductive response : Type :=
| DictResponse (segments : option (list segment)) (text : option str)
| ObjectResponse (text : option str).

(** The dict [model.transcribe] returns: [result.get("segments", [])],
    each entry read with [segment.get("text", "")]. *)
Record whisper_output := {
  w_segments : option (list (option str))
}.

Record environment := {
  (* [openai.api_key] is truthy *)
  api_key : bool;
  (* [open(audio_path, "rb")] and [openai.audio.transcriptions.create] *)
  openai_transcriptions_create : str -> result response;
  (* [whisper.load_model("base")] and [model.transcribe(audio_path)] *)
  whisper_transcribe : str -> result whisper_output
}.

(** [f"Speaker {segment.get('speaker', 'Unknown')}"] *)
Definition speaker_label (seg : segment) : str :=
  lit "Speaker " ++
  match seg_speaker seg with
  | Some s => s
  | None => lit "Unknown"
  end.

Definition get_text (seg : segment) : result str :=
  match seg_text seg with
  | Some t => Ok t
  | None => Raise (lit "'text'")
  end.

(** The body of the loop over the segments (lines 58-66) on the pair
    [(formatted, current_speaker)]. *)
Definition segment_step (st : str * option str) (seg : segment)
  : result (str * option str) :=
  let '(formatted, current_speaker) := st in
  let speaker := speaker_label seg in
  if negb (match current_speaker with
           | Some cur => str_eqb speaker cur
           | None => false
           end)
  then t <- get_text seg ;;
       Ok (formatted ++ [nl] ++ speaker ++ lit ": " ++ t, Some speaker)
  else t <- get_text seg ;;
       Ok (formatted ++ lit " " ++ t, current_speaker).

Fixpoint format_segments (st : str * option str) (segs : list segment)
  : result (str * option str) :=
  match segs with
  | [] => Ok st
  | seg :: rest => st' <- segment_step st seg ;; format_segments st' rest
  end.

Definition transcribe_with_openai (env : environment) (audio_path : str)
  : result str :=
  response <- openai_transcriptions_create env audio_path ;;
  match response with
  | DictResponse (Some segments) _ =>
      st <- format_segments ([], None) segments ;;
      Ok (strip (fst st))
  | ObjectResponse (Some text) => Ok (lit "Speaker: " ++ text)
  | DictResponse None (Some text) => Ok (lit "Speaker: " ++ text)
  | _ => Ok (lit "Unable to transcribe audio with OpenAI API")
  end.

(** [f"\nSpeaker: {current_text_chunk}\n"] *)
Definition speaker_block (chunk : str) : str :=
  [nl] ++ lit "Speaker: " ++ chunk ++ [nl].

(** The body of the loop over the local segments (lines 102-108) on the
    pair [(formatted_transcript, current_text_chunk)]. *)
Definition whisper_step (st : str * str) (segment : option str) : str * str :=
  let '(formatted_transcript, current_text_chunk) := st in
  let current_text_chunk :=
    current_text_chunk ++ match segment with Some t => t | None => [] end in
  if 200 <? length current_text_chunk
  then (formatted_transcript ++ speaker_block current_text_chunk, [])
  else (formatted_transcript, current_text_chunk).

Definition transcribe_with_whisper (env : environment) (audio_path : str)
  : result str :=
  try_except
    (output <- whisper_transcribe env audio_path ;;
     let segments :=
       match w_segments output with Some l => l | None => [] end in
     let '(formatted_transcript, current_text_chunk) :=
       fold_left whisper_step segments ([], []) in
     let formatted_transcript :=
       match current_text_chunk with
       | [] => formatted_transcript
       | _ => formatted_transcript ++ speaker_block current_text_chunk
       end in
     Ok (strip formatted_transcript))
    (fun e => Ok (lit "Transcription failed: " ++ e)).

Definition transcribe_audio (env : environment) (audio_path : str)
  : result str :=
  if api_key env
  then try_except (transcribe_with_openai env audio_path)
                  (fun _ => transcribe_with_whisper env audio_path)
  else transcribe_with_whisper env audio_path.

(** *** Speaker turns, as the specification describes them *)

(** A turn: the speaker label and the texts of the segments it covers. *)
Definition turn : Type := str * list str.

(** Adjacent segments with the same label are merged into one turn. *)
Fixpoint merge_turns (segs : list (str * str)) : list turn :=
  match segs with
  | [] => []
  | (label, t) :: rest =>
      match merge_turns rest with
      | (label', ts) :: turns =>
          if str_eqb label label'
          then (label, t :: ts) :: turns
          else (label, [t]) :: (label', ts) :: turns
      | [] => [(label, [t])]
      end
  end.

(** A turn on its own line: the header, then the texts it covers. *)
Definition render_turn (tn : turn) : str :=
  [nl] ++ fst tn ++ lit ": " ++ join (lit " ") (snd tn).

Definition render_turns (turns : list turn) : str :=
  flat_map render_turn turns.

(** What the remote loop appends for the turns still to come, the
    current speaker being [cur]. *)
Definition render_after (cur : option str) (turns : list turn) : str :=
  match turns with
  | [] => []
  | (label, ts) :: rest =>
      if match cur with Some c => str_eqb label c | None => false end
      then flat_map (fun t => lit " " ++ t) ts ++ render_turns rest
      else render_turns turns
  end.

(** The label and the text of each segment, in order. *)
Definition labelled (segs : list segment) : list (str * str) :=
  map (fun seg => (speaker_label seg,
                   match seg_text seg with Some t => t | None => [] end))
      segs.

(** The segments a list of turns covers, in order. *)
Definition turn_segments (turns : list turn) : list (str * str) :=
  flat_map (fun tn => map (pair (fst tn)) (snd tn)) turns.

(** No two consecutive labels are equal. *)
Fixpoint adjacent_distinct (labels : list str) : Prop :=
  match labels with
  | a :: (b :: _) as rest => a <> b /\ adjacent_distinct rest
  | _ => True
  end.

(** The texts of the local model's segments. *)
Definition whisper_texts (output : whisper_output) : list str :=
  map (fun segment => match segment with Some t => t | None => [] end)
      (match w_segments output with Some l => l | None => [] end).

(** The remote path was not taken to its end: no credential, or it raised. *)
Definition remote_failed (env : environment) (audio_path : str) : Prop :=
  api_key env = false
  \/ exists e, transcribe_with_openai env audio_path = Raise e.

(** An environment in which the local model hears nothing. *)
Definition silent_env : environment := {|
  api_key := false;
  openai_transcriptions_create := fun _ => Raise (lit "no credential");
  whisper_transcribe := fun _ => Ok {| w_segments := Some [] |}
|}.

(** The segments (A, hi), (A, there), (B, hey). *)
Definition example_segments : list segment :=
  [ {| seg_speaker := Some (lit "A"); seg_text := Some (lit "hi") |};
    {| seg_speaker := Some (lit "A"); seg_text := Some (lit "there") |};
    {| seg_speaker := Some (lit "B"); seg_text := Some (lit "hey") |} ].

Definition example_env : environment := {|
  api_key := true;
  openai_transcriptions_create :=
    fun _ => Ok (DictResponse (Some example_segments) None);
  whisper_transcribe := fun _ => Raise (lit "no local model")
|}.

(** *** The turns the local path makes up *)

(** The longest text among the local model's segments. *)
Definition longest_text (texts : list str) : nat := list_max (map (@length char) texts).

(** A local model that returns three segments of 150 characters. *)
Definition local_env : environment := {|
  api_key := false;
  openai_transcriptions_create := fun _ => Raise (lit "no credential");
  whisper_transcribe :=
    fun _ => Ok {| w_segments := Some [Some (repeat (ch "a") 150);
                                        Some (repeat (ch "b") 150);
                                        Some (repeat (ch "c") 150)] |}
|}.

End Transcription.

(* ===================================================================== *)
(** ** summarization.py                                                  *)
(* ===================================================================== *)

Module Summarization.

Record environment := {
  (* [os.getenv("OPENAI_API_KEY")] is truthy *)
  OPENAI_API_KEY : bool;
  (* [openai.chat.completions.create(...).choices[0].message.content],
     from the system content, the user content and [max_tokens] *)
  chat_completions_create : str -> str -> nat -> result str;
  (* the import of [transformers] succeeded *)
  has_transformers : bool;
  (* [pipeline("summarization", ...)]; the summarizer it returns maps a
     chunk, [max_length] and [min_length] to [summary[0]['summary_text']] *)
  pipeline : result (str -> nat -> nat -> result str)
}.

(** [\[.*?\]]: after the opening bracket, the shortest run of characters
    other than a newline that a closing bracket ends. *)
Fixpoint lazy_until_close (s : str) : option nat :=
  match s with
  | [] => None
  | c :: s' =>
      if char_eqb c (ch "]") then Some 1
      else if char_eqb c nl then None
      else option_map S (lazy_until_close s')
  end.

Definition bracketed : matcher := fun _ s =>
  match s with
  | c :: s' =>
      if char_eqb c (ch "[") then option_map S (lazy_until_close s') else None
  | [] => None
  end.

Definition clean_transcript (transcript : str) : str :=
  let cleaned := re_sub ws_plus (lit " ") transcript in
  let cleaned := re_sub bracketed [] cleaned in
  strip cleaned.

Definition system_prompt : str :=
  lit "You are a professional meeting summarizer. "
  ++ lit "Summarize the provided meeting transcript into a concise, structured summary "
  ++ lit "that captures the key points of the discussion. "
  ++ lit "Include a 'Key Points' section that extracts the most important takeaways.".

#[warning="-abstract-large-number"]
Definition max_chunk_size : nat := 10000.

(** [[transcript[i:i+max_chunk_size] for i in range(0, len(transcript), max_chunk_size)]] *)
Definition openai_chunks (transcript : str) : list str :=
  map (fun i => slice transcript i (i + max_chunk_size))
      (range 0 (length transcript) max_chunk_size).

Definition summarize_with_openai (env : environment) (transcript : str)
  : result str :=
  if max_chunk_size <? length transcript
  then
    chunk_summaries <-
      mapM (fun chunk =>
              chat_completions_create env system_prompt
                (lit "Summarize this part of the transcript: " ++ chunk) 500)
           (openai_chunks transcript) ;;
    let combined := join (lit " ") chunk_summaries in
    chat_completions_create env system_prompt
      (lit "Create a final summary combining these partial summaries: " ++ combined)
      800
  else
    chat_completions_create env system_prompt
      (lit "Summarize this meeting transcript: " ++ transcript) 800.

(** The body of the loop over the words (lines 221-228) on the triple
    [(chunks, current_chunk, current_length)]. *)
Definition chunk_step (max_length : nat) (st : list str * list str * nat)
           (word : str) : list str * list str * nat :=
  let '(chunks, current_chunk, current_length) := st in
  if max_length <? current_length + length word + 1
  then (chunks ++ [join (lit " ") current_chunk], [word], length word)
  else (chunks, current_chunk ++ [word], current_length + length word + 1).

(** The loop from the state [st] on, and the flush after it (lines 221-233). *)
Definition chunk_words (max_length : nat) (words : list str)
           (st : list str * list str * nat) : list str :=
  let '(chunks, current_chunk, _) := fold_left (chunk_step max_length) words st in
  match current_chunk with
  | [] => chunks
  | _ => chunks ++ [join (lit " ") current_chunk]
  end.

Definition chunk_text (text : str) (max_length : nat) : list str :=
  let words := split_ws text in
  chunk_words max_length words ([], [], 0).

Definition is_terminator (c : char) : bool :=
  char_eqb c (ch ".") || char_eqb c (ch "!") || char_eqb c (ch "?").

(** [(?<=[.!?])\s+] *)
Definition sentence_gap : matcher := fun prev s =>
  match prev with
  | Some p => if is_terminator p then run_of isspace s else None
  | None => None
  end.

(** [re.split(r'(?<=[.!?])\s+', text)] *)
Definition split_sentences (text : str) : list str := re_split sentence_gap text.

Definition meeting_summary_header : str := lit "## Meeting Summary" ++ [nl; nl].
Definition key_points_header : str := lit "## Key Points" ++ [nl; nl].

Definition summarize_with_transformers (env : environment) (transcript : str)
  : result str :=
  summarizer <- pipeline env ;;
  let chunks := chunk_text transcript 1000 in
  let chunk_summaries :=
    fold_left (fun acc chunk =>
                 match summarizer chunk 150 50 with
                 | Ok summary => acc ++ [summary]
                 | Raise _ => acc
                 end) chunks [] in
  let combined_summary := join (lit " ") chunk_summaries in
  let structured_summary := meeting_summary_header in
  let structured_summary := structured_summary ++ combined_summary ++ [nl; nl] in
  let structured_summary := structured_summary ++ key_points_header in
  let sentences := split_sentences combined_summary in
  let structured_summary :=
    fold_left (fun acc sentence =>
                 if 10 <? length sentence
                 then acc ++ lit "- " ++ sentence ++ [nl]
                 else acc)
              (firstn 5 sentences) structured_summary in
  Ok structured_summary.

(** [(Speaker [^:]+):]: the greedy run of non-colons after the prefix
    must be non-empty and stop at a colon. *)
Definition speaker_pattern : matcher := fun _ s =>
  if starts_with (lit "Speaker ") s
  then
    let rest := skipn 8 s in
    let name := take_while (fun c => negb (char_eqb c (ch ":"))) rest in
    match name, skipn (length name) rest with
    | _ :: _, _ :: _ => Some (8 + length name + 1)
    | _, _ => None
    end
  else None.

(** [re.findall(speaker_pattern, transcript)]: the group of a match is
    the match without its closing colon. *)
Definition find_speaker_turns (transcript : str) : list str :=
  re_findall speaker_pattern (@removelast char) transcript.

Definition simple_extractive_summary (transcript : str) : str :=
  let sentences := split_sentences transcript in
  let speaker_turns := find_speaker_turns transcript in
  let unique_speakers := nodup str_eq_dec speaker_turns in
  let selected_sentences := [] in
  let selected_sentences := selected_sentences ++ firstn 3 sentences in
  let mid_point := length sentences / 2 in
  let selected_sentences :=
    selected_sentences ++ slice sentences mid_point (mid_point + 2) in
  let selected_sentences := selected_sentences ++ last_n 3 sentences in
  let summary := meeting_summary_header in
  let summary := summary ++ join (lit " ") selected_sentences ++ [nl; nl] in
  let summary := summary ++ key_points_header in
  let summary :=
    summary ++ lit "- Meeting included " ++ str_of_nat (length unique_speakers)
            ++ lit " participants" ++ [nl] in
  let summary :=
    summary ++ lit "- The transcript contains " ++ str_of_nat (length sentences)
            ++ lit " sentences" ++ [nl] in
  let summary :=
    summary ++ lit "- Total of " ++ str_of_nat (length speaker_turns)
            ++ lit " speaker changes occurred" ++ [nl] in
  summary.

Definition generate_summary (env : environment) (transcript : str)
  : result str :=
  let cleaned_transcript := clean_transcript transcript in
  let local :=
    if has_transformers env
    then summarize_with_transformers env cleaned_transcript
    else Ok (simple_extractive_summary cleaned_transcript) in
  if OPENAI_API_KEY env
  then try_except (summarize_with_openai env cleaned_transcript) (fun _ => local)
  else local.

(** [set(xs)] holds the distinct elements of [xs]. The order in which a
    set of strings is laid out follows their hashes, which Python salts
    anew for every process: a layout is any arrangement of the distinct
    elements. *)
Definition set_layout (layout : list str -> list str) : Prop :=
  forall xs, Permutation (layout xs) (nodup str_eq_dec xs).

(** [simple_extractive_summary] in a process that lays out its sets by
    [layout] (line 177: [unique_speakers = set(speaker_turns)]). *)
Definition simple_extractive_summary_in (layout : list str -> list str)
           (transcript : str) : str :=
  let sentences := split_sentences transcript in
  let speaker_turns := find_speaker_turns transcript in
  let unique_speakers := layout speaker_turns in
  let selected_sentences := [] in
  let selected_sentences := selected_sentences ++ firstn 3 sentences in
  let mid_point := length sentences / 2 in
  let selected_sentences :=
    selected_sentences ++ slice sentences mid_point (mid_point + 2) in
  let selected_sentences := selected_sentences ++ last_n 3 sentences in
  let summary := meeting_summary_header in
  let summary := summary ++ join (lit " ") selected_sentences ++ [nl; nl] in
  let summary := summary ++ key_points_header in
  let summary :=
    summary ++ lit "- Meeting included " ++ str_of_nat (length unique_speakers)
            ++ lit " participants" ++ [nl] in
  let summary :=
    summary ++ lit "- The transcript contains " ++ str_of_nat (length sentences)
            ++ lit " sentences" ++ [nl] in
  let summary :=
    summary ++ lit "- Total of " ++ str_of_nat (length speaker_turns)
            ++ lit " speaker changes occurred" ++ [nl] in
  summary.

(** A bracketed token: an opening bracket with a closing one after it. *)
Definition has_bracketed (s : str) : Prop :=
  exists a b c, s = a ++ [ch "["] ++ b ++ [ch "]"] ++ c.

(** *** The Key Points of the rule-based summary, and sample environments *)

(** The three lines that report the statistics. *)
Definition key_points_lines (participants sentences changes : nat) : str :=
  lit "- Meeting included " ++ str_of_nat participants
      ++ lit " participants" ++ [nl]
  ++ lit "- The transcript contains " ++ str_of_nat sentences
      ++ lit " sentences" ++ [nl]
  ++ lit "- Total of " ++ str_of_nat changes
      ++ lit " speaker changes occurred" ++ [nl].

Definition example_transcript : str :=
  lit "Speaker A: Hello. Speaker B: Let's discuss budget. Speaker A: Agreed.".

(** Following the specification's words: a speaker-turn transition is a
    place where a speaker label is followed by a different one. *)
Fixpoint speaker_transitions (labels : list str) : nat :=
  match labels with
  | a :: (b :: _) as rest =>
      (if str_eqb a b then 0 else 1) + speaker_transitions rest
  | _ => 0
  end.

(** One turn of one speaker. *)
Definition monologue : str := lit "Speaker A: Hello.".

(** No credential and no local model. *)
Definition offline_env : environment := {|
  OPENAI_API_KEY := false;
  chat_completions_create := fun _ _ _ => Raise (lit "no credential");
  has_transformers := false;
  pipeline := Raise (lit "No module named 'transformers'")
|}.

(** A remote service that answers every request with "OK". *)
Definition terse_env : environment := {|
  OPENAI_API_KEY := true;
  chat_completions_create := fun _ _ _ => Ok (lit "OK");
  has_transformers := false;
  pipeline := Raise (lit "No module named 'transformers'")
|}.

(** *** The paths of the summarizer *)

(** The request for the summary of one chunk (lines 82-89). *)
Definition chunk_request (env : environment) (chunk : str) : result str :=
  chat_completions_create env system_prompt
    (lit "Summarize this part of the transcript: " ++ chunk) 500.

(** The local path of [generate_summary] (lines 34-37). *)
Definition local_summary (env : environment) (cleaned_transcript : str)
  : result str :=
  if has_transformers env
  then summarize_with_transformers env cleaned_transcript
  else Ok (simple_extractive_summary cleaned_transcript).

(** The summaries of the chunks on which the local model does not raise
    (lines 137-142). *)
Definition successful_summaries (summarizer : str -> nat -> nat -> result str)
           (chunks : list str) : list str :=
  flat_map (fun chunk =>
              match summarizer chunk 150 50 with
              | Ok summary => [summary]
              | Raise _ => []
              end) chunks.

(** [f"- {sentence}\n"] *)
Definition bullet (sentence : str) : str := lit "- " ++ sentence ++ [nl].

(** The sentences of the rule-based narrative (lines 181-191). *)
Definition selected_sentences (sentences : list str) : list str :=
  firstn 3 sentences
  ++ slice sentences (length sentences / 2) (length sentences / 2 + 2)
  ++ last_n 3 sentences.

(** A remote service that refuses every chunk request. *)
Definition flaky_env : environment := {|
  OPENAI_API_KEY := true;
  chat_completions_create :=
    fun _ user _ =>
      if starts_with (lit "Summarize this part") user
      then Raise (lit "rate limit")
      else Ok (lit "OK");
  has_transformers := false;
  pipeline := Raise (lit "No module named 'transformers'")
|}.

(** No credential; a local model that echoes its chunk. *)
Definition echo_env : environment := {|
  OPENAI_API_KEY := false;
  chat_completions_create := fun _ _ _ => Raise (lit "no credential");
  has_transformers := true;
  pipeline := Ok (fun chunk _ _ => Ok chunk)
|}.

(** *** Shapes of a normalised transcript *)

(** The only whitespace is the space. *)
Definition only_spaces (s : str) : Prop :=
  forall c, In c s -> isspace c = true -> c = ch " ".

(** No whitespace character is followed by another one. *)
Fixpoint single_spaced (s : str) : Prop :=
  match s with
  | c :: (d :: _) as rest =>
      (isspace c = true -> isspace d = false) /\ single_spaced rest
  | _ => True
  end.

(** No opening bracket has a closing bracket after it. *)
Fixpoint unclosed (s : str) : Prop :=
  match s with
  | [] => True
  | c :: rest => (c = ch "[" -> ~ In (ch "]") rest) /\ unclosed rest
  end.

End Summarization.

(* ===================================================================== *)
(** ** title_generation.py                                               *)
(* ===================================================================== *)

Module TitleGeneration.

Record environment := {
  (* [os.getenv("OPENAI_API_KEY")] is truthy *)
  OPENAI_API_KEY : bool;
  (* [openai.chat.completions.create(...).choices[0].message.content],
     from the system content, the user content and [max_tokens] *)
  chat_completions_create : str -> str -> nat -> result str;
  (* the order [random.shuffle] leaves a list in *)
  shuffle : list str -> list str;
  (* case mappings and digits *)
  unicode : unicode_db
}.

Definition prompt (summary : str) : str :=
  lit "Below is a summary of a meeting or call. "
  ++ lit "Generate 3 concise, professional titles for this meeting. "
  ++ lit "Each title should be less than 8 words, capture the main topic, "
  ++ lit "and be formatted for business context." ++ [nl; nl]
  ++ lit "Summary:" ++ [nl] ++ summary ++ [nl; nl]
  ++ lit "Titles:".

(** The class [[\d\.\-\*\•\○\□\s]]. *)
Definition is_list_markup (U : unicode_db) (c : char) : bool :=
  isdecimal U c
  || char_eqb c (ch ".") || char_eqb c (ch "-") || char_eqb c (ch "*")
  || char_eqb c 8226%N || char_eqb c 9675%N || char_eqb c 9633%N
  || isspace c.

(** [^[\d\.\-\*\•\○\□\s]+]: a run of the class at the start of the line. *)
Definition list_markup (U : unicode_db) : matcher := fun prev s =>
  match prev with
  | None => run_of (is_list_markup U) s
  | Some _ => None
  end.

(** The body of the loop over the lines (lines 63-69). *)
Definition title_step (U : unicode_db) (titles : list str) (line : str)
  : list str :=
  let clean_line := strip (re_sub (list_markup U) [] line) in
  match clean_line with
  | [] => titles
  | _ => if length clean_line <? 60 then titles ++ [clean_line] else titles
  end.

(** [while len(titles) < 3: titles.append(f"Meeting Summary {len(titles) + 1}")] *)
Equations? pad_titles (titles : list str) : list str
  by wf (3 - length titles) lt :=
  pad_titles titles with lt_dec (length titles) 3 := {
    | left _ =>
        pad_titles (titles ++ [lit "Meeting Summary " ++ str_of_nat (length titles + 1)]);
    | right _ => titles }.
Proof. destruct titles as [|? [|? [|? ?]]]; simpl in *; lia. Qed.

Definition generate_titles_with_openai (env : environment) (summary : str)
  : result (list str) :=
  content <-
    chat_completions_create env
      (lit "You are a professional title generator for business meetings.")
      (prompt summary) 100 ;;
  let titles := [] in
  let lines := split_on nl (strip content) in
  let titles := fold_left (title_step (unicode env)) lines titles in
  let titles := pad_titles titles in
  Ok (firstn 3 titles).

(** *** [dict] with insertion order *)

Definition dict := list (str * nat).

Fixpoint dict_mem (k : str) (d : dict) : bool :=
  match d with
  | [] => false
  | (k', _) :: d' => str_eqb k k' || dict_mem k d'
  end.

Fixpoint dict_get (k : str) (d : dict) : nat :=
  match d with
  | [] => 0
  | (k', v) :: d' => if str_eqb k k' then v else dict_get k d'
  end.

(** [d[k] = v]: an existing key keeps its place, a new one goes last. *)
Fixpoint dict_set (k : str) (v : nat) (d : dict) : dict :=
  match d with
  | [] => [(k, v)]
  | (k', v') :: d' =>
      if str_eqb k k' then (k', v) :: d' else (k', v') :: dict_set k v d'
  end.

(** [d.keys()] *)
Definition keys (d : dict) : list str := map fst d.

(** The body of the counting loop (lines 144-147). *)
Definition count_word (word_counts : dict) (word : str) : dict :=
  let word_counts :=
    if negb (dict_mem word word_counts)
    then dict_set word 0 word_counts
    else word_counts in
  dict_set word (dict_get word word_counts + 1) word_counts.

(** [sorted(items, key=lambda x: x[1], reverse=True)]. The sort is
    stable, which fixes its result; it is computed by insertion here. *)
Fixpoint insert_by_count (x : str * nat) (l : list (str * nat))
  : list (str * nat) :=
  match l with
  | [] => [x]
  | y :: l' =>
      if snd y <=? snd x then x :: l else y :: insert_by_count x l'
  end.

Fixpoint sorted_by_count (items : list (str * nat)) : list (str * nat) :=
  match items with
  | [] => []
  | x :: items' => insert_by_count x (sorted_by_count items')
  end.

Definition stop_words : list str :=
  map lit ["the"; "and"; "a"; "an"; "in"; "on"; "at"; "to"; "for"; "with";
           "by"; "of"; "is"; "was"; "were"; "be"; "as"; "that"; "this";
           "key"; "point"; "points"; "meeting"; "summary"]%string.

(** [#+\s+] *)
Definition heading_marker : matcher := fun _ s =>
  match run_of (char_eqb (ch "#")) s with
  | Some n =>
      match run_of isspace (skipn n s) with
      | Some k => Some (n + k)
      | None => None
      end
  | None => None
  end.

(** [\n+] *)
Definition newlines : matcher := fun _ s => run_of (char_eqb nl) s.

(** The words that are counted: lines 130-140. *)
Definition filtered_words (U : unicode_db) (summary : str) : list str :=
  let text := re_sub heading_marker [] summary in
  let text := re_sub newlines (lit " ") text in
  let words := split_ws (lower U text) in
  filter (fun word => negb (existsb (str_eqb word) stop_words)
                      && (3 <? length word)) words.

Definition extract_key_topics (U : unicode_db) (summary : str) : list str :=
  let filtered_words := filtered_words U summary in
  let word_counts := fold_left count_word filtered_words [] in
  let sorted_words := sorted_by_count word_counts in
  let topics := map fst (firstn 5 sorted_words) in
  match topics with
  | [] => map lit ["Business"; "Meeting"; "Discussion"]%string
  | _ => topics
  end.

(** [template.format] with keyword arguments, for replacement fields
    that are plain names: [field] is the name being read after an opening brace. *)
Fixpoint format_from (kwargs : list (str * str)) (field : option str)
         (template : str) : result str :=
  match template with
  | [] =>
      match field with
      | None => Ok []
      | Some _ => Raise (lit "expected '}' before end of string")
      end
  | c :: rest =>
      match field with
      | None =>
          if char_eqb c (ch "{") then format_from kwargs (Some []) rest
          else if char_eqb c (ch "}")
               then Raise (lit "Single '}' encountered in format string")
               else out <- format_from kwargs None rest ;; Ok (c :: out)
      | Some name =>
          if char_eqb c (ch "}")
          then
            match find (fun kv => str_eqb name (fst kv)) kwargs with
            | Some kv => out <- format_from kwargs None rest ;; Ok (snd kv ++ out)
            | None => Raise (lit "'" ++ name ++ lit "'")
            end
          else format_from kwargs (Some (name ++ [c])) rest
      end
  end.

Definition format (template : str) (kwargs : list (str * str)) : result str :=
  format_from kwargs None template.

(** [l[i]] *)
Definition index (l : list str) (i : nat) : result str :=
  match nth_error l i with
  | Some x => Ok x
  | None => Raise (lit "list index out of range")
  end.

Definition templates : list str :=
  map lit ["{topic1} Discussion Summary";
           "{topic1} and {topic2} Planning";
           "Meeting Notes: {topic1} Review";
           "{topic1} Strategy Session";
           "Quarterly {topic1} Update";
           "{topic1}: Analysis & Next Steps";
           "{topic1} Implementation Plan";
           "{topic1} and {topic2} Collaboration"]%string.

(** The body of the loop over the three templates (lines 109-115). *)
Definition fill_template (U : unicode_db) (topics : list str) (template : str)
  : result str :=
  if contains (lit "{topic1}") template && contains (lit "{topic2}") template
  then
    topic1 <- index topics 0 ;;
    topic2 <- index topics 1 ;;
    format template [(lit "topic1", capitalize U topic1);
                     (lit "topic2", capitalize U topic2)]
  else
    topic1 <- index topics 0 ;;
    format template [(lit "topic1", capitalize U topic1)].

Definition generate_titles_rule_based (env : environment) (summary : str)
  : result (list str) :=
  let topics := extract_key_topics (unicode env) summary in
  let topics :=
    if length topics <? 2
    then topics ++ map lit ["Discussion"; "Planning"; "Review"]%string
    else topics in
  let templates := shuffle env templates in
  mapM (fill_template (unicode env) topics) (firstn 3 templates).

Definition generate_titles (env : environment) (summary : str)
  : result (list str) :=
  if OPENAI_API_KEY env
  then try_except (generate_titles_with_openai env summary)
                  (fun _ => generate_titles_rule_based env summary)
  else generate_titles_rule_based env summary.

(** *** Ranking of the topic words, and sample environments *)

(** How often [w] occurs among [ws]. *)
Definition occurrences (w : str) (ws : list str) : nat := count_occ str_eq_dec ws w.

(** The position at which [w] is first seen in [ws]. *)
Fixpoint first_index (w : str) (ws : list str) : nat :=
  match ws with
  | [] => 0
  | x :: ws' => if str_eqb w x then 0 else S (first_index w ws')
  end.

(** [a] ranks above [b]: it is more frequent, or as frequent and seen first. *)
Definition ranks_above (ws : list str) (a b : str) : Prop :=
  occurrences b ws < occurrences a ws
  \/ (occurrences a ws = occurrences b ws /\ first_index a ws < first_index b ws).

(** The order of the sorted items: higher count first and, among equal
    counts, earlier position [rank] first. *)
Definition sorted_before (rank : str * nat -> nat) (x y : str * nat) : Prop :=
  snd y < snd x \/ (snd x = snd y /\ rank x < rank y).

Definition example_summary : str :=
  lit "## Meeting Summary" ++ [nl; nl]
  ++ lit "Budget budget budget planning planning review".

(** A heading marker is a run of '#' with whitespace after it. Whether
    one starts at the head of [s]: *)
Definition heading_at (s : str) : bool :=
  match s with
  | c :: _ =>
      char_eqb (ch "#") c
      && match drop_while (char_eqb (ch "#")) s with
         | d :: _ => isspace d
         | [] => false
         end
  | [] => false
  end.

(** Whether [s] holds a heading marker: a '#' with a whitespace character
    right after it. *)
Fixpoint has_heading_marker (s : str) : bool :=
  match s with
  | c :: (d :: _) as rest =>
      (char_eqb (ch "#") c && isspace d) || has_heading_marker rest
  | _ => false
  end.

(** The characters no heading marker is made of. *)
Definition is_text (c : char) : bool :=
  negb (char_eqb (ch "#") c) && negb (isspace c).

(** The words [extract_key_topics] counts, among [words]. *)
Definition counted (words : list str) (word : str) : Prop :=
  In word words /\ ~ In word stop_words /\ 3 < length word.

(** The topics returned when no word is counted. *)
Definition default_topics : list str :=
  map lit ["Business"; "Meeting"; "Discussion"]%string.

(** A summary that is a heading only. *)
Definition heading_only : str := lit "## Meeting Summary".

(** The placeholder [f"Meeting Summary {n}"]. *)
Definition placeholder (n : nat) : str := lit "Meeting Summary " ++ str_of_nat n.

(** A result that is a list of exactly three non-empty titles. *)
Definition three_titles (r : result (list str)) : Prop :=
  exists t1 t2 t3, r = Ok [t1; t2; t3] /\ t1 <> [] /\ t2 <> [] /\ t3 <> [].

(** The titles read off the lines of a completion (lines 60-69). *)
Definition parsed_titles (U : unicode_db) (content : str) : list str :=
  fold_left (title_step U) (split_on nl (strip content)) [].

(** No credential; the shuffle reverses the list. *)
Definition offline_env : environment := {|
  OPENAI_API_KEY := false;
  chat_completions_create := fun _ _ _ => Raise (lit "no credential");
  shuffle := @rev str;
  unicode := ascii_db
|}.

(** No credential; the shuffle leaves the list as it is. *)
Definition offline_env' : environment := {|
  OPENAI_API_KEY := false;
  chat_completions_create := fun _ _ _ => Raise (lit "no credential");
  shuffle := fun l => l;
  unicode := ascii_db
|}.

(** A remote service that answers with a numbered and a dashed line. *)
Definition remote_env : environment := {|
  OPENAI_API_KEY := true;
  chat_completions_create :=
    fun _ _ _ => Ok (lit "1. Budget Review" ++ [nl] ++ lit "- Planning Sync");
  shuffle := @rev str;
  unicode := ascii_db
|}.

(** *** The titles read off a completion *)

(** A line of a completion after the list markup at its start and the
    whitespace at both ends are taken off (line 65). *)
Definition clean_line (U : unicode_db) (line : str) : str :=
  strip (re_sub (list_markup U) [] line).

(** The topics the templates are filled with (lines 88-92). *)
Definition padded_topics (U : unicode_db) (summary : str) : list str :=
  let topics := extract_key_topics U summary in
  if length topics <? 2
  then topics ++ map lit ["Discussion"; "Planning"; "Review"]%string
  else topics.

End TitleGeneration.

(* ===================================================================== *)
(** ** main.py                                                           *)
(* ===================================================================== *)

Module Main.

(** What the process keeps from one request to the next. *)
Record process := {
  (* [os.environ.get("OPENAI_API_KEY")] *)
  environ_OPENAI_API_KEY : option str;
  (* [openai.api_key]: assigned once, when transcription.py is imported
     (its line 9), and read by [transcribe_audio] *)
  openai_api_key : option str
}.

(** The collaborators of a request. *)
Record services := {
  (* lines 72-75: the path of the temporary file the upload is written to *)
  save_upload : str -> result str;
  openai_transcriptions_create : str -> result Transcription.response;
  whisper_transcribe : str -> result Transcription.whisper_output;
  chat_completions_create : str -> str -> nat -> result str;
  has_transformers : bool;
  pipeline : result (str -> nat -> nat -> result str);
  shuffle : list str -> list str;
  unicode : unicode_db;
  (* [str(e)] for [e = HTTPException(status_code=500, detail=d)] *)
  http_exception_str : str -> str
}.

(** The upload: its file name and the [X-API-Key] header. *)
Record request := {
  filename : str;
  x_api_key : option str
}.

Record SummaryResponse := {
  summary : str;
  suggested_titles : list str;
  full_transcript : str
}.

(** The truth value of an optional string: [None] and the empty string
    are false. *)
Definition truthy (v : option str) : bool :=
  match v with
  | Some (_ :: _) => true
  | _ => false
  end.

(** The three stages as the process and the services present them. *)
Definition transcription_env (svc : services) (proc : process)
  : Transcription.environment := {|
  Transcription.api_key := truthy (openai_api_key proc);
  Transcription.openai_transcriptions_create := openai_transcriptions_create svc;
  Transcription.whisper_transcribe := whisper_transcribe svc
|}.

Definition summarization_env (svc : services) (proc : process)
  : Summarization.environment := {|
  Summarization.OPENAI_API_KEY := truthy (environ_OPENAI_API_KEY proc);
  Summarization.chat_completions_create := chat_completions_create svc;
  Summarization.has_transformers := has_transformers svc;
  Summarization.pipeline := pipeline svc
|}.

Definition title_env (svc : services) (proc : process)
  : TitleGeneration.environment := {|
  TitleGeneration.OPENAI_API_KEY := truthy (environ_OPENAI_API_KEY proc);
  TitleGeneration.chat_completions_create := chat_completions_create svc;
  TitleGeneration.shuffle := shuffle svc;
  TitleGeneration.unicode := unicode svc
|}.

(** Lines 66-68: a key in the header replaces the one of the environment. *)
Definition set_api_key (proc : process) (req : request) : process :=
  if truthy (x_api_key req)
  then {| environ_OPENAI_API_KEY := x_api_key req;
          openai_api_key := openai_api_key proc |}
  else proc.

(** Lines 81-101: the three stages, one after the other. *)
Definition process_audio (svc : services) (proc : process) (temp_file_path : str)
  : result SummaryResponse :=
  transcript <-
    Transcription.transcribe_audio (transcription_env svc proc) temp_file_path ;;
  summary <-
    Summarization.generate_summary (summarization_env svc proc) transcript ;;
  titles <- TitleGeneration.generate_titles (title_env svc proc) summary ;;
  Ok {| summary := summary;
        suggested_titles := titles;
        full_transcript := transcript |}.

(** The endpoint: the response, or the detail of the [HTTPException] with
    status 500, and the process after the request. An error of a stage
    is wrapped by the inner handler (line 104) and, being an exception
    itself, once more by the outer one (line 115). *)
Definition generate_call_summary (svc : services) (proc : process)
           (req : request) : result SummaryResponse * process :=
  let proc := set_api_key proc req in
  (try_except
     (temp_file_path <- save_upload svc (filename req) ;;
      try_except
        (process_audio svc proc temp_file_path)
        (fun e =>
           Raise (http_exception_str svc (lit "Error processing audio: " ++ e))))
     (fun e => Raise (lit "Error processing audio: " ++ e)),
   proc).

(** *** Sample services *)

(** Nothing is installed and nothing answers but the upload. *)
Definition bare_services : services := {|
  save_upload := fun name => Ok (lit "/tmp/" ++ name);
  openai_transcriptions_create := fun _ => Raise (lit "no credential");
  whisper_transcribe := fun _ => Raise (lit "No module named 'whisper'");
  chat_completions_create := fun _ _ _ => Raise (lit "no credential");
  has_transformers := false;
  pipeline := Raise (lit "No module named 'transformers'");
  shuffle := @rev str;
  unicode := ascii_db;
  http_exception_str := fun detail => lit "500: " ++ detail
|}.

(** A remote service that answers every chat request with "OK"; no local
    model. *)
Definition remote_services : services := {|
  save_upload := fun name => Ok (lit "/tmp/" ++ name);
  openai_transcriptions_create := fun _ => Raise (lit "no credential");
  whisper_transcribe :=
    fun _ => Ok {| Transcription.w_segments := Some [Some (lit "Hello there.")] |};
  chat_completions_create := fun _ _ _ => Ok (lit "OK");
  has_transformers := false;
  pipeline := Raise (lit "No module named 'transformers'");
  shuffle := @rev str;
  unicode := ascii_db;
  http_exception_str := fun detail => lit "500: " ++ detail
|}.

(** A process started without any key. *)
Definition fresh_process : process := {|
  environ_OPENAI_API_KEY := None;
  openai_api_key := None
|}.

End Main.

(* ===================================================================== *)
(** ** Properties of the string functions                                *)
(* ===================================================================== *)

Section StringFacts.

Lemma str_eqb_eq (a b : str) : str_eqb a b = true <-> a = b.
Proof.
  unfold str_eqb. destruct (str_eq_dec a b); split; congruence.
Qed.

Lemma str_eqb_neq (a b : str) : str_eqb a b = false <-> a <> b.
Proof.
  unfold str_eqb. destruct (str_eq_dec a b); split; congruence.
Qed.

Lemma str_eqb_refl (a : str) : str_eqb a a = true.
Proof. apply str_eqb_eq. reflexivity. Qed.

Lemma join_cons (sep p : str) (ps : list str) :
  join sep (p :: ps) = p ++ flat_map (fun q => sep ++ q) ps.
Proof.
  revert p. induction ps as [|q ps IH]; intro p.
  - simpl. rewrite app_nil_r. reflexivity.
  - change (join sep (p :: q :: ps)) with (p ++ sep ++ join sep (q :: ps)).
    rewrite IH. simpl. rewrite <- app_assoc. reflexivity.
Qed.

Lemma drop_while_visible (s : str) : visible s -> visible (drop_while isspace s).
Proof.
  induction s as [|c s IH]; intros [x [Hin Hx]].
  - destruct Hin.
  - simpl. destruct (isspace c) eqn:Hc.
    + apply IH. destruct Hin as [->|Hin]; [congruence|]. exists x. auto.
    + exists x. auto.
Qed.

Lemma visible_rev (s : str) : visible s -> visible (rev s).
Proof.
  intros [c [Hin Hc]]. exists c. split; [apply in_rev; rewrite rev_involutive|]; assumption.
Qed.

Lemma visible_nonempty (s : str) : visible s -> s <> [].
Proof. intros [c [Hin _]] ->. destruct Hin. Qed.

Lemma strip_visible (s : str) : visible s -> visible (strip s).
Proof.
  intro H. unfold strip.
  apply visible_rev, drop_while_visible, visible_rev, drop_while_visible, H.
Qed.

Lemma visible_app_l (a b : str) : visible a -> visible (a ++ b).
Proof. intros [c [Hin Hc]]. exists c. split; [apply in_or_app; left|]; assumption. Qed.

Lemma visible_app_r (a b : str) : visible b -> visible (a ++ b).
Proof. intros [c [Hin Hc]]. exists c. split; [apply in_or_app; right|]; assumption. Qed.

End StringFacts.

(* ===================================================================== *)
(** ** The transcriber                                                   *)
(* ===================================================================== *)

Section TranscriberFacts.
Import Transcription.

Lemma render_turns_cons (tn : turn) (turns : list turn) :
  render_turns (tn :: turns) = render_turn tn ++ render_turns turns.
Proof. reflexivity. Qed.

Lemma render_after_None (turns : list turn) :
  render_after None turns = render_turns turns.
Proof. destruct turns as [|[label ts] turns]; reflexivity. Qed.

Lemma format_segments_render (segs : list segment) :
  Forall (fun seg => seg_text seg <> None) segs ->
  forall formatted cur,
  exists cur',
    format_segments (formatted, cur) segs
    = Ok (formatted ++ render_after cur (merge_turns (labelled segs)), cur').
Proof.
  induction 1 as [|seg segs Htext _ IH]; intros formatted cur.
  - exists cur. simpl. rewrite app_nil_r. reflexivity.
  - destruct seg as [spk [t|]]; [clear Htext|now elim Htext].
    set (seg := {| seg_speaker := spk; seg_text := Some t |}).
    set (label := speaker_label seg).
    assert (Hstep : forall rest : str,
               exists f', (st' <- segment_step (formatted, cur) seg ;;
                           format_segments st' segs)
                          = format_segments (formatted ++ f', Some label) segs
                          /\ f' ++ render_after (Some label) (merge_turns (labelled segs))
                             = render_after cur (merge_turns (labelled (seg :: segs)))).
    { intros _. unfold segment_step. fold label.
      change (labelled (seg :: segs)) with ((label, t) :: labelled segs).
      cbn [merge_turns].
      assert (Htail : forall label' ts turns,
                 render_after (Some label) ((label', ts) :: turns)
                 = if str_eqb label label'
                   then flat_map (fun t => lit " " ++ t) ts ++ render_turns turns
                   else render_turns ((label', ts) :: turns)).
      { intros label' ts turns. cbn [render_after].
        destruct (str_eqb label label') eqn:Hl.
        - apply str_eqb_eq in Hl. subst label'. rewrite str_eqb_refl. reflexivity.
        - assert (str_eqb label' label = false) as ->; [|reflexivity].
          apply str_eqb_neq. apply str_eqb_neq in Hl. congruence. }
      destruct (match cur with Some c => str_eqb label c | None => false end) eqn:Hcur.
      - exists (lit " " ++ t). split.
        + cbn. destruct cur as [c|]; [|discriminate].
          apply str_eqb_eq in Hcur. subst c. reflexivity.
        + destruct (merge_turns (labelled segs)) as [|[label' ts] turns].
          * cbn [render_after]. rewrite Hcur. cbn. rewrite !app_nil_r. reflexivity.
          * rewrite Htail. destruct (str_eqb label label') eqn:Hl.
            -- cbn [render_after]. rewrite Hcur. cbn [flat_map].
               rewrite <- !app_assoc. reflexivity.
            -- cbn [render_after]. rewrite Hcur. cbn [flat_map].
               rewrite app_nil_r, <- !app_assoc. reflexivity.
      - exists ([nl] ++ label ++ lit ": " ++ t). split.
        + cbn [negb get_text seg_text bind seg]. reflexivity.
        + destruct (merge_turns (labelled segs)) as [|[label' ts] turns].
          * cbn [render_after]. rewrite Hcur. cbn. rewrite !app_nil_r. reflexivity.
          * rewrite Htail. destruct (str_eqb label label') eqn:Hl.
            -- cbn [render_after]. rewrite Hcur, render_turns_cons.
               unfold render_turn. cbn [fst snd]. rewrite join_cons.
               rewrite <- !app_assoc. reflexivity.
            -- cbn [render_after]. rewrite Hcur, (render_turns_cons (label, [t])).
               unfold render_turn at 1. cbn [fst snd join].
               rewrite <- !app_assoc. reflexivity. }
    destruct (Hstep []) as [f' [Hrun Hrender]].
    destruct (IH (formatted ++ f') (Some label)) as [cur' Hrest].
    exists cur'. cbn [format_segments]. rewrite Hrun, <- Hrender, app_assoc.
    exact Hrest.
Qed.

Lemma merge_turns_segments (l : list (str * str)) :
  turn_segments (merge_turns l) = l.
Proof.
  induction l as [|[label t] l IH]; [reflexivity|].
  cbn [merge_turns].
  destruct (merge_turns l) as [|[label' ts] turns].
  - cbn in IH. subst l. reflexivity.
  - destruct (str_eqb label label') eqn:Hl.
    + apply str_eqb_eq in Hl. subst label'. rewrite <- IH. reflexivity.
    + rewrite <- IH. reflexivity.
Qed.

Lemma merge_turns_adjacent (l : list (str * str)) :
  adjacent_distinct (map fst (merge_turns l)).
Proof.
  induction l as [|[label t] l IH]; [exact I|].
  cbn [merge_turns].
  destruct (merge_turns l) as [|[label' ts] turns]; [exact I|].
  destruct (str_eqb label label') eqn:Hl.
  - apply str_eqb_eq in Hl. subst label'. exact IH.
  - apply str_eqb_neq in Hl. split; assumption.
Qed.

Lemma merge_turns_nonempty (l : list (str * str)) :
  Forall (fun tn : turn => snd tn <> []) (merge_turns l).
Proof.
  induction l as [|[label t] l IH]; [constructor|].
  cbn [merge_turns].
  destruct (merge_turns l) as [|[label' ts] turns].
  - constructor; [discriminate|constructor].
  - destruct (str_eqb label label').
    + inversion IH; subst. constructor; [discriminate|assumption].
    + constructor; [discriminate|assumption].
Qed.

(** C4: when the remote response carries segments, the transcript is the
    rendering of the turns obtained by merging adjacent segments with the
    same speaker label: a header is written only where the label changes,
    the turns cover the segments in order, and no two consecutive turns
    have the same label. For the segments (A, hi), (A, there), (B, hey)
    there are exactly two turns and the first covers "hi there". *)
Theorem transcribe_with_openai_merges_turns :
  forall env audio_path segs other,
    openai_transcriptions_create env audio_path
    = Ok (DictResponse (Some segs) other) ->
    Forall (fun seg => seg_text seg <> None) segs ->
    let turns := merge_turns (labelled segs) in
    transcribe_with_openai env audio_path = Ok (strip (render_turns turns))
    /\ turn_segments turns = labelled segs
    /\ adjacent_distinct (map fst turns)
    /\ Forall (fun tn : turn => snd tn <> []) turns
    /\ (segs = example_segments ->
        turns = [(lit "Speaker A", [lit "hi"; lit "there"]);
                 (lit "Speaker B", [lit "hey"])]
        /\ transcribe_with_openai env audio_path
           = Ok (lit "Speaker A: hi there" ++ [nl] ++ lit "Speaker B: hey")).
Proof.
  intros env audio_path segs other Hresp Htext turns.
  assert (Hrun : transcribe_with_openai env audio_path
                 = Ok (strip (render_turns turns))).
  { unfold transcribe_with_openai. rewrite Hresp. cbn [bind].
    destruct (format_segments_render Htext [] None) as [cur' ->].
    cbn [bind fst app]. rewrite render_after_None. reflexivity. }
  split; [exact Hrun|].
  split; [apply merge_turns_segments|].
  split; [apply merge_turns_adjacent|].
  split; [apply merge_turns_nonempty|].
  intros ->. split; [reflexivity|]. rewrite Hrun. reflexivity.
Qed.

(** The segments (A, hi), (A, there), (B, hey) of the specification. *)
Lemma transcribe_with_openai_merges_turns_witness :
  openai_transcriptions_create example_env (lit "call.wav")
  = Ok (DictResponse (Some example_segments) None)
  /\ Forall (fun seg => seg_text seg <> None) example_segments
  /\ transcribe_with_openai example_env (lit "call.wav")
     = Ok (lit "Speaker A: hi there" ++ [nl] ++ lit "Speaker B: hey")
  /\ length (merge_turns (labelled example_segments)) = 2.
Proof.
  assert (Hresp : openai_transcriptions_create example_env (lit "call.wav")
                  = Ok (DictResponse (Some example_segments) None))
    by reflexivity.
  assert (Htext : Forall (fun seg => seg_text seg <> None) example_segments)
    by (repeat constructor; discriminate).
  split; [exact Hresp|]. split; [exact Htext|].
  destruct (transcribe_with_openai_merges_turns
              example_env (lit "call.wav") Hresp Htext)
    as (_ & _ & _ & _ & Hexample).
  destruct (Hexample eq_refl) as [Hturns Hout].
  split; [exact Hout|]. rewrite Hturns. reflexivity.
Defined.

(** *** The local path and the fallback chain *)

Lemma speaker_block_visible (chunk : str) : visible (speaker_block chunk).
Proof.
  exists (ch "S"). split; [|reflexivity].
  unfold speaker_block. right. left. reflexivity.
Qed.

Lemma whisper_step_unfold (formatted chunk : str) (seg : option str) :
  whisper_step (formatted, chunk) seg
  = let chunk' := chunk ++ match seg with Some t => t | None => [] end in
    if 200 <? length chunk'
    then (formatted ++ speaker_block chunk', [])
    else (formatted, chunk').
Proof. reflexivity. Qed.

Lemma whisper_fold_invariant (segments : list (option str)) :
  forall formatted chunk,
    let texts := map (fun s : option str => match s with Some t => t | None => [] end)
                     segments in
    let st := fold_left whisper_step segments (formatted, chunk) in
    (visible formatted -> visible (fst st))
    /\ ((fst st = formatted /\ snd st = chunk ++ concat texts) \/ visible (fst st)).
Proof.
  induction segments as [|seg segments IH]; intros formatted chunk.
  - cbn. split; [auto|]. left. rewrite app_nil_r. auto.
  - cbn [fold_left map concat]. rewrite whisper_step_unfold. cbv zeta.
    set (t := match seg with Some t => t | None => [] end).
    destruct (200 <? length (chunk ++ t)).
    + destruct (IH (formatted ++ speaker_block (chunk ++ t)) []) as [Hv _].
      assert (Hvis : visible (formatted ++ speaker_block (chunk ++ t)))
        by apply visible_app_r, speaker_block_visible.
      split; [intros _; apply Hv, Hvis|]. right. apply Hv, Hvis.
    + destruct (IH formatted (chunk ++ t)) as [Hv Hst].
      split; [exact Hv|].
      destruct Hst as [[Hf Hc]|Hvis]; [left|right; exact Hvis].
      split; [exact Hf|]. rewrite Hc, <- app_assoc. reflexivity.
Qed.

Lemma whisper_fold_silent (segments : list (option str)) :
  concat (map (fun s : option str => match s with Some t => t | None => [] end)
              segments) = [] ->
  forall formatted,
    fold_left whisper_step segments (formatted, []) = (formatted, []).
Proof.
  induction segments as [|seg segments IH]; intros Hnil formatted; [reflexivity|].
  cbn [map concat] in Hnil. apply app_eq_nil in Hnil. destruct Hnil as [Ht Hrest].
  cbn [fold_left]. rewrite whisper_step_unfold, Ht. cbn. apply IH, Hrest.
Qed.

Lemma transcribe_with_whisper_returns (env : environment) (audio_path : str) :
  exists transcript,
    transcribe_with_whisper env audio_path = Ok transcript
    /\ (forall e, whisper_transcribe env audio_path = Raise e ->
                  transcript = lit "Transcription failed: " ++ e)
    /\ (forall output, whisper_transcribe env audio_path = Ok output ->
                       (transcript = [] <-> concat (whisper_texts output) = [])).
Proof.
  unfold transcribe_with_whisper.
  destruct (whisper_transcribe env audio_path) as [output|e].
  - cbn [bind try_except]. unfold whisper_texts.
    set (segments := match w_segments output with Some l => l | None => [] end).
    pose proof (whisper_fold_invariant segments [] []) as Hinv.
    pose proof (@whisper_fold_silent segments) as Hsilent.
    cbv zeta in Hinv.
    destruct (fold_left whisper_step segments ([], [])) as [formatted chunk] eqn:Hfold.
    cbn [fst snd] in Hinv. destruct Hinv as [_ Hinv].
    eexists. split.
    + cbn [try_except]. reflexivity.
    + split; [discriminate|]. intros output' Hout. injection Hout as <-.
      fold segments. split.
      * intro Hempty.
        destruct (concat _) as [|c cs] eqn:Hconcat; [reflexivity|exfalso].
        revert Hempty. apply visible_nonempty, strip_visible.
        destruct Hinv as [[-> ->]|Hvis].
        -- cbn [app]. apply speaker_block_visible.
        -- destruct chunk; [exact Hvis|apply visible_app_l, Hvis].
      * intro Hconcat. rewrite (Hsilent Hconcat []) in Hfold.
        injection Hfold as <- <-. reflexivity.
  - cbn [bind try_except]. eexists. split; [reflexivity|]. split.
    + intros e' He. injection He as <-. reflexivity.
    + discriminate.
Qed.

Lemma segment_step_visible (seg : segment) (formatted : str) (cur : option str)
      (st : str * option str) :
  (cur <> None -> visible formatted) ->
  segment_step (formatted, cur) seg = Ok st ->
  visible (fst st) /\ snd st <> None.
Proof.
  intros Hinv. unfold segment_step.
  destruct (get_text seg) as [t|e]; [|destruct (negb _); discriminate].
  destruct (negb _) eqn:Hcur; cbn [bind]; intro H; injection H as <-.
  - split; [|discriminate].
    exists (ch "S"). split; [|reflexivity].
    cbn [fst]. apply in_or_app. right. cbn. right. left. reflexivity.
  - destruct cur as [c|]; [|discriminate].
    split; [|discriminate]. cbn [fst]. apply visible_app_l, Hinv. discriminate.
Qed.

Lemma format_segments_visible (segs : list segment) :
  forall formatted cur st,
    (cur <> None -> visible formatted) ->
    format_segments (formatted, cur) segs = Ok st ->
    segs <> [] \/ visible formatted ->
    visible (fst st).
Proof.
  induction segs as [|seg segs IH]; intros formatted cur st Hinv Hrun Hne.
  - injection Hrun as <-. destruct Hne as [Hne|Hvis]; [now elim Hne|exact Hvis].
  - cbn [format_segments] in Hrun.
    destruct (segment_step (formatted, cur) seg) as [[formatted1 cur1]|e] eqn:Hstep;
      [|discriminate].
    destruct (segment_step_visible _ Hinv Hstep) as [Hvis Hcur].
    cbn [bind] in Hrun. apply (IH formatted1 cur1 st); auto.
Qed.

Lemma transcribe_with_openai_empty (env : environment) (audio_path transcript : str) :
  transcribe_with_openai env audio_path = Ok transcript ->
  (transcript = [] <->
   exists other,
     openai_transcriptions_create env audio_path = Ok (DictResponse (Some []) other)).
Proof.
  unfold transcribe_with_openai.
  destruct (openai_transcriptions_create env audio_path) as [response|e];
    [|discriminate].
  cbn [bind].
  destruct response as [[[|seg segs]|] text|text].
  - cbn. intro H. injection H as <-. split; [eauto|reflexivity].
  - destruct (format_segments ([], None) (seg :: segs)) as [st|e] eqn:Hrun;
      [|discriminate].
    cbn [bind]. intro H. injection H as <-.
    assert (Hvis : visible (fst st)).
    { apply (@format_segments_visible (seg :: segs) [] None st).
      - intro H. now elim H.
      - exact Hrun.
      - left. discriminate. }
    split.
    + intro Hempty. exfalso. revert Hempty. apply visible_nonempty, strip_visible, Hvis.
    + intros [other Hother]. discriminate.
  - destruct text as [t|]; intro H; injection H as <-;
      (split; [discriminate|intros [other Hother]; discriminate]).
  - destruct text as [t|]; intro H; injection H as <-;
      (split; [discriminate|intros [other Hother]; discriminate]).
Qed.

(** C2, as amended: [transcribe_audio] never raises; when both paths fail
    it returns the non-empty description "Transcription failed: ..."; and
    the transcript it returns is empty exactly when the path that produced
    it succeeded without any text: a remote response with an empty list of
    segments, or a local transcription whose segment texts are all empty. *)
Theorem transcribe_audio_never_raises :
  forall env audio_path,
  exists transcript,
    transcribe_audio env audio_path = Ok transcript
    /\ (forall e,
          remote_failed env audio_path ->
          whisper_transcribe env audio_path = Raise e ->
          transcript = lit "Transcription failed: " ++ e /\ transcript <> [])
    /\ (transcript = [] <->
        (api_key env = true
         /\ exists other,
             openai_transcriptions_create env audio_path
             = Ok (DictResponse (Some []) other))
        \/ (remote_failed env audio_path
            /\ exists output,
                whisper_transcribe env audio_path = Ok output
                /\ concat (whisper_texts output) = [])).
Proof.
  intros env audio_path.
  destruct (transcribe_with_whisper_returns env audio_path)
    as (local & Hlocal & Hraise & Hok).
  assert (Hfallback :
            forall transcript,
              remote_failed env audio_path ->
              transcript = local ->
              (forall e,
                  whisper_transcribe env audio_path = Raise e ->
                  transcript = lit "Transcription failed: " ++ e /\ transcript <> [])
              /\ (transcript = [] <->
                  (api_key env = true
                   /\ exists other,
                       openai_transcriptions_create env audio_path
                       = Ok (DictResponse (Some []) other))
                  \/ (remote_failed env audio_path
                      /\ exists output,
                          whisper_transcribe env audio_path = Ok output
                          /\ concat (whisper_texts output) = []))).
  { intros transcript Hfailed ->. split.
    - intros e He. rewrite (Hraise e He). split; [reflexivity|discriminate].
    - split.
      + intro Hempty. right. split; [exact Hfailed|].
        destruct (whisper_transcribe env audio_path) as [output|e] eqn:Hw.
        * exists output. split; [reflexivity|]. apply (Hok output eq_refl), Hempty.
        * rewrite (Hraise e eq_refl) in Hempty. discriminate.
      + intros [[Hkey [other Hother]]|[_ [output [Hout Hnil]]]].
        * destruct Hfailed as [Hno|[e He]]; [congruence|].
          unfold transcribe_with_openai in He. rewrite Hother in He. discriminate.
        * apply (Hok output Hout), Hnil. }
  unfold transcribe_audio.
  destruct (api_key env) eqn:Hkey.
  - destruct (transcribe_with_openai env audio_path) as [remote|e] eqn:Hremote.
    + exists remote. split; [reflexivity|]. split.
      * intros e [Hno|[e' He']]; congruence.
      * rewrite (transcribe_with_openai_empty _ _ Hremote). split.
        -- intro H. left. split; [reflexivity|exact H].
        -- intros [[_ H]|[[Hno|[e He]] _]]; [exact H|congruence|congruence].
    + exists local. split; [exact Hlocal|].
      destruct (Hfallback local) as [Hdesc Hempty];
        [right; exists e; exact Hremote|reflexivity|].
      split; [intros e0 _; apply Hdesc|exact Hempty].
  - exists local. split; [exact Hlocal|].
    destruct (Hfallback local) as [Hdesc Hempty]; [left; exact Hkey|reflexivity|].
    split; [intros e0 _; apply Hdesc|exact Hempty].
Qed.

(** C2 fails as stated: with no credential and a local model that hears
    nothing, the transcript is the empty string. *)
Lemma transcribe_audio_silent_is_empty :
  transcribe_audio silent_env (lit "silence.wav") = Ok [].
Proof. reflexivity. Qed.

End TranscriberFacts.

(* ===================================================================== *)
(** ** The summarizer                                                    *)
(* ===================================================================== *)

Section SummarizerFacts.
Import Summarization.

(** *** Fixed-size chunks of the remote path *)

Lemma max_chunk_size_pos : 0 < max_chunk_size.
Proof. apply Nat.ltb_lt. vm_compute. reflexivity. Qed.

Lemma slice_step {A} (l : list A) (i step : nat) :
  slice l i (i + step) = firstn step (skipn i l).
Proof. unfold slice. replace (i + step - i) with step by lia. reflexivity. Qed.

Lemma range_from_concat {A} (l : list A) (step : nat) :
  0 < step ->
  forall fuel i,
    length l - i <= fuel ->
    concat (map (fun i => slice l i (i + step)) (range_from fuel i (length l) step))
    = skipn i l.
Proof.
  intros Hstep. induction fuel as [|fuel IH]; intros i Hfuel.
  - cbn. symmetry. apply skipn_all2. lia.
  - cbn [range_from]. destruct (i <? length l) eqn:Hlt.
    + cbn [map concat]. rewrite IH by lia. rewrite slice_step.
      rewrite (Nat.add_comm i step), <- skipn_skipn. apply firstn_skipn.
    + apply Nat.ltb_ge in Hlt. cbn. symmetry. apply skipn_all2. exact Hlt.
Qed.

Lemma range_from_length (stop step : nat) :
  0 < step ->
  forall fuel i,
    stop - i <= fuel ->
    length (range_from fuel i stop step) = (stop - i + step - 1) / step.
Proof.
  intros Hstep. induction fuel as [|fuel IH]; intros i Hfuel.
  - cbn. symmetry. apply Nat.div_small. lia.
  - cbn [range_from]. destruct (i <? stop) eqn:Hlt.
    + apply Nat.ltb_lt in Hlt. cbn [length]. rewrite IH by lia.
      replace (stop - i + step - 1) with ((stop - i - 1) + 1 * step) by lia.
      rewrite Nat.div_add by lia.
      destruct (Nat.le_gt_cases step (stop - i)) as [Hge|Hsmall].
      * replace (stop - (i + step) + step - 1) with (stop - i - 1) by lia. lia.
      * replace (stop - (i + step) + step - 1) with (step - 1) by lia.
        rewrite !Nat.div_small by lia. reflexivity.
    + apply Nat.ltb_ge in Hlt. cbn. symmetry. apply Nat.div_small. lia.
Qed.

Lemma range_from_nth (stop step : nat) :
  forall fuel i k x,
    nth_error (range_from fuel i stop step) k = Some x ->
    x = i + k * step /\ x < stop.
Proof.
  induction fuel as [|fuel IH]; intros i k x Hnth.
  - destruct k; discriminate.
  - cbn [range_from] in Hnth. destruct (i <? stop) eqn:Hlt.
    + apply Nat.ltb_lt in Hlt. destruct k as [|k].
      * injection Hnth as <-. lia.
      * cbn [nth_error] in Hnth. apply IH in Hnth. lia.
    + destruct k; discriminate.
Qed.

(** C5: the remote path cuts a long transcript into the slices
    [transcript[i:i+10000]] at the multiples of 10000; their concatenation
    in order is the transcript, each is non-empty, every one but the last
    is 10000 characters long and the last at most that, there are
    [ceil(len/10000)] of them, and a transcript of 25,000 characters gives
    exactly 3. A transcript longer than 10000
    characters is summarized chunk by chunk, in this order. *)
#[warning="-abstract-large-number"]
Theorem openai_chunks_reconstruct :
  forall transcript,
    let chunks := openai_chunks transcript in
    concat chunks = transcript
    /\ (forall k chunk,
          nth_error chunks k = Some chunk ->
          chunk = slice transcript (k * max_chunk_size)
                        (k * max_chunk_size + max_chunk_size)
          /\ 0 < length chunk <= max_chunk_size
          /\ (S k < length chunks -> length chunk = max_chunk_size))
    /\ length chunks = (length transcript + max_chunk_size - 1) / max_chunk_size
    /\ (length transcript = 25000 -> length chunks = 3)
    /\ (forall env,
          max_chunk_size < length transcript ->
          summarize_with_openai env transcript
          = (chunk_summaries <-
               mapM (fun chunk =>
                       chat_completions_create env system_prompt
                         (lit "Summarize this part of the transcript: " ++ chunk) 500)
                    chunks ;;
             chat_completions_create env system_prompt
               (lit "Create a final summary combining these partial summaries: "
                    ++ join (lit " ") chunk_summaries) 800)).
Proof.
  intros transcript chunks. subst chunks. unfold openai_chunks, range.
  pose proof max_chunk_size_pos as Hpos.
  assert (Hlen : length (map (fun i => slice transcript i (i + max_chunk_size))
                             (range_from (length transcript - 0) 0
                                         (length transcript) max_chunk_size))
                 = (length transcript + max_chunk_size - 1) / max_chunk_size).
  { rewrite length_map, range_from_length by lia.
    rewrite Nat.sub_0_r. reflexivity. }
  split; [|split; [|split; [|split]]].
  - rewrite range_from_concat by lia. reflexivity.
  - intros k chunk Hnth. rewrite nth_error_map in Hnth.
    destruct (nth_error _ k) as [i|] eqn:Hi; [|discriminate].
    injection Hnth as <-.
    apply range_from_nth in Hi. destruct Hi as [-> Hlt]. cbn [Nat.add].
    split; [reflexivity|]. rewrite slice_step, length_firstn, length_skipn.
    split; [lia|]. rewrite length_map. intro Hnext.
    destruct (nth_error (range_from (length transcript - 0) 0 (length transcript)
                                    max_chunk_size) (S k)) as [j|] eqn:Hj.
    + apply range_from_nth in Hj. lia.
    + apply nth_error_None in Hj. lia.
  - exact Hlen.
  - intro H25. rewrite Hlen, H25. vm_compute. reflexivity.
  - intros env Hlong. unfold summarize_with_openai.
    apply Nat.ltb_lt in Hlong. rewrite Hlong. reflexivity.
Qed.

(** *** Word-bounded chunks of the local path *)

Lemma split_ws_from_words (s : str) :
  forall cur,
    Forall (fun c => isspace c = false) cur ->
    Forall is_word (split_ws_from cur s).
Proof.
  induction s as [|c s IH]; intros cur Hcur.
  - cbn. destruct cur; constructor; [|constructor].
    split; [discriminate|exact Hcur].
  - cbn [split_ws_from]. destruct (isspace c) eqn:Hc.
    + destruct cur as [|a cur]; [apply IH; constructor|].
      constructor; [split; [discriminate|exact Hcur]|apply IH; constructor].
    + apply IH. apply Forall_app. split; [exact Hcur|].
      constructor; [exact Hc|constructor].
Qed.

Lemma split_ws_words (s : str) : Forall is_word (split_ws s).
Proof. apply split_ws_from_words. constructor. Qed.

Lemma split_ws_from_word (w : str) :
  Forall (fun c => isspace c = false) w ->
  forall cur rest, split_ws_from cur (w ++ rest) = split_ws_from (cur ++ w) rest.
Proof.
  induction 1 as [|c w Hc _ IH]; intros cur rest.
  - rewrite app_nil_r. reflexivity.
  - cbn [app split_ws_from]. rewrite Hc, IH, <- app_assoc. reflexivity.
Qed.

Lemma split_ws_join (words : list str) :
  Forall is_word words -> split_ws (join (lit " ") words) = words.
Proof.
  unfold split_ws. induction 1 as [|w words [Hne Hw] Hwords IH]; [reflexivity|].
  destruct words as [|w' words].
  - cbn [join]. pose proof (split_ws_from_word Hw [] []) as E.
    rewrite app_nil_r in E. rewrite E.
    cbn. destruct w; [now elim Hne|reflexivity].
  - change (join (lit " ") (w :: w' :: words))
      with (w ++ lit " " ++ join (lit " ") (w' :: words)).
    rewrite split_ws_from_word by exact Hw.
    cbn [app lit list_ascii_of_string map split_ws_from].
    change (isspace (N_of_ascii " ")) with true. cbv iota.
    change (lit " ") with [N_of_ascii " "] in IH. rewrite IH. destruct w; [now elim Hne|reflexivity].
Qed.

Lemma join_snoc_length (sep : str) (l : list str) (w : str) :
  length (join sep (l ++ [w])) <= length (join sep l) + length w + length sep.
Proof.
  induction l as [|p l IH]; [cbn; lia|].
  destruct l as [|q l].
  - cbn. rewrite !length_app. lia.
  - change (join sep ((p :: q :: l) ++ [w]))
      with (p ++ sep ++ join sep ((q :: l) ++ [w])).
    change (join sep (p :: q :: l)) with (p ++ sep ++ join sep (q :: l)).
    rewrite !length_app in *. lia.
Qed.

Lemma chunk_step_unfold (max_length : nat) (chunks current_chunk : list str)
      (current_length : nat) (word : str) :
  chunk_step max_length (chunks, current_chunk, current_length) word
  = if max_length <? current_length + length word + 1
    then (chunks ++ [join (lit " ") current_chunk], [word], length word)
    else (chunks, current_chunk ++ [word], current_length + length word + 1).
Proof. reflexivity. Qed.

Lemma chunk_words_groups (max_length : nat) (words : list str) :
  forall chunks current_chunk current_length,
  exists groups,
    chunk_words max_length words (chunks, current_chunk, current_length)
    = chunks ++ map (join (lit " ")) groups
    /\ concat groups = current_chunk ++ words.
Proof.
  unfold chunk_words.
  induction words as [|word words IH]; intros chunks current_chunk current_length.
  - cbn [fold_left]. destruct current_chunk as [|w ws].
    + exists []. cbn. rewrite app_nil_r. auto.
    + exists [w :: ws]. cbn [map concat]. rewrite !app_nil_r. auto.
  - cbn [fold_left]. rewrite chunk_step_unfold.
    destruct (max_length <? current_length + length word + 1).
    + destruct (IH (chunks ++ [join (lit " ") current_chunk]) [word] (length word))
        as (groups & -> & Hgroups).
      exists (current_chunk :: groups). cbn [map concat].
      rewrite <- app_assoc, Hgroups. auto.
    + destruct (IH chunks (current_chunk ++ [word])
                   (current_length + length word + 1))
        as (groups & -> & Hgroups).
      exists groups. rewrite Hgroups, <- app_assoc. auto.
Qed.

Lemma chunk_words_bounded (max_length : nat) (words : list str) :
  Forall (fun word => length word <= max_length) words ->
  forall chunks current_chunk current_length,
    Forall (fun chunk => length chunk <= max_length) chunks ->
    length (join (lit " ") current_chunk) <= current_length ->
    current_length <= max_length ->
    Forall (fun chunk => length chunk <= max_length)
           (chunk_words max_length words (chunks, current_chunk, current_length)).
Proof.
  unfold chunk_words.
  induction 1 as [|word words Hword _ IH];
    intros chunks current_chunk current_length Hchunks Hjoin Hlen.
  - cbn [fold_left]. destruct current_chunk; [exact Hchunks|].
    apply Forall_app. split; [exact Hchunks|]. constructor; [lia|constructor].
  - cbn [fold_left]. rewrite chunk_step_unfold.
    destruct (max_length <? current_length + length word + 1) eqn:Hfull.
    + apply IH; [|cbn; lia|exact Hword].
      apply Forall_app. split; [exact Hchunks|]. constructor; [lia|constructor].
    + apply Nat.ltb_ge in Hfull. apply IH; [exact Hchunks| |lia].
      pose proof (join_snoc_length (lit " ") current_chunk word) as Hsnoc.
      change (length (lit " ")) with 1 in Hsnoc. lia.
Qed.

(** C6, as amended: [chunk_text] never splits inside a word: its chunks
    are the joins of consecutive groups of the text's words, so that
    splitting the chunks into words again gives back the words of the
    text, each in exactly one chunk; and every chunk is at most
    [max_length] characters long when every word of the text is. *)
Theorem chunk_text_word_bounded :
  forall text max_length,
    let chunks := chunk_text text max_length in
    concat (map split_ws chunks) = split_ws text
    /\ (exists groups,
          concat groups = split_ws text
          /\ chunks = map (join (lit " ")) groups)
    /\ (Forall (fun word => length word <= max_length) (split_ws text) ->
        Forall (fun chunk => length chunk <= max_length) chunks).
Proof.
  intros text max_length chunks. subst chunks. unfold chunk_text.
  destruct (chunk_words_groups max_length (split_ws text) [] [] 0)
    as (groups & Hchunks & Hgroups).
  cbn [app] in Hchunks, Hgroups.
  split; [|split].
  - rewrite Hchunks, <- Hgroups.
    assert (Hwords : Forall (Forall is_word) groups).
    { pose proof (split_ws_words text) as Hall. rewrite <- Hgroups in Hall.
      clear - Hall. induction groups as [|g groups IH]; [constructor|].
      cbn [concat] in Hall. apply Forall_app in Hall. destruct Hall as [Hg Hrest].
      constructor; [exact Hg|apply IH, Hrest]. }
    clear - Hwords. induction Hwords as [|g groups Hg _ IH]; [reflexivity|].
    cbn [map concat]. rewrite IH, (split_ws_join Hg). reflexivity.
  - exists groups. auto.
  - intro Hwords. apply chunk_words_bounded; auto. cbn. lia.
Qed.

(** "alpha beta gamma " repeated 70 times, 1190 characters: two chunks,
    of 996 and 192 characters, with all 210 words whole. *)
Example chunk_text_alpha_beta_gamma :
  let text := concat (repeat (lit "alpha beta gamma ") 70) in
  map (@length char) (chunk_text text 1000) = [996; 192]
  /\ concat (map split_ws (chunk_text text 1000)) = split_ws text
  /\ length (split_ws text) = 210.
Proof. vm_compute. repeat split; reflexivity. Qed.

(** C6 fails as stated: a single word of 1001 characters comes back as a
    chunk of 1001 characters, over the bound of 1000. *)
Lemma chunk_text_long_word_over_bound :
  chunk_text (repeat (ch "a") 1001) 1000 = [[]; repeat (ch "a") 1001]
  /\ exists chunk,
       In chunk (chunk_text (repeat (ch "a") 1001) 1000)
       /\ 1000 < length chunk.
Proof.
  assert (H : chunk_text (repeat (ch "a") 1001) 1000 = [[]; repeat (ch "a") 1001])
    by (vm_compute; reflexivity).
  split; [exact H|]. rewrite H.
  exists (repeat (ch "a") 1001). split; [right; left; reflexivity|].
  rewrite repeat_length. lia.
Qed.

(** *** Sections of the summary *)

Lemma starts_with_app (p s : str) : starts_with p (p ++ s) = true.
Proof.
  induction p as [|c p IH]; [reflexivity|].
  cbn. unfold char_eqb. rewrite N.eqb_refl. exact IH.
Qed.

Lemma starts_with_eq (p s : str) :
  starts_with p s = true -> s = p ++ skipn (length p) s.
Proof.
  revert s. induction p as [|c p IH]; intros s H; [reflexivity|].
  destruct s as [|d s]; [discriminate|].
  cbn in H. apply andb_prop in H. destruct H as [Hc Hp].
  apply N.eqb_eq in Hc. subst d. cbn. f_equal. apply IH, Hp.
Qed.

Lemma contains_app (p before after : str) :
  contains p (before ++ p ++ after) = true.
Proof.
  induction before as [|c before IH].
  - cbn [app]. destruct (p ++ after) eqn:E; cbn [contains];
      rewrite <- E, starts_with_app; reflexivity.
  - cbn [app contains]. rewrite IH. apply orb_true_r.
Qed.

Lemma key_point_bullets_append (sentences : list str) :
  forall acc : str,
  exists bullets,
    fold_left (fun acc sentence =>
                 if 10 <? length sentence
                 then acc ++ lit "- " ++ sentence ++ [nl]
                 else acc)
              sentences acc
    = acc ++ bullets.
Proof.
  induction sentences as [|sentence sentences IH]; intro acc.
  - exists []. cbn. rewrite app_nil_r. reflexivity.
  - cbn [fold_left]. destruct (10 <? length sentence).
    + destruct (IH (acc ++ lit "- " ++ sentence ++ [nl])) as [bullets ->].
      exists ((lit "- " ++ sentence ++ [nl]) ++ bullets).
      rewrite <- !app_assoc. reflexivity.
    + apply IH.
Qed.

Lemma summarize_with_transformers_sections (env : environment) (transcript : str)
      (summarizer : str -> nat -> nat -> result str) :
  pipeline env = Ok summarizer ->
  exists narrative bullets,
    summarize_with_transformers env transcript
    = Ok (meeting_summary_header ++ narrative ++ [nl; nl]
          ++ key_points_header ++ bullets).
Proof.
  intro Hpipe. unfold summarize_with_transformers. rewrite Hpipe. cbn [bind].
  set (combined := join (lit " ") _).
  destruct (key_point_bullets_append
              (firstn 5 (split_sentences combined))
              ((meeting_summary_header ++ combined ++ [nl; nl]) ++ key_points_header))
    as [bullets Hfold].
  exists combined, bullets. rewrite Hfold, <- !app_assoc. reflexivity.
Qed.

Lemma simple_extractive_summary_sections (transcript : str) :
  exists narrative,
    simple_extractive_summary transcript
    = meeting_summary_header ++ narrative ++ [nl; nl] ++ key_points_header
      ++ key_points_lines
           (length (nodup str_eq_dec (find_speaker_turns transcript)))
           (length (split_sentences transcript))
           (length (find_speaker_turns transcript)).
Proof.
  set (sentences := split_sentences transcript).
  exists (join (lit " ")
               (firstn 3 sentences
                ++ slice sentences (length sentences / 2) (length sentences / 2 + 2)
                ++ last_n 3 sentences)).
  unfold simple_extractive_summary, key_points_lines. cbv zeta. fold sentences.
  cbn [app]. rewrite <- !app_assoc. reflexivity.
Qed.

(** C3, as amended: whenever the summary is produced locally -- there is
    no remote credential or the remote path raises, and the local model is
    either absent or loads -- [generate_summary] returns, for every
    transcript, a document that starts with the "## Meeting Summary"
    narrative section and contains the "## Key Points" section. *)
Theorem generate_summary_local_sections :
  forall env transcript,
    (OPENAI_API_KEY env = false
     \/ exists e, summarize_with_openai env (clean_transcript transcript) = Raise e) ->
    (has_transformers env = false
     \/ exists summarizer, pipeline env = Ok summarizer) ->
    exists narrative bullets,
      generate_summary env transcript
      = Ok (meeting_summary_header ++ narrative ++ [nl; nl]
            ++ key_points_header ++ bullets)
      /\ contains (lit "## Key Points")
                  (meeting_summary_header ++ narrative ++ [nl; nl]
                   ++ key_points_header ++ bullets) = true.
Proof.
  intros env transcript Hremote Hlocal.
  assert (Hdoc :
            exists narrative bullets,
              (if has_transformers env
               then summarize_with_transformers env (clean_transcript transcript)
               else Ok (simple_extractive_summary (clean_transcript transcript)))
              = Ok (meeting_summary_header ++ narrative ++ [nl; nl]
                    ++ key_points_header ++ bullets)).
  { destruct (has_transformers env).
    - destruct Hlocal as [Hno|[summarizer Hpipe]]; [discriminate|].
      apply (summarize_with_transformers_sections _ _ Hpipe).
    - destruct (simple_extractive_summary_sections (clean_transcript transcript))
        as [narrative ->]. eauto. }
  destruct Hdoc as (narrative & bullets & Hdoc).
  exists narrative, bullets. split.
  - unfold generate_summary. cbv zeta.
    destruct (OPENAI_API_KEY env).
    + destruct Hremote as [Hno|[e He]]; [discriminate|].
      rewrite He. cbn [try_except]. exact Hdoc.
    + exact Hdoc.
  - unfold key_points_header.
    rewrite (app_assoc meeting_summary_header), (app_assoc _ [nl; nl]).
    rewrite <- (app_assoc (lit "## Key Points")).
    apply contains_app.
Qed.

(** The empty transcript, without credential and without local model. *)
Lemma generate_summary_local_sections_witness :
  (OPENAI_API_KEY offline_env = false
   \/ exists e, summarize_with_openai offline_env (clean_transcript []) = Raise e)
  /\ (has_transformers offline_env = false
      \/ exists summarizer, pipeline offline_env = Ok summarizer)
  /\ exists narrative bullets,
      generate_summary offline_env []
      = Ok (meeting_summary_header ++ narrative ++ [nl; nl]
            ++ key_points_header ++ bullets)
      /\ contains (lit "## Key Points")
                  (meeting_summary_header ++ narrative ++ [nl; nl]
                   ++ key_points_header ++ bullets) = true.
Proof.
  split; [left; reflexivity|]. split; [left; reflexivity|].
  apply (@generate_summary_local_sections offline_env []);
    left; reflexivity.
Defined.

(** C3 fails as stated: the remote path hands back the completion as it
    is, here a document without any "Key Points" section. *)
Lemma generate_summary_remote_without_key_points :
  generate_summary terse_env example_transcript = Ok (lit "OK")
  /\ contains (lit "Key Points") (lit "OK") = false.
Proof. split; vm_compute; reflexivity. Qed.

(** C10: no randomness enters the rule-based summary. The one value of
    [simple_extractive_summary] whose layout changes from one process to
    the next is the set of speaker labels, and only its size is used: two
    runs on equal transcripts, each with its own layout of sets, return
    the same document, the one computed with the labels in their order of
    appearance. The rule-based titles, in contrast, change with the
    shuffle: two shuffles give different titles for one summary. *)
Theorem rule_based_summary_deterministic :
  forall layout1 layout2 transcript1 transcript2,
    set_layout layout1 -> set_layout layout2 ->
    transcript1 = transcript2 ->
    simple_extractive_summary_in layout1 (clean_transcript transcript1)
    = simple_extractive_summary_in layout2 (clean_transcript transcript2)
    /\ simple_extractive_summary_in layout1 (clean_transcript transcript1)
       = simple_extractive_summary (clean_transcript transcript1)
    /\ (forall l, Permutation l (TitleGeneration.shuffle TitleGeneration.offline_env l))
    /\ (forall l, Permutation l (TitleGeneration.shuffle TitleGeneration.offline_env' l))
    /\ TitleGeneration.generate_titles_rule_based
         TitleGeneration.offline_env TitleGeneration.example_summary
       <> TitleGeneration.generate_titles_rule_based
            TitleGeneration.offline_env' TitleGeneration.example_summary.
Proof.
  intros layout1 layout2 transcript1 transcript2 Hlayout1 Hlayout2 <-.
  assert (Hsize : forall layout,
             set_layout layout ->
             forall t, simple_extractive_summary_in layout t
                       = simple_extractive_summary t).
  { intros layout Hlayout t.
    unfold simple_extractive_summary_in, simple_extractive_summary. cbv zeta.
    rewrite (Permutation_length (Hlayout (find_speaker_turns t))). reflexivity. }
  split; [rewrite !Hsize by assumption; reflexivity|].
  split; [apply Hsize, Hlayout1|].
  split; [intro l; apply Permutation_rev|].
  split; [intro l; apply Permutation_refl|].
  vm_compute. discriminate.
Qed.

(** Two processes that lay out the speakers of the example in opposite
    orders. *)
Lemma rule_based_summary_deterministic_witness :
  simple_extractive_summary_in (nodup str_eq_dec) (clean_transcript example_transcript)
  = simple_extractive_summary_in (fun xs => rev (nodup str_eq_dec xs))
      (clean_transcript example_transcript)
  /\ nodup str_eq_dec (find_speaker_turns (clean_transcript example_transcript))
     = [lit "Speaker B"; lit "Speaker A"]
  /\ rev (nodup str_eq_dec (find_speaker_turns (clean_transcript example_transcript)))
     = [lit "Speaker A"; lit "Speaker B"].
Proof.
  split; [|split; vm_compute; reflexivity].
  apply (@rule_based_summary_deterministic
           (nodup str_eq_dec) (fun xs => rev (nodup str_eq_dec xs))
           example_transcript example_transcript).
  - intro xs. apply Permutation_refl.
  - intro xs. apply Permutation_sym, Permutation_rev.
  - reflexivity.
Defined.

(** *** The statistics of the rule-based summary *)

Lemma scan_matches (m : matcher) (s : str) :
  forall prev skip w,
    In w (matches_of (scan m prev skip s)) ->
    exists prev' before after n,
      s = before ++ after /\ m prev' after = Some n /\ w = firstn n after.
Proof.
  induction s as [|c s IH]; intros prev skip w Hin; [destruct Hin|].
  assert (Hlater : forall skip',
             In w (matches_of (scan m (Some c) skip' s)) ->
             exists prev' before after n,
               c :: s = before ++ after
               /\ m prev' after = Some n /\ w = firstn n after).
  { intros skip' H. apply IH in H. destruct H as (prev' & before & after & n & -> & Hm & ->).
    exists prev', (c :: before), after, n. auto. }
  cbn [scan] in Hin. destruct skip as [|k]; [|apply (Hlater _ Hin)].
  destruct (m prev (c :: s)) as [[|k]|] eqn:Hm;
    cbn [matches_of] in Hin; try (apply (Hlater _ Hin)).
  destruct Hin as [<-|Hin]; [|apply (Hlater _ Hin)].
  exists prev, [], (c :: s), (S k). auto.
Qed.

Lemma take_drop_while (p : char -> bool) (s : str) :
  take_while p s ++ drop_while p s = s.
Proof.
  induction s as [|c s IH]; [reflexivity|].
  cbn. destruct (p c); [cbn; f_equal; exact IH|reflexivity].
Qed.

Lemma skipn_take_while (p : char -> bool) (s : str) :
  skipn (length (take_while p s)) s = drop_while p s.
Proof.
  induction s as [|c s IH]; [reflexivity|].
  cbn. destruct (p c); [exact IH|reflexivity].
Qed.

Lemma drop_while_head (p : char -> bool) (s : str) (c : char) (rest : str) :
  drop_while p s = c :: rest -> p c = false.
Proof.
  induction s as [|d s IH]; [discriminate|].
  cbn. destruct (p d) eqn:Hd; [exact IH|].
  intro H. injection H as <- _. exact Hd.
Qed.

Lemma take_while_all (p : char -> bool) (s : str) :
  Forall (fun c => p c = true) (take_while p s).
Proof.
  induction s as [|c s IH]; [constructor|].
  cbn. destruct (p c) eqn:Hc; constructor; assumption.
Qed.

Lemma firstn_length_app {A} (a b : list A) : firstn (length a) (a ++ b) = a.
Proof. induction a as [|x a IH]; [reflexivity|]. cbn. f_equal. exact IH. Qed.

Lemma speaker_pattern_match (prev : option char) (after : str) (n : nat) :
  speaker_pattern prev after = Some n ->
  exists name rest,
    after = ((lit "Speaker " ++ name) ++ [ch ":"]) ++ rest
    /\ name <> [] /\ ~ In (ch ":") name
    /\ n = length ((lit "Speaker " ++ name) ++ [ch ":"]).
Proof.
  unfold speaker_pattern.
  destruct (starts_with (lit "Speaker ") after) eqn:Hprefix; [|discriminate].
  apply starts_with_eq in Hprefix. change (length (lit "Speaker ")) with 8 in Hprefix.
  cbv zeta. set (p := fun c => negb (char_eqb c (ch ":"))).
  pose proof (take_drop_while p (skipn 8 after)) as Hsplit.
  pose proof (take_while_all p (skipn 8 after)) as Hname.
  pose proof (skipn_take_while p (skipn 8 after)) as Hskip.
  destruct (take_while p (skipn 8 after)) as [|a name] eqn:Htake; [discriminate|].
  rewrite Hskip.
  destruct (drop_while p (skipn 8 after)) as [|c rest] eqn:Hdrop; [discriminate|].
  intro H. injection H as <-.
  apply drop_while_head in Hdrop. unfold p in Hdrop.
  apply negb_false_iff, N.eqb_eq in Hdrop. subst c.
  exists (a :: name), rest. split; [|split; [discriminate|split]].
  - rewrite Hprefix at 1. rewrite <- Hsplit, <- !app_assoc. reflexivity.
  - intro Hin. rewrite Forall_forall in Hname. apply Hname in Hin.
    unfold p, char_eqb in Hin. rewrite N.eqb_refl in Hin. discriminate.
  - rewrite !length_app. cbn [length]. change (length (lit "Speaker ")) with 8. lia.
Qed.

Lemma find_speaker_turns_labels (transcript : str) :
  Forall (fun label =>
            exists name,
              label = lit "Speaker " ++ name
              /\ name <> [] /\ ~ In (ch ":") name
              /\ contains (label ++ [ch ":"]) transcript = true)
         (find_speaker_turns transcript).
Proof.
  apply Forall_forall. intros label Hin.
  unfold find_speaker_turns, re_findall in Hin.
  apply in_map_iff in Hin. destruct Hin as (w & <- & Hin).
  apply scan_matches in Hin.
  destruct Hin as (prev & before & after & n & -> & Hm & ->).
  apply speaker_pattern_match in Hm.
  destruct Hm as (name & rest & -> & Hne & Hcolon & ->).
  rewrite firstn_length_app, removelast_last.
  exists name. repeat split; auto. apply contains_app.
Qed.

Lemma split_pieces_nonempty (ps : list piece) :
  forall cur, 1 <= length (split_pieces cur ps).
Proof.
  induction ps as [|[c|w] ps IH]; intro cur; cbn; [lia|apply IH|lia].
Qed.

(** X16: the Key Points of the rule-based summary are exactly three lines,
    reporting the number of distinct speaker labels, the number of
    sentences and the number of speaker labels found in the transcript
    text; every label counted is an occurrence of "Speaker <name>:" in the
    text. On the transcript "Speaker A: Hello. Speaker B: Let's discuss
    budget. Speaker A: Agreed." the lines report 2 participants,
    3 sentences and 3 speaker changes. *)
Theorem simple_extractive_summary_key_points :
  forall transcript,
    let speaker_turns := find_speaker_turns transcript in
    let sentences := split_sentences transcript in
    let participants := length (nodup str_eq_dec speaker_turns) in
    (exists narrative,
        simple_extractive_summary transcript
        = meeting_summary_header ++ narrative ++ [nl; nl] ++ key_points_header
          ++ key_points_lines participants (length sentences) (length speaker_turns))
    /\ Forall (fun label =>
                 exists name,
                   label = lit "Speaker " ++ name
                   /\ name <> [] /\ ~ In (ch ":") name
                   /\ contains (label ++ [ch ":"]) transcript = true)
              speaker_turns
    /\ participants <= length speaker_turns
    /\ 1 <= length sentences
    /\ (exists narrative,
           simple_extractive_summary example_transcript
           = meeting_summary_header ++ narrative ++ [nl; nl] ++ key_points_header
             ++ lit "- Meeting included 2 participants" ++ [nl]
             ++ lit "- The transcript contains 3 sentences" ++ [nl]
             ++ lit "- Total of 3 speaker changes occurred" ++ [nl])
    /\ length (nodup str_eq_dec (find_speaker_turns example_transcript)) = 2
    /\ length (split_sentences example_transcript) = 3
    /\ 1 <= length (find_speaker_turns example_transcript).
Proof.
  intros transcript speaker_turns sentences participants.
  split; [apply simple_extractive_summary_sections|].
  split; [apply find_speaker_turns_labels|].
  split; [|split; [|split; [|split; [|split]]]].
  - apply NoDup_incl_length; [apply NoDup_nodup|].
    intros label Hin. apply nodup_In in Hin. exact Hin.
  - apply split_pieces_nonempty.
  - destruct (simple_extractive_summary_sections example_transcript)
      as [narrative ->].
    exists narrative. reflexivity.
  - vm_compute. reflexivity.
  - vm_compute. reflexivity.
  - vm_compute. lia.
Qed.

Lemma speaker_transitions_bound (labels : list str) :
  speaker_transitions labels <= pred (length labels).
Proof.
  induction labels as [|a [|b rest] IH]; [apply le_n|apply le_n|].
  change (speaker_transitions (a :: b :: rest))
    with ((if str_eqb a b then 0 else 1) + speaker_transitions (b :: rest)).
  cbn [length pred] in *. destruct (str_eqb a b); lia.
Qed.

(** C7: the third statistic is not the number of speaker transitions.
    The line worded "speaker changes" holds the number of speaker labels
    found: for one turn of one speaker it reports 1 change where no
    speaker changes, for the transcript "Speaker A: Hello. Speaker B:
    Let's discuss budget. Speaker A: Agreed." it reports 3 changes where
    there are 2, and whenever a label is found the number reported is
    above the number of transitions. *)
Theorem simple_extractive_summary_counts_labels_as_changes :
  simple_extractive_summary monologue
  = meeting_summary_header
    ++ lit "Speaker A: Hello. Speaker A: Hello. Speaker A: Hello." ++ [nl; nl]
    ++ key_points_header
    ++ lit "- Meeting included 1 participants" ++ [nl]
    ++ lit "- The transcript contains 1 sentences" ++ [nl]
    ++ lit "- Total of 1 speaker changes occurred" ++ [nl]
  /\ find_speaker_turns monologue = [lit "Speaker A"]
  /\ speaker_transitions (find_speaker_turns monologue) = 0
  /\ find_speaker_turns example_transcript
     = [lit "Speaker A"; lit "Speaker B"; lit "Speaker A"]
  /\ speaker_transitions (find_speaker_turns example_transcript) = 2
  /\ (forall transcript,
        find_speaker_turns transcript <> [] ->
        speaker_transitions (find_speaker_turns transcript)
        < length (find_speaker_turns transcript)).
Proof.
  repeat (split; [vm_compute; reflexivity|]).
  intros transcript Hfound.
  pose proof (speaker_transitions_bound (find_speaker_turns transcript)) as Hbound.
  destruct (find_speaker_turns transcript); [now elim Hfound|].
  cbn [length pred] in *. lia.
Qed.

(** *** Normalisation *)

Lemma scan_char_in (m : matcher) (s : str) :
  forall prev skip c,
    In (Char c) (scan m prev skip s) ->
    In c s
    /\ exists prev' rest,
        m prev' (c :: rest) = None \/ m prev' (c :: rest) = Some 0.
Proof.
  induction s as [|d s IH]; intros prev skip c Hin; [destruct Hin|].
  assert (Hlater : forall skip',
             In (Char c) (scan m (Some d) skip' s) ->
             In c (d :: s)
             /\ exists prev' rest,
                 m prev' (c :: rest) = None \/ m prev' (c :: rest) = Some 0).
  { intros skip' H. apply IH in H. destruct H as [H1 H2]. split; [right|]; assumption. }
  cbn [scan] in Hin. destruct skip as [|k]; [|apply (Hlater _ Hin)].
  destruct (m prev (d :: s)) as [[|k]|] eqn:Hm.
  - destruct Hin as [Heq|Hin]; [|apply (Hlater _ Hin)].
    injection Heq as <-. split; [left; reflexivity|]. exists prev, s. auto.
  - destruct Hin as [Heq|Hin]; [discriminate|apply (Hlater _ Hin)].
  - destruct Hin as [Heq|Hin]; [|apply (Hlater _ Hin)].
    injection Heq as <-. split; [left; reflexivity|]. exists prev, s. auto.
Qed.

(** After the whitespace has been collapsed, the only whitespace left is
    the space. *)
Lemma collapse_only_spaces (transcript : str) (c : char) :
  In c (re_sub ws_plus (lit " ") transcript) ->
  isspace c = true -> c = ch " ".
Proof.
  unfold re_sub. intros Hin Hspace. apply in_flat_map in Hin.
  destruct Hin as ([d|w] & Hpiece & Hin).
  - destruct Hin as [<-|[]]. apply scan_char_in in Hpiece.
    destruct Hpiece as [_ (prev & rest & Hm)].
    unfold ws_plus, run_of in Hm. cbn [take_while] in Hm.
    rewrite Hspace in Hm. cbn [length] in Hm. destruct Hm; discriminate.
  - destruct Hin as [<-|[]]. reflexivity.
Qed.

Lemma scan_bracketed_prev (s : str) :
  forall p q skip, scan bracketed p skip s = scan bracketed q skip s.
Proof.
  induction s as [|c s IH]; intros p q skip; [reflexivity|].
  cbn [scan]. destruct skip; reflexivity.
Qed.

Lemma scan_bracketed_skip (s : str) :
  forall p skip, scan bracketed p skip s = scan bracketed p 0 (skipn skip s).
Proof.
  induction s as [|c s IH]; intros p skip.
  - destruct skip; reflexivity.
  - destruct skip as [|k]; [reflexivity|].
    cbn [scan skipn]. rewrite IH. apply scan_bracketed_prev.
Qed.

Lemma re_sub_bracketed_cons (c : char) (s : str) :
  re_sub bracketed [] (c :: s)
  = if char_eqb c (ch "[")
    then match lazy_until_close s with
         | Some n => re_sub bracketed [] (skipn n s)
         | None => c :: re_sub bracketed [] s
         end
    else c :: re_sub bracketed [] s.
Proof.
  unfold re_sub. cbn [scan bracketed].
  destruct (char_eqb c (ch "[")).
  - destruct (lazy_until_close s) as [n|]; cbn [option_map flat_map app].
    + rewrite scan_bracketed_skip, (scan_bracketed_prev _ (Some c) None).
      reflexivity.
    + rewrite (scan_bracketed_prev _ (Some c) None). reflexivity.
  - cbn [flat_map app]. rewrite (scan_bracketed_prev _ (Some c) None). reflexivity.
Qed.

Lemma lazy_until_close_none (s : str) :
  lazy_until_close s = None -> ~ In nl s -> ~ In (ch "]") s.
Proof.
  induction s as [|c s IH]; intros Hnone Hnl Hin; [destruct Hin|].
  cbn [lazy_until_close] in Hnone.
  destruct (char_eqb c (ch "]")) eqn:Hc; [discriminate|].
  destruct (char_eqb c nl) eqn:Hn.
  - apply N.eqb_eq in Hn. apply Hnl. left. exact Hn.
  - destruct (lazy_until_close s); [discriminate|].
    destruct Hin as [Heq|Hin].
    + subst c. unfold char_eqb in Hc. rewrite N.eqb_refl in Hc. discriminate.
    + apply IH; auto. intro H. apply Hnl. right. exact H.
Qed.

Lemma re_sub_bracketed_in (s : str) (c : char) :
  In c (re_sub bracketed [] s) -> In c s.
Proof.
  unfold re_sub. intro Hin. apply in_flat_map in Hin.
  destruct Hin as ([d|w] & Hpiece & Hin); [|destruct Hin].
  destruct Hin as [<-|[]]. apply scan_char_in in Hpiece. apply Hpiece.
Qed.

(** No opening bracket has a closing bracket after it. *)
Lemma re_sub_bracketed_removes (n : nat) :
  forall s,
    length s <= n ->
    ~ In nl s ->
    forall a b, re_sub bracketed [] s = a ++ ch "[" :: b -> ~ In (ch "]") b.
Proof.
  induction n as [|n IH]; intros s Hlen Hnl a b Hsplit.
  - destruct s; [|cbn in Hlen; lia]. destruct a; discriminate.
  - destruct s as [|c s]; [destruct a; discriminate|].
    cbn [length] in Hlen.
    assert (Hnl' : ~ In nl s) by (intro H; apply Hnl; right; exact H).
    rewrite re_sub_bracketed_cons in Hsplit.
    destruct (char_eqb c (ch "[")) eqn:Hc.
    + destruct (lazy_until_close s) as [k|] eqn:Hclose.
      * apply (IH (skipn k s)) with (a := a); [| |exact Hsplit].
        -- rewrite length_skipn. lia.
        -- intro H. apply Hnl'. rewrite <- (firstn_skipn k s).
           apply in_or_app. right. exact H.
      * intro Hin. apply (lazy_until_close_none _ Hclose Hnl').
        apply re_sub_bracketed_in.
        destruct a as [|x a]; injection Hsplit as _ Hrest.
        -- rewrite Hrest. exact Hin.
        -- rewrite Hrest. apply in_or_app. right. right. exact Hin.
    + destruct a as [|x a]; injection Hsplit as Hhead Hrest.
      * subst c. unfold char_eqb in Hc. rewrite N.eqb_refl in Hc. discriminate.
      * apply (IH s) with (a := a); [lia|exact Hnl'|exact Hrest].
Qed.

Lemma strip_infix (s : str) : exists a c, s = a ++ strip s ++ c.
Proof.
  unfold strip.
  exists (take_while isspace s),
         (rev (take_while isspace (rev (drop_while isspace s)))).
  rewrite <- rev_app_distr, take_drop_while, rev_involutive, take_drop_while.
  reflexivity.
Qed.

(** The part of C8 that holds: no bracketed token is left in the result. *)
Lemma clean_transcript_no_bracketed (transcript : str) :
  ~ has_bracketed (clean_transcript transcript).
Proof.
  unfold clean_transcript. cbv zeta.
  set (collapsed := re_sub ws_plus (lit " ") transcript).
  intros (a & b & c & Hsplit).
  destruct (strip_infix (re_sub bracketed [] collapsed)) as (before & after & Hinfix).
  rewrite Hsplit in Hinfix.
  assert (Hnl : ~ In nl collapsed).
  { intro H. apply collapse_only_spaces in H; [discriminate|reflexivity]. }
  apply (@re_sub_bracketed_removes (length collapsed) collapsed (le_n _) Hnl
           (before ++ a) (b ++ [ch "]"] ++ c ++ after)).
  - rewrite Hinfix. repeat first [rewrite <- app_assoc | progress cbn [app]].
    reflexivity.
  - apply in_or_app. right. left. reflexivity.
Qed.

(** C8, at the failing input: an annotation between two spaces is removed
    after the whitespace has been collapsed, which leaves the two spaces
    next to each other. *)
Theorem clean_transcript_leaves_double_space :
  clean_transcript (lit "a [x] b") = lit "a  b"
  /\ contains [ch " "; ch " "] (clean_transcript (lit "a [x] b")) = true.
Proof. split; vm_compute; reflexivity. Qed.

End SummarizerFacts.

(* ===================================================================== *)
(** ** The title suggester                                               *)
(* ===================================================================== *)

Section TitleFacts.
Import TitleGeneration.

(** *** The word counts *)

Lemma dict_mem_keys (k : str) (d : dict) :
  dict_mem k d = true <-> In k (keys d).
Proof.
  induction d as [|[k' v] d IH]; cbn; [split; [discriminate|tauto]|].
  rewrite orb_true_iff, IH, str_eqb_eq. split; intros [H|H]; auto.
Qed.

Lemma keys_dict_set (k : str) (v : nat) (d : dict) :
  keys (dict_set k v d) = if dict_mem k d then keys d else keys d ++ [k].
Proof.
  unfold keys. induction d as [|[k' v'] d IH]; [reflexivity|].
  cbn. destruct (str_eqb k k'); cbn; [reflexivity|].
  rewrite IH. destruct (dict_mem k d); reflexivity.
Qed.

Lemma dict_get_set (w k : str) (v : nat) (d : dict) :
  dict_get w (dict_set k v d) = if str_eqb w k then v else dict_get w d.
Proof.
  induction d as [|[k' v'] d IH].
  - cbn. destruct (str_eqb w k); reflexivity.
  - cbn. destruct (str_eqb k k') eqn:Hk.
    + apply str_eqb_eq in Hk. subst k'. cbn. destruct (str_eqb w k); reflexivity.
    + cbn. destruct (str_eqb w k') eqn:Hw.
      * apply str_eqb_eq in Hw. subst k'.
        assert (str_eqb w k = false) as ->; [|reflexivity].
        apply str_eqb_neq. apply str_eqb_neq in Hk. congruence.
      * exact IH.
Qed.

Lemma dict_get_absent (k : str) (d : dict) :
  dict_mem k d = false -> dict_get k d = 0.
Proof.
  induction d as [|[k' v] d IH]; [reflexivity|].
  cbn. destruct (str_eqb k k'); [discriminate|exact IH].
Qed.

Lemma dict_mem_set (k : str) (v : nat) (d : dict) :
  dict_mem k (dict_set k v d) = true.
Proof.
  apply dict_mem_keys. rewrite keys_dict_set.
  destruct (dict_mem k d) eqn:Hmem; [apply dict_mem_keys, Hmem|].
  apply in_or_app. right. left. reflexivity.
Qed.

Lemma keys_count_word (d : dict) (w : str) :
  keys (count_word d w) = if dict_mem w d then keys d else keys d ++ [w].
Proof.
  unfold count_word. destruct (dict_mem w d) eqn:Hmem; cbn [negb].
  - rewrite keys_dict_set, Hmem. reflexivity.
  - rewrite keys_dict_set, dict_mem_set, keys_dict_set, Hmem. reflexivity.
Qed.

Lemma dict_get_count_word (w' : str) (d : dict) (w : str) :
  dict_get w' (count_word d w)
  = if str_eqb w' w then dict_get w d + 1 else dict_get w' d.
Proof.
  unfold count_word. destruct (dict_mem w d) eqn:Hmem; cbn [negb].
  - apply dict_get_set.
  - rewrite !dict_get_set, str_eqb_refl, (dict_get_absent _ _ Hmem).
    destruct (str_eqb w' w); reflexivity.
Qed.

Lemma dict_get_in (d : dict) (w : str) (n : nat) :
  NoDup (keys d) -> In (w, n) d -> dict_get w d = n.
Proof.
  induction d as [|[k v] d IH]; intros Hnd Hin; [destruct Hin|].
  cbn in Hnd. inversion Hnd as [|? ? Hk Hd]; subst.
  cbn. destruct Hin as [Heq|Hin].
  - injection Heq as -> ->. rewrite str_eqb_refl. reflexivity.
  - destruct (str_eqb w k) eqn:Hw; [|apply IH; assumption].
    apply str_eqb_eq in Hw. subst k. elim Hk.
    change w with (fst (w, n)). apply in_map, Hin.
Qed.

(** *** First-seen positions *)

Lemma first_index_app (x : str) (ws l : list str) :
  In x ws -> first_index x (ws ++ l) = first_index x ws.
Proof.
  induction ws as [|y ws IH]; intro Hin; [destruct Hin|].
  cbn. destruct (str_eqb x y) eqn:Hx; [reflexivity|].
  f_equal. apply IH. destruct Hin as [->|Hin]; [|exact Hin].
  rewrite str_eqb_refl in Hx. discriminate.
Qed.

Lemma first_index_new (x : str) (ws : list str) :
  ~ In x ws -> first_index x (ws ++ [x]) = length ws.
Proof.
  induction ws as [|y ws IH]; intro Hnin.
  - cbn. rewrite str_eqb_refl. reflexivity.
  - cbn. destruct (str_eqb x y) eqn:Hx.
    + apply str_eqb_eq in Hx. subst y. elim Hnin. left. reflexivity.
    + f_equal. apply IH. intro Hin. apply Hnin. right. exact Hin.
Qed.

Lemma first_index_lt (x : str) (ws : list str) :
  In x ws -> first_index x ws < length ws.
Proof.
  induction ws as [|y ws IH]; intro Hin; [destruct Hin|].
  cbn. destruct (str_eqb x y) eqn:Hx; [lia|].
  apply -> Nat.succ_lt_mono. apply IH. destruct Hin as [->|Hin]; [|exact Hin].
  rewrite str_eqb_refl in Hx. discriminate.
Qed.

Lemma occurrences_snoc (x : str) (ws : list str) (w : str) :
  occurrences x (ws ++ [w])
  = if str_eqb x w then occurrences w ws + 1 else occurrences x ws.
Proof.
  unfold occurrences. rewrite count_occ_app. cbn.
  destruct (str_eq_dec w x) as [->|Hne].
  - rewrite str_eqb_refl. reflexivity.
  - assert (str_eqb x w = false) as -> by (apply str_eqb_neq; congruence). lia.
Qed.

(** *** Strongly sorted lists *)

Lemma StronglySorted_impl_in {A} (R R' : A -> A -> Prop) (l : list A) :
  (forall a b, In a l -> In b l -> R a b -> R' a b) ->
  StronglySorted R l -> StronglySorted R' l.
Proof.
  intros Himpl Hsorted. induction Hsorted as [|a l Hl IH Ha]; constructor.
  - apply IH. intros x y Hx Hy. apply Himpl; right; assumption.
  - rewrite Forall_forall in *. intros b Hb.
    apply Himpl; [left; reflexivity|right; exact Hb|apply Ha, Hb].
Qed.

Lemma StronglySorted_snoc {A} (R : A -> A -> Prop) (l : list A) (x : A) :
  StronglySorted R l -> (forall a, In a l -> R a x) ->
  StronglySorted R (l ++ [x]).
Proof.
  intros Hsorted Hx. induction Hsorted as [|a l Hl IH Ha]; cbn.
  - constructor; constructor.
  - constructor.
    + apply IH. intros b Hb. apply Hx. right. exact Hb.
    + apply Forall_app. split; [exact Ha|].
      constructor; [apply Hx; left; reflexivity|constructor].
Qed.

Lemma StronglySorted_map {A B} (R : B -> B -> Prop) (f : A -> B) (l : list A) :
  StronglySorted (fun x y => R (f x) (f y)) l <-> StronglySorted R (map f l).
Proof.
  induction l as [|a l IH]; cbn; [split; constructor|].
  split; intro H; inversion H as [|? ? Hl Ha]; subst; constructor.
  - apply IH, Hl.
  - rewrite Forall_map. exact Ha.
  - apply IH, Hl.
  - rewrite Forall_map in Ha. exact Ha.
Qed.

Lemma StronglySorted_app_inv {A} (R : A -> A -> Prop) (a b : list A) :
  StronglySorted R (a ++ b) ->
  StronglySorted R a /\ forall x y, In x a -> In y b -> R x y.
Proof.
  induction a as [|c a IH]; cbn; intro H.
  - split; [constructor|]. intros x y [].
  - inversion H as [|? ? Hl Hc]; subst. destruct (IH Hl) as [Ha Hab].
    apply Forall_app in Hc. destruct Hc as [Hca Hcb]. split.
    + constructor; assumption.
    + intros x y [<-|Hx] Hy; [|apply Hab; assumption].
      rewrite Forall_forall in Hcb. apply Hcb, Hy.
Qed.

Lemma StronglySorted_nth {A} (R : A -> A -> Prop) (l : list A) :
  StronglySorted R l ->
  forall i j a b,
    i < j -> nth_error l i = Some a -> nth_error l j = Some b -> R a b.
Proof.
  induction 1 as [|c l Hl IH Hc]; intros i j a b Hij Ha Hb.
  - destruct i; discriminate.
  - destruct j as [|j]; [lia|]. cbn in Hb. destruct i as [|i].
    + injection Ha as <-. rewrite Forall_forall in Hc.
      apply Hc. apply nth_error_In in Hb. exact Hb.
    + cbn in Ha. apply (IH i j); [lia|assumption|assumption].
Qed.

(** The counting loop keeps one entry per word, in the order in which the
    words are first seen, with the number of its occurrences. *)
Lemma word_counts_invariant (ws : list str) :
  let d := fold_left count_word ws [] in
  NoDup (keys d)
  /\ (forall w, In w (keys d) <-> In w ws)
  /\ (forall w, dict_get w d = occurrences w ws)
  /\ StronglySorted (fun a b => first_index a ws < first_index b ws) (keys d).
Proof.
  induction ws as [|w ws IH] using rev_ind.
  - cbn. repeat split; try tauto; constructor.
  - rewrite fold_left_app. cbn [fold_left].
    cbv zeta in *. set (d := fold_left count_word ws []) in *.
    destruct IH as (Hnd & Hin & Hget & Hsorted).
    rewrite keys_count_word.
    assert (Hmem : dict_mem w d = true <-> In w ws)
      by (rewrite dict_mem_keys; apply Hin).
    assert (Hold : StronglySorted
                     (fun a b => first_index a (ws ++ [w]) < first_index b (ws ++ [w]))
                     (keys d)).
    { revert Hsorted. apply StronglySorted_impl_in. intros a b Ha Hb.
      rewrite !first_index_app by (apply Hin; assumption). auto. }
    split; [|split; [|split]].
    + destruct (dict_mem w d) eqn:Hw; [exact Hnd|].
      apply (Permutation_NoDup (Permutation_cons_append (keys d) w)).
      constructor; [|exact Hnd].
      intro Hk. apply Hin, Hmem in Hk. discriminate.
    + intro x. rewrite in_app_iff. cbn [In].
      destruct (dict_mem w d) eqn:Hw.
      * rewrite Hin. split; [auto|]. intros [H|[<-|[]]]; [exact H|].
        apply Hmem. reflexivity.
      * rewrite in_app_iff, Hin. cbn [In]. tauto.
    + intro x. rewrite dict_get_count_word, occurrences_snoc, !Hget. reflexivity.
    + destruct (dict_mem w d) eqn:Hw; [exact Hold|].
      apply StronglySorted_snoc; [exact Hold|].
      intros a Ha. apply Hin in Ha.
      rewrite first_index_app by exact Ha.
      rewrite first_index_new.
      * apply first_index_lt, Ha.
      * intro Hws. apply Hmem in Hws. discriminate.
Qed.

(** *** The stable sort by descending count *)

Lemma insert_by_count_perm (x : str * nat) (l : list (str * nat)) :
  Permutation (insert_by_count x l) (x :: l).
Proof.
  induction l as [|y l IH]; [reflexivity|].
  cbn. destruct (snd y <=? snd x); [reflexivity|].
  rewrite IH. apply perm_swap.
Qed.

Lemma sorted_by_count_perm (l : list (str * nat)) :
  Permutation (sorted_by_count l) l.
Proof.
  induction l as [|x l IH]; [reflexivity|].
  cbn. rewrite insert_by_count_perm. constructor. exact IH.
Qed.

Section Stability.

(** The position of an item before the sort. *)
Variable rank : str * nat -> nat.

Lemma insert_by_count_sorted (x : str * nat) (l : list (str * nat)) :
  StronglySorted (sorted_before rank) l ->
  Forall (fun z => rank x < rank z) l ->
  StronglySorted (sorted_before rank) (insert_by_count x l).
Proof.
  intros Hsorted. induction Hsorted as [|y l Hl IH Hy]; intro Hrank.
  - cbn. constructor; constructor.
  - inversion Hrank as [|? ? Hxy Hxl]; subst. cbn.
    destruct (snd y <=? snd x) eqn:Hle.
    + apply Nat.leb_le in Hle. constructor; [constructor; assumption|].
      constructor.
      * unfold sorted_before. lia.
      * rewrite Forall_forall in *. intros z Hz.
        specialize (Hy z Hz). specialize (Hxl z Hz).
        unfold sorted_before in *. lia.
    + apply Nat.leb_gt in Hle. constructor; [apply IH, Hxl|].
      apply (Permutation_Forall
               (Permutation_sym (insert_by_count_perm x l))).
      constructor; [|exact Hy]. unfold sorted_before. lia.
Qed.

Lemma sorted_by_count_sorted (l : list (str * nat)) :
  StronglySorted (fun x y => rank x < rank y) l ->
  StronglySorted (sorted_before rank) (sorted_by_count l).
Proof.
  induction 1 as [|x l Hl IH Hx]; [constructor|].
  cbn. apply insert_by_count_sorted; [exact IH|].
  apply (Permutation_Forall (Permutation_sym (sorted_by_count_perm l))).
  exact Hx.
Qed.

End Stability.

(** The keys of the sorted counts: every counted word once, each ranking
    above all that follow it. *)
Lemma sorted_words_ranked (ws : list str) :
  let ranked := map fst (sorted_by_count (fold_left count_word ws [])) in
  StronglySorted (ranks_above ws) ranked
  /\ NoDup ranked
  /\ (forall w, In w ranked <-> In w ws).
Proof.
  cbv zeta. set (d := fold_left count_word ws []).
  destruct (word_counts_invariant ws) as (Hnd & Hin & Hget & Hsorted).
  fold d in Hnd, Hin, Hget, Hsorted.
  pose proof (sorted_by_count_perm d) as Hperm.
  assert (Hkeys : Permutation (map fst (sorted_by_count d)) (keys d))
    by (apply Permutation_map, Hperm).
  split; [|split].
  - apply (proj1 (StronglySorted_map (ranks_above ws) fst (sorted_by_count d))).
    apply (StronglySorted_impl_in
             (R := sorted_before (fun x => first_index (fst x) ws))).
    + intros [a na] [b nb] Ha Hb.
      apply (Permutation_in _ Hperm) in Ha, Hb.
      apply (dict_get_in _ _ _ Hnd) in Ha, Hb.
      rewrite Hget in Ha, Hb. subst na nb.
      unfold sorted_before, ranks_above. cbn [fst snd]. auto.
    + apply sorted_by_count_sorted.
      apply (proj2 (StronglySorted_map
                      (fun a b => first_index a ws < first_index b ws) fst d)).
      exact Hsorted.
  - apply (Permutation_NoDup (Permutation_sym Hkeys)), Hnd.
  - intro w. rewrite <- Hin. split; apply Permutation_in;
      [exact Hkeys|apply Permutation_sym, Hkeys].
Qed.

Lemma filtered_words_kept (U : unicode_db) (summary word : str) :
  In word (filtered_words U summary) ->
  ~ In word stop_words
  /\ 3 < length word
  /\ In word (split_ws (lower U (re_sub newlines (lit " ")
                                        (re_sub heading_marker [] summary)))).
Proof.
  unfold filtered_words. cbv zeta. intro Hin.
  apply filter_In in Hin. destruct Hin as [Hin Hkeep].
  apply andb_prop in Hkeep. destruct Hkeep as [Hstop Hlong].
  split; [|split; [apply Nat.ltb_lt, Hlong|exact Hin]].
  intro Hs. apply negb_true_iff in Hstop.
  assert (existsb (str_eqb word) stop_words = true); [|congruence].
  apply existsb_exists. exists word. split; [exact Hs|apply str_eqb_refl].
Qed.

(** The topics in terms of the words that pass the filter: at most 5 of
    them, without repetition, each ranking above the ones after it and
    above every filtered word left out; the three default topics when no
    word passes the filter. *)
Lemma extract_key_topics_of_filtered_words :
  forall U summary,
    let words := filtered_words U summary in
    let topics := extract_key_topics U summary in
    length topics <= 5
    /\ (forall word,
          In word words ->
          ~ In word stop_words
          /\ 3 < length word
          /\ In word (split_ws (lower U (re_sub newlines (lit " ")
                                                (re_sub heading_marker [] summary)))))
    /\ (words = [] -> topics = map lit ["Business"; "Meeting"; "Discussion"]%string)
    /\ (words <> [] ->
        NoDup topics
        /\ (forall topic, In topic topics -> In topic words)
        /\ (forall i j a b,
              i < j -> nth_error topics i = Some a -> nth_error topics j = Some b ->
              ranks_above words a b)
        /\ (forall word,
              In word words -> ~ In word topics ->
              length topics = 5
              /\ forall topic, In topic topics -> ranks_above words topic word))
    /\ extract_key_topics ascii_db example_summary
       = map lit ["budget"; "planning"; "review"]%string.
Proof.
  intros U summary words topics.
  destruct (sorted_words_ranked words) as (Hsorted & Hnd & Hin).
  cbv zeta in Hsorted, Hnd, Hin.
  set (ranked := map fst (sorted_by_count (fold_left count_word words []))) in *.
  assert (Htopics : topics = match firstn 5 ranked with
                             | [] => map lit ["Business"; "Meeting"; "Discussion"]%string
                             | _ => firstn 5 ranked
                             end).
  { subst topics ranked. unfold extract_key_topics. cbv zeta. fold words.
    rewrite firstn_map. reflexivity. }
  split; [|split; [|split; [|split]]].
  - rewrite Htopics. destruct (firstn 5 ranked) eqn:E; [cbn; lia|].
    rewrite <- E. apply firstn_le_length.
  - intros word Hword. apply (filtered_words_kept _ _ _ Hword).
  - intro Hnil. rewrite Htopics. subst ranked. rewrite Hnil. reflexivity.
  - intro Hne.
    assert (Hfirst : topics = firstn 5 ranked).
    { rewrite Htopics. destruct ranked as [|r ranked']; [|reflexivity].
      destruct words as [|w words'] eqn:E; [now elim Hne|].
      exfalso. apply (proj2 (Hin w)). left. reflexivity. }
    pose proof (firstn_skipn 5 ranked) as Hsplit. rewrite <- Hfirst in Hsplit.
    rewrite <- Hsplit in Hsorted, Hnd.
    destruct (StronglySorted_app_inv _ _ Hsorted) as [Htop Hrest].
    split; [|split; [|split]].
    + apply (NoDup_app_remove_r _ _ Hnd).
    + intros topic Htopic. apply Hin. rewrite <- Hsplit.
      apply in_or_app. left. exact Htopic.
    + intros i j a b. apply (StronglySorted_nth Htop).
    + intros word Hword Hout.
      apply Hin in Hword. rewrite <- Hsplit in Hword.
      apply in_app_or in Hword. destruct Hword as [Hword|Hword]; [now elim Hout|].
      split; [|intros topic Htopic; apply Hrest; assumption].
      rewrite Hfirst. apply firstn_length_le.
      destruct (Nat.le_gt_cases 5 (length ranked)) as [Hle|Hlt]; [exact Hle|].
      rewrite skipn_all2 in Hword by lia. destruct Hword.
  - vm_compute. reflexivity.
Qed.

(** *** Three titles *)

Lemma title_step_nonempty (U : unicode_db) (lines : list str) :
  forall titles,
    Forall (fun t => t <> [] /\ length t < 60) titles ->
    Forall (fun t => t <> [] /\ length t < 60) (fold_left (title_step U) lines titles).
Proof.
  induction lines as [|line lines IH]; intros titles Htitles; [exact Htitles|].
  cbn [fold_left]. apply IH. unfold title_step.
  destruct (strip (re_sub (list_markup U) [] line)) as [|c clean] eqn:Hclean;
    [exact Htitles|].
  destruct (length (c :: clean) <? 60) eqn:Hshort; [|exact Htitles].
  apply Forall_app. split; [exact Htitles|].
  constructor; [|constructor]. split; [discriminate|apply Nat.ltb_lt, Hshort].
Qed.

Lemma pad_titles_placeholders (titles : list str) :
  pad_titles titles
  = titles ++ map placeholder (seq (length titles + 1) (3 - length titles)).
Proof.
  funelim (pad_titles titles).
  - rewrite H. rewrite length_app. cbn [length].
    replace (3 - length titles) with (S (3 - (length titles + 1))) by lia.
    cbn [seq map]. rewrite <- app_assoc.
    replace (S (length titles + 1)) with (length titles + 1 + 1) by lia.
    reflexivity.
  - replace (3 - length titles) with 0 by lia. cbn. rewrite app_nil_r. reflexivity.
Qed.

Lemma placeholder_nonempty (n : nat) : placeholder n <> [].
Proof. discriminate. Qed.

Lemma firstn_three {A} (P : A -> Prop) (l : list A) :
  Forall P l -> 3 <= length l ->
  exists a b c, firstn 3 l = [a; b; c] /\ P a /\ P b /\ P c.
Proof.
  intros Hall Hlen. destruct l as [|a [|b [|c l]]]; cbn in Hlen; try lia.
  inversion Hall as [|? ? Ha Hall1]; subst.
  inversion Hall1 as [|? ? Hb Hall2]; subst.
  inversion Hall2 as [|? ? Hc _]; subst.
  exists a, b, c. auto.
Qed.

Lemma generate_titles_with_openai_three (env : environment) (summary content : str) :
  chat_completions_create env
    (lit "You are a professional title generator for business meetings.")
    (prompt summary) 100 = Ok content ->
  let parsed := parsed_titles (unicode env) content in
  generate_titles_with_openai env summary
  = Ok (firstn 3 (parsed ++ map placeholder
                                (seq (length parsed + 1) (3 - length parsed))))
  /\ Forall (fun t => t <> [] /\ length t < 60) parsed
  /\ three_titles (generate_titles_with_openai env summary).
Proof.
  intros Hchat parsed.
  assert (Hrun : generate_titles_with_openai env summary
                 = Ok (firstn 3 (parsed ++ map placeholder
                                   (seq (length parsed + 1) (3 - length parsed))))).
  { unfold generate_titles_with_openai. rewrite Hchat. cbn [bind]. cbv zeta.
    rewrite pad_titles_placeholders. reflexivity. }
  assert (Hparsed : Forall (fun t => t <> [] /\ length t < 60) parsed)
    by (apply title_step_nonempty; constructor).
  split; [exact Hrun|]. split; [exact Hparsed|].
  rewrite Hrun.
  destruct (@firstn_three _ (fun t : str => t <> [])
              (parsed ++ map placeholder
                             (seq (length parsed + 1) (3 - length parsed))))
    as (a & b & c & -> & Ha & Hb & Hc).
  - apply Forall_app. split.
    + revert Hparsed. apply Forall_impl. tauto.
    + apply Forall_map, Forall_forall. intros n _. apply placeholder_nonempty.
  - rewrite length_app, length_map, length_seq. lia.
  - exists a, b, c. auto.
Qed.

Lemma fill_template_ok (U : unicode_db) (topic1 topic2 : str) (rest : list str)
      (template : str) :
  In template templates ->
  exists title,
    fill_template U (topic1 :: topic2 :: rest) template = Ok title /\ title <> [].
Proof.
  intro Hin. unfold fill_template. cbn [index nth_error bind].
  generalize (capitalize U topic1) (capitalize U topic2). intros c1 c2.
  unfold templates in Hin. cbn [map In] in Hin.
  repeat (destruct Hin as [<-|Hin]); [..|destruct Hin];
    vm_compute; eexists; (split; [reflexivity|]); destruct c1; discriminate.
Qed.

Lemma extract_key_topics_nonempty (U : unicode_db) (summary : str) :
  extract_key_topics U summary <> [].
Proof.
  unfold extract_key_topics. cbv zeta.
  destruct (map fst _) eqn:E; discriminate.
Qed.

Lemma generate_titles_rule_based_three (env : environment) (summary : str) :
  (forall l, Permutation l (shuffle env l)) ->
  three_titles (generate_titles_rule_based env summary).
Proof.
  intro Hshuffle. unfold generate_titles_rule_based. cbv zeta.
  set (topics := extract_key_topics (unicode env) summary).
  assert (Htopics : exists topic1 topic2 rest,
             (if length topics <? 2
              then topics ++ map lit ["Discussion"; "Planning"; "Review"]%string
              else topics) = topic1 :: topic2 :: rest).
  { pose proof (extract_key_topics_nonempty (unicode env) summary) as Hne.
    fold topics in Hne.
    destruct topics as [|a [|b rest]]; [now elim Hne| |]; cbn; eauto. }
  destruct Htopics as (topic1 & topic2 & rest & ->).
  pose proof (Hshuffle templates) as Hperm.
  destruct (@firstn_three _ (fun t => In t templates) (shuffle env templates))
    as (a & b & c & -> & Ha & Hb & Hc).
  - apply Forall_forall. intros t Ht.
    apply (Permutation_in _ (Permutation_sym Hperm)), Ht.
  - rewrite <- (Permutation_length Hperm). cbn. lia.
  - destruct (fill_template_ok (unicode env) topic1 topic2 rest Ha) as (ta & Hta & Hnea).
    destruct (fill_template_ok (unicode env) topic1 topic2 rest Hb) as (tb & Htb & Hneb).
    destruct (fill_template_ok (unicode env) topic1 topic2 rest Hc) as (tc & Htc & Hnec).
    exists ta, tb, tc. cbn [mapM]. rewrite Hta, Htb, Htc. cbn [bind]. auto.
Qed.

(** C1: whatever the summary, the completion of the remote service and
    the order the shuffle leaves the templates in, [generate_titles]
    returns exactly three non-empty titles. On the remote path they are
    the first three of the titles read off the completion followed by the
    placeholders "Meeting Summary N" that bring them to three; the
    rule-based path never raises. *)
Theorem generate_titles_three_titles :
  forall env summary,
    (forall l, Permutation l (shuffle env l)) ->
    three_titles (generate_titles env summary)
    /\ (forall content,
          chat_completions_create env
            (lit "You are a professional title generator for business meetings.")
            (prompt summary) 100 = Ok content ->
          let parsed := parsed_titles (unicode env) content in
          generate_titles_with_openai env summary
          = Ok (firstn 3 (parsed ++ map placeholder
                                        (seq (length parsed + 1) (3 - length parsed))))
          /\ Forall (fun t => t <> [] /\ length t < 60) parsed
          /\ three_titles (generate_titles_with_openai env summary))
    /\ three_titles (generate_titles_rule_based env summary).
Proof.
  intros env summary Hshuffle.
  pose proof (generate_titles_rule_based_three env summary Hshuffle) as Hrule.
  split; [|split; [|exact Hrule]].
  - unfold generate_titles. destruct (OPENAI_API_KEY env); [|exact Hrule].
    destruct (generate_titles_with_openai env summary) as [titles|e] eqn:Hremote;
      [|exact Hrule].
    cbn [try_except]. rewrite <- Hremote.
    unfold generate_titles_with_openai in Hremote.
    destruct (chat_completions_create env _ (prompt summary) 100)
      as [content|e] eqn:Hchat; [|discriminate].
    apply (generate_titles_with_openai_three env summary Hchat).
  - intros content Hchat. apply (generate_titles_with_openai_three env summary Hchat).
Qed.

(** A remote service that answers with two titles, and a shuffle that
    reverses the templates. *)
Lemma generate_titles_three_titles_witness :
  (forall l, Permutation l (shuffle remote_env l))
  /\ three_titles (generate_titles remote_env example_summary)
  /\ three_titles (generate_titles_rule_based remote_env example_summary).
Proof.
  assert (Hshuffle : forall l, Permutation l (shuffle remote_env l))
    by (intro l; apply Permutation_rev).
  split; [exact Hshuffle|].
  destruct (generate_titles_three_titles remote_env example_summary Hshuffle)
    as (Hall & _ & Hrule).
  split; [exact Hall|exact Hrule].
Defined.

(** The titles do depend on the shuffle: two environments that differ in
    nothing else return different titles for the same summary. *)
Lemma generate_titles_depends_on_shuffle :
  generate_titles offline_env example_summary
  <> generate_titles offline_env' example_summary.
Proof. vm_compute. discriminate. Qed.

End TitleFacts.

(* ===================================================================== *)
(** ** More of the transcriber                                           *)
(* ===================================================================== *)

Section TranscriberCoverage.
Import Transcription.

Lemma longest_text_bound (texts : list str) (t : str) :
  In t texts -> length t <= longest_text texts.
Proof.
  intro Hin. unfold longest_text.
  assert (H : Forall (fun n => n <= list_max (map (@length char) texts))
                     (map (@length char) texts))
    by (apply list_max_le; lia).
  rewrite Forall_forall in H. apply H, in_map, Hin.
Qed.

(** The loop of the local path: the blocks written so far are followed by
    the blocks of the remaining segments; together with the text still
    buffered they carry the text of the segments, unchanged. *)
Lemma whisper_fold_blocks (bound : nat) (segments : list (option str)) :
  let text_of := fun s : option str => match s with Some t => t | None => [] end in
  Forall (fun s => length (text_of s) <= bound) segments ->
  forall formatted chunk,
    length chunk <= 200 ->
    exists blocks chunk',
      fold_left whisper_step segments (formatted, chunk)
      = (formatted ++ flat_map speaker_block blocks, chunk')
      /\ concat blocks ++ chunk' = chunk ++ concat (map text_of segments)
      /\ Forall (fun b => 200 < length b <= 200 + bound) blocks
      /\ length chunk' <= 200.
Proof.
  intros text_of Hbound.
  induction Hbound as [|seg segments Hseg _ IH]; intros formatted chunk Hchunk.
  - exists [], chunk. cbn. rewrite !app_nil_r. auto.
  - cbn [fold_left map concat]. rewrite whisper_step_unfold. cbv zeta.
    fold (text_of seg).
    destruct (200 <? length (chunk ++ text_of seg)) eqn:Hfull.
    + apply Nat.ltb_lt in Hfull.
      destruct (IH (formatted ++ speaker_block (chunk ++ text_of seg)) [])
        as (blocks & chunk' & Hfold & Htext & Hblocks & Hrest); [cbn; lia|].
      exists ((chunk ++ text_of seg) :: blocks), chunk'.
      rewrite Hfold. cbn [flat_map concat]. rewrite <- !app_assoc.
      split; [reflexivity|]. split; [|split; [|exact Hrest]].
      * cbn [app] in Htext. rewrite Htext. reflexivity.
      * constructor; [|exact Hblocks]. rewrite length_app in *. lia.
    + apply Nat.ltb_ge in Hfull.
      destruct (IH formatted (chunk ++ text_of seg) Hfull)
        as (blocks & chunk' & Hfold & Htext & Hblocks & Hrest).
      exists blocks, chunk'. rewrite Hfold, Htext, <- app_assoc. auto.
Qed.

(** X1: when the local model returns segments, the transcript is made of
    "Speaker:" blocks whose texts, put together in order, are the text of
    the segments; no block is empty, every block but the last is longer
    than 200 characters, and no block is longer than 200 characters plus
    the longest segment. *)
Theorem transcribe_with_whisper_blocks :
  forall env audio_path output,
    whisper_transcribe env audio_path = Ok output ->
    exists blocks,
      transcribe_with_whisper env audio_path
      = Ok (strip (flat_map speaker_block blocks))
      /\ concat blocks = concat (whisper_texts output)
      /\ Forall (fun b => b <> []) blocks
      /\ (forall k b,
            nth_error blocks k = Some b -> S k < length blocks -> 200 < length b)
      /\ Forall (fun b => length b <= 200 + longest_text (whisper_texts output))
                blocks.
Proof.
  intros env audio_path output Hout.
  unfold transcribe_with_whisper. rewrite Hout. cbn [bind]. unfold whisper_texts.
  set (segments := match w_segments output with Some l => l | None => [] end).
  set (text_of := fun s : option str => match s with Some t => t | None => [] end).
  set (bound := longest_text (map text_of segments)).
  assert (Hbound : Forall (fun s => length (text_of s) <= bound) segments).
  { apply Forall_forall. intros s Hs. apply longest_text_bound, in_map, Hs. }
  destruct (whisper_fold_blocks Hbound [] [])
    as (blocks & chunk' & Hfold & Htext & Hblocks & Hrest); [cbn; lia|].
  fold text_of in Hfold, Htext. cbn [app] in Hfold, Htext.
  rewrite Hfold. cbn [try_except].
  assert (Hne : Forall (fun b : str => b <> []) blocks).
  { revert Hblocks. apply Forall_impl. intros b Hb ->. cbn in Hb. lia. }
  assert (Hupper : Forall (fun b : str => length b <= 200 + bound) blocks).
  { revert Hblocks. apply Forall_impl. intros b Hb. lia. }
  destruct chunk' as [|c chunk'].
  - exists blocks. rewrite app_nil_r in Htext.
    split; [reflexivity|]. split; [exact Htext|]. split; [exact Hne|].
    split; [|exact Hupper].
    intros k b Hk _. rewrite Forall_forall in Hblocks.
    apply Hblocks. apply nth_error_In in Hk. exact Hk.
  - exists (blocks ++ [c :: chunk']).
    rewrite flat_map_app. cbn [flat_map]. rewrite app_nil_r.
    split; [reflexivity|]. split; [|split; [|split]].
    + rewrite concat_app. cbn [concat]. rewrite app_nil_r. exact Htext.
    + apply Forall_app. split; [exact Hne|]. constructor; [discriminate|constructor].
    + intros k b Hk Hlast. rewrite length_app in Hlast. cbn [length] in Hlast.
      rewrite nth_error_app1 in Hk by lia.
      rewrite Forall_forall in Hblocks.
      apply Hblocks. apply nth_error_In in Hk. exact Hk.
    + apply Forall_app. split; [exact Hupper|]. constructor; [lia|constructor].
Qed.

(** Three segments of 150 characters: a block of 300 and a block of 150. *)
Lemma transcribe_with_whisper_blocks_witness :
  exists blocks,
    transcribe_with_whisper local_env (lit "call.wav")
    = Ok (strip (flat_map speaker_block blocks))
    /\ concat blocks
       = repeat (ch "a") 150 ++ repeat (ch "b") 150 ++ repeat (ch "c") 150.
Proof.
  destruct (@transcribe_with_whisper_blocks
              local_env (lit "call.wav") _ eq_refl)
    as (blocks & Hrun & Htext & _).
  exists blocks. split; [exact Hrun|]. rewrite Htext. vm_compute. reflexivity.
Defined.

Lemma format_segments_raises (segs : list segment) :
  Exists (fun seg => seg_text seg = None) segs ->
  forall st, format_segments st segs = Raise (lit "'text'").
Proof.
  induction segs as [|seg segs IH]; intros Hmissing st.
  - inversion Hmissing.
  - cbn [format_segments]. destruct st as [formatted cur].
    destruct (seg_text seg) as [t|] eqn:Htext.
    + assert (Hrest : Exists (fun seg => seg_text seg = None) segs).
      { inversion Hmissing as [? ? H|? ? H]; subst; [congruence|exact H]. }
      unfold segment_step, get_text. rewrite Htext.
      destruct (negb _); cbn [bind]; apply IH, Hrest.
    + unfold segment_step, get_text. rewrite Htext.
      destruct (negb _); reflexivity.
Qed.

Lemma segments_text_dec (segs : list segment) :
  Forall (fun seg => seg_text seg <> None) segs
  \/ Exists (fun seg => seg_text seg = None) segs.
Proof.
  induction segs as [|seg segs [IH|IH]].
  - left. constructor.
  - destruct (seg_text seg) as [t|] eqn:Htext.
    + left. constructor; [congruence|exact IH].
    + right. constructor. exact Htext.
  - right. apply Exists_cons_tl, IH.
Qed.

(** X2: the remote path of the transcriber is given up exactly when there
    is no credential, when the service raises, or when a segment of the
    response has no text ([KeyError], whatever the other segments hold);
    the transcript is then the local path's. A response with neither
    segments nor text is no failure: the fixed message is the transcript. *)
Theorem transcribe_audio_fallback :
  forall env audio_path,
    (remote_failed env audio_path <->
     api_key env = false
     \/ (exists e, openai_transcriptions_create env audio_path = Raise e)
     \/ (exists segs other,
           openai_transcriptions_create env audio_path
           = Ok (DictResponse (Some segs) other)
           /\ Exists (fun seg => seg_text seg = None) segs))
    /\ (remote_failed env audio_path ->
        transcribe_audio env audio_path = transcribe_with_whisper env audio_path)
    /\ (api_key env = true ->
        forall transcript,
          transcribe_with_openai env audio_path = Ok transcript ->
          transcribe_audio env audio_path = Ok transcript)
    /\ (api_key env = true ->
        (openai_transcriptions_create env audio_path = Ok (DictResponse None None)
         \/ openai_transcriptions_create env audio_path = Ok (ObjectResponse None)) ->
        transcribe_audio env audio_path
        = Ok (lit "Unable to transcribe audio with OpenAI API")).
Proof.
  intros env audio_path.
  assert (Hraise : (exists e, transcribe_with_openai env audio_path = Raise e) <->
                   (exists e, openai_transcriptions_create env audio_path = Raise e)
                   \/ (exists segs other,
                         openai_transcriptions_create env audio_path
                         = Ok (DictResponse (Some segs) other)
                         /\ Exists (fun seg => seg_text seg = None) segs)).
  { unfold transcribe_with_openai.
    destruct (openai_transcriptions_create env audio_path) as [response|e0].
    - cbn [bind]. split.
      + intros [e He]. right.
        destruct response as [[segs|] text|text].
        * exists segs, text. split; [reflexivity|].
          destruct (segments_text_dec segs) as [Hall|Hmissing]; [|exact Hmissing].
          destruct (format_segments_render Hall [] None) as [cur' Hok].
          rewrite Hok in He. discriminate.
        * destruct text; discriminate.
        * destruct text; discriminate.
      + intros [[e He]|(segs & other & Heq & Hmissing)]; [discriminate|].
        injection Heq as ->. exists (lit "'text'").
        rewrite (format_segments_raises Hmissing). reflexivity.
    - cbn [bind]. split; [intros _; left; eauto|intros _; eauto]. }
  split; [|split; [|split]].
  - unfold remote_failed. rewrite Hraise. tauto.
  - intros [Hkey|[e He]]; unfold transcribe_audio.
    + rewrite Hkey. reflexivity.
    + destruct (api_key env); [|reflexivity]. rewrite He. reflexivity.
  - intros Hkey transcript Hok. unfold transcribe_audio. rewrite Hkey, Hok.
    reflexivity.
  - intros Hkey Hresp. unfold transcribe_audio, transcribe_with_openai.
    rewrite Hkey. destruct Hresp as [-> | ->]; reflexivity.
Qed.

End TranscriberCoverage.

(* ===================================================================== *)
(** ** More of the summarizer                                            *)
(* ===================================================================== *)

Section NormalisationCoverage.
Import Summarization.

(** *** [strip] *)

Lemma strip_prefix_of_drop (s : str) :
  exists tail, drop_while isspace s = strip s ++ tail.
Proof.
  unfold strip. set (d := drop_while isspace s).
  exists (rev (take_while isspace (rev d))).
  rewrite <- rev_app_distr, take_drop_while, rev_involutive. reflexivity.
Qed.

Lemma strip_trimmed (s : str) : trimmed (strip s).
Proof.
  split.
  - intros c rest Hs. destruct (strip_prefix_of_drop s) as [tail Hd].
    rewrite Hs in Hd. apply (drop_while_head _ _ Hd).
  - intros init c Hs. unfold strip in Hs.
    apply (f_equal (@rev char)) in Hs.
    rewrite rev_involutive, rev_app_distr in Hs. cbn in Hs.
    apply (drop_while_head _ _ Hs).
Qed.

Lemma drop_while_id (p : char -> bool) (s : str) :
  (forall c rest, s = c :: rest -> p c = false) -> drop_while p s = s.
Proof.
  destruct s as [|c s]; [reflexivity|]. intro H. cbn.
  rewrite (H c s eq_refl). reflexivity.
Qed.

Lemma strip_id (s : str) : trimmed s -> strip s = s.
Proof.
  intros [Hhead Hlast]. unfold strip.
  rewrite (drop_while_id _ Hhead), drop_while_id; [apply rev_involutive|].
  intros c rest Hrev. apply (Hlast (rev rest) c).
  rewrite <- (rev_involutive s), Hrev. reflexivity.
Qed.

(** *** The shapes pass to a part of the string *)

Lemma only_spaces_infix (a s b : str) : only_spaces (a ++ s ++ b) -> only_spaces s.
Proof.
  intros H c Hin. apply H. apply in_or_app. right. apply in_or_app. left. exact Hin.
Qed.

Lemma single_spaced_app (a b : str) :
  single_spaced (a ++ b) -> single_spaced a /\ single_spaced b.
Proof.
  induction a as [|c a IH]; intro H; [split; [exact I|exact H]|].
  destruct a as [|d a].
  - split; [exact I|]. destruct b; [exact I|apply H].
  - destruct H as [Hcd Hrest]. destruct (IH Hrest) as [Ha Hb].
    split; [split; assumption|exact Hb].
Qed.

Lemma unclosed_app (a b : str) : unclosed (a ++ b) -> unclosed a /\ unclosed b.
Proof.
  induction a as [|c a IH]; intro H; [split; [exact I|exact H]|].
  destruct H as [Hc Hrest]. destruct (IH Hrest) as [Ha Hb].
  split; [|exact Hb]. split; [|exact Ha].
  intros Hopen Hin. apply (Hc Hopen). apply in_or_app. left. exact Hin.
Qed.

Lemma unclosed_split (s : str) :
  unclosed s <-> forall a b, s = a ++ ch "[" :: b -> ~ In (ch "]") b.
Proof.
  induction s as [|c s IH]; split.
  - intros _ a b H. destruct a; discriminate.
  - intros _. exact I.
  - intros [Hc Hs] a b Hsplit. destruct a as [|x a]; injection Hsplit as -> ->.
    + apply Hc. reflexivity.
    + apply (proj1 IH Hs a b eq_refl).
  - intro H. split.
    + intros -> Hin. apply (H [] s eq_refl Hin).
    + apply IH. intros a b ->. apply (H (c :: a) b eq_refl).
Qed.

Lemma unclosed_no_bracketed (s : str) : unclosed s <-> ~ has_bracketed s.
Proof.
  rewrite unclosed_split. split.
  - intros H (a & b & c & ->). apply (H a (b ++ [ch "]"] ++ c) eq_refl).
    apply in_or_app. right. left. reflexivity.
  - intros H a b -> Hin. apply H. apply in_split in Hin.
    destruct Hin as (b1 & b2 & ->). exists a, b1, b2. reflexivity.
Qed.

(** *** Collapsing the whitespace *)

Lemma scan_prev_irrelevant (m : matcher) :
  (forall p q x, m p x = m q x) ->
  forall s p q skip, scan m p skip s = scan m q skip s.
Proof.
  intros Hm s. induction s as [|c s IH]; intros p q skip; [reflexivity|].
  cbn [scan]. destruct skip; [|reflexivity]. rewrite (Hm p q). reflexivity.
Qed.

Lemma scan_skip (m : matcher) :
  (forall p q x, m p x = m q x) ->
  forall s p skip, scan m p skip s = scan m p 0 (skipn skip s).
Proof.
  intros Hm s. induction s as [|c s IH]; intros p skip.
  - destruct skip; reflexivity.
  - destruct skip as [|k]; [reflexivity|].
    cbn [scan skipn]. rewrite IH. apply (scan_prev_irrelevant m Hm).
Qed.

Lemma collapse_cons (c : char) (s : str) :
  re_sub ws_plus (lit " ") (c :: s)
  = if isspace c
    then ch " " :: re_sub ws_plus (lit " ") (drop_while isspace s)
    else c :: re_sub ws_plus (lit " ") s.
Proof.
  assert (Hm : forall (p q : option char) x, ws_plus p x = ws_plus q x)
    by reflexivity.
  unfold re_sub. cbn [scan]. unfold ws_plus at 1, run_of. cbn [take_while].
  destruct (isspace c).
  - cbn [length flat_map]. rewrite (scan_skip ws_plus Hm), skipn_take_while.
    rewrite (scan_prev_irrelevant ws_plus Hm _ (Some c) None). reflexivity.
  - cbn [length flat_map]. rewrite (scan_prev_irrelevant ws_plus Hm _ (Some c) None).
    reflexivity.
Qed.

Lemma drop_while_length (p : char -> bool) (s : str) :
  length (drop_while p s) <= length s.
Proof.
  induction s as [|c s IH]; [cbn; lia|]. cbn. destruct (p c); cbn; lia.
Qed.

Lemma collapse_in (s : str) (c : char) :
  In c (re_sub ws_plus (lit " ") s) -> c = ch " " \/ In c s.
Proof.
  unfold re_sub. intro Hin. apply in_flat_map in Hin.
  destruct Hin as ([d|w] & Hpiece & Hin).
  - destruct Hin as [<-|[]]. right. apply (scan_char_in _ _ _ _ _ Hpiece).
  - destruct Hin as [<-|[]]. left. reflexivity.
Qed.

Lemma collapse_single_spaced (n : nat) :
  forall s, length s <= n -> single_spaced (re_sub ws_plus (lit " ") s).
Proof.
  induction n as [|n IH]; intros s Hlen.
  - destruct s; [exact I|cbn in Hlen; lia].
  - destruct s as [|c s]; [exact I|]. cbn [length] in Hlen.
    rewrite collapse_cons. destruct (isspace c) eqn:Hc.
    + pose proof (drop_while_length isspace s) as Hdrop.
      pose proof (IH (drop_while isspace s) ltac:(lia)) as Hrest.
      destruct (drop_while isspace s) as [|d rest] eqn:Hd; [exact I|].
      pose proof (drop_while_head _ _ Hd) as Hdspace.
      rewrite collapse_cons, Hdspace in *. split; [auto|exact Hrest].
    + pose proof (IH s ltac:(lia)) as Hrest.
      destruct (re_sub ws_plus (lit " ") s); [exact I|].
      split; [congruence|exact Hrest].
Qed.

Lemma collapse_unclosed (n : nat) :
  forall s, length s <= n -> unclosed s -> unclosed (re_sub ws_plus (lit " ") s).
Proof.
  induction n as [|n IH]; intros s Hlen Hs.
  - destruct s; [exact I|cbn in Hlen; lia].
  - destruct s as [|c s]; [exact I|]. cbn [length] in Hlen.
    destruct Hs as [Hc Hs]. rewrite collapse_cons. destruct (isspace c) eqn:Hspace.
    + split; [discriminate|]. apply IH.
      * pose proof (drop_while_length isspace s). lia.
      * rewrite <- (take_drop_while isspace s) in Hs.
        apply (unclosed_app _ _ Hs).
    + split; [|apply IH; [lia|exact Hs]].
      intros Hopen Hin. apply collapse_in in Hin.
      destruct Hin as [Hin|Hin]; [discriminate|]. apply (Hc Hopen Hin).
Qed.

Lemma collapse_id (s : str) :
  single_spaced s -> only_spaces s -> re_sub ws_plus (lit " ") s = s.
Proof.
  induction s as [|c s IH]; intros Hsingle Honly; [reflexivity|].
  assert (Hs : re_sub ws_plus (lit " ") s = s).
  { apply IH.
    - destruct s; [exact I|apply Hsingle].
    - intros d Hd. apply Honly. right. exact Hd. }
  rewrite collapse_cons. destruct (isspace c) eqn:Hc.
  - rewrite (Honly c (or_introl eq_refl) Hc). f_equal.
    rewrite drop_while_id; [exact Hs|].
    intros d rest ->. apply Hsingle, Hc.
  - f_equal. exact Hs.
Qed.

(** *** Removing the bracketed tokens *)

Lemma lazy_until_close_some (s : str) (n : nat) :
  lazy_until_close s = Some n -> In (ch "]") s.
Proof.
  revert n. induction s as [|c s IH]; intros n H; [discriminate|].
  cbn [lazy_until_close] in H.
  destruct (char_eqb c (ch "]")) eqn:Hc.
  - apply N.eqb_eq in Hc. left. exact Hc.
  - destruct (char_eqb c nl); [discriminate|].
    destruct (lazy_until_close s) as [k|]; [|discriminate].
    right. apply (IH k eq_refl).
Qed.

Lemma re_sub_bracketed_id (s : str) : unclosed s -> re_sub bracketed [] s = s.
Proof.
  induction s as [|c s IH]; intro Hs; [reflexivity|].
  destruct Hs as [Hc Hs]. rewrite re_sub_bracketed_cons, (IH Hs).
  destruct (char_eqb c (ch "[")) eqn:Hopen; [|reflexivity].
  destruct (lazy_until_close s) as [k|] eqn:Hclose; [|reflexivity].
  apply N.eqb_eq in Hopen. elim (Hc Hopen). apply (lazy_until_close_some _ Hclose).
Qed.

(** *** One pass and two passes *)

Lemma clean_transcript_only_spaces (transcript : str) :
  only_spaces (clean_transcript transcript).
Proof.
  unfold clean_transcript. cbv zeta.
  destruct (strip_infix (re_sub bracketed [] (re_sub ws_plus (lit " ") transcript)))
    as (a & b & Hinfix).
  intros c Hin. apply (collapse_only_spaces transcript).
  apply re_sub_bracketed_in. rewrite Hinfix.
  apply in_or_app. right. apply in_or_app. left. exact Hin.
Qed.

(** X3: the transcript [clean_transcript] returns neither starts nor ends
    with whitespace, holds no whitespace character but the space, and
    holds no bracketed token. *)
Theorem clean_transcript_shape :
  forall transcript,
    trimmed (clean_transcript transcript)
    /\ only_spaces (clean_transcript transcript)
    /\ ~ has_bracketed (clean_transcript transcript).
Proof.
  intro transcript. split; [apply strip_trimmed|].
  split; [apply clean_transcript_only_spaces|apply clean_transcript_no_bracketed].
Qed.

(** X4: [clean_transcript] is not idempotent: some transcript is changed
    again by a second pass. A second pass finishes the normalisation,
    though: its result has no two whitespace characters in a row, no
    bracketed token and no whitespace at either end, and further passes
    leave it unchanged. *)
Theorem clean_transcript_twice_is_fixed :
  (exists transcript,
      clean_transcript (clean_transcript transcript) <> clean_transcript transcript)
  /\ forall transcript,
      let twice := clean_transcript (clean_transcript transcript) in
      clean_transcript twice = twice
      /\ single_spaced twice
      /\ only_spaces twice
      /\ trimmed twice
      /\ ~ has_bracketed twice.
Proof.
  split; [exists (lit "a [x] b"); vm_compute; discriminate|].
  intros transcript twice.
  set (once := clean_transcript transcript).
  set (collapsed := re_sub ws_plus (lit " ") once).
  assert (Hsingle : single_spaced collapsed)
    by (apply (collapse_single_spaced (n := length once)), le_n).
  assert (Honly : only_spaces collapsed)
    by (intros c Hin; apply (collapse_only_spaces once), Hin).
  assert (Hunclosed : unclosed collapsed).
  { apply (collapse_unclosed (n := length once)); [apply le_n|].
    apply unclosed_no_bracketed, clean_transcript_no_bracketed. }
  assert (Htwice : twice = strip collapsed).
  { subst twice. fold once. unfold clean_transcript. cbv zeta. fold collapsed.
    rewrite (re_sub_bracketed_id _ Hunclosed). reflexivity. }
  destruct (strip_infix collapsed) as (a & b & Hinfix). rewrite <- Htwice in Hinfix.
  assert (Hs2 : single_spaced twice).
  { rewrite Hinfix in Hsingle. apply single_spaced_app in Hsingle.
    apply (single_spaced_app _ _ (proj2 Hsingle)). }
  assert (Ho2 : only_spaces twice)
    by (rewrite Hinfix in Honly; apply (only_spaces_infix _ _ _ Honly)).
  assert (Hu2 : unclosed twice).
  { rewrite Hinfix in Hunclosed. apply unclosed_app in Hunclosed.
    apply (unclosed_app _ _ (proj2 Hunclosed)). }
  assert (Ht2 : trimmed twice) by (rewrite Htwice; apply strip_trimmed).
  split; [|split; [exact Hs2|split; [exact Ho2|split; [exact Ht2|]]]].
  - unfold clean_transcript. cbv zeta.
    rewrite (collapse_id Hs2 Ho2), (re_sub_bracketed_id _ Hu2). apply strip_id, Ht2.
  - apply unclosed_no_bracketed, Hu2.
Qed.

End NormalisationCoverage.

Section SummarizerCoverage.
Import Summarization.

(** *** The remote path *)

Lemma mapM_raises {A B} (f : A -> result B) (l : list A) :
  forall k a e,
    nth_error l k = Some a ->
    f a = Raise e ->
    (forall j b, j < k -> nth_error l j = Some b -> exists s, f b = Ok s) ->
    mapM f l = Raise e.
Proof.
  induction l as [|x l IH]; intros k a e Hk Ha Hearlier.
  - destruct k; discriminate.
  - destruct k as [|k].
    + injection Hk as ->. cbn [mapM]. rewrite Ha. reflexivity.
    + destruct (Hearlier 0 x ltac:(lia) eq_refl) as [s Hs].
      cbn [mapM]. rewrite Hs. cbn [bind].
      rewrite (IH k a e Hk Ha); [reflexivity|].
      intros j b Hj Hb. apply (Hearlier (S j) b); [lia|exact Hb].
Qed.

(** X5: when the request for a chunk of a long transcript raises, the
    remote path raises the same error -- the summaries of the earlier
    chunks are dropped, the later chunks are not asked for -- and the
    summary is the one of the local path. *)
Theorem generate_summary_chunk_failure :
  forall env transcript k chunk e,
    OPENAI_API_KEY env = true ->
    max_chunk_size < length (clean_transcript transcript) ->
    nth_error (openai_chunks (clean_transcript transcript)) k = Some chunk ->
    chunk_request env chunk = Raise e ->
    (forall j earlier,
        j < k ->
        nth_error (openai_chunks (clean_transcript transcript)) j = Some earlier ->
        exists s, chunk_request env earlier = Ok s) ->
    summarize_with_openai env (clean_transcript transcript) = Raise e
    /\ generate_summary env transcript
       = local_summary env (clean_transcript transcript).
Proof.
  intros env transcript k chunk e Hkey Hlong Hk Hfail Hearlier.
  assert (Hremote : summarize_with_openai env (clean_transcript transcript) = Raise e).
  { unfold summarize_with_openai. apply Nat.ltb_lt in Hlong. rewrite Hlong.
    fold (chunk_request env).
    rewrite (mapM_raises (chunk_request env) _ Hk Hfail Hearlier). reflexivity. }
  split; [exact Hremote|].
  unfold generate_summary, local_summary. cbv zeta. rewrite Hkey, Hremote.
  reflexivity.
Qed.

(** A transcript of 10001 characters, the service refusing the first chunk. *)
Lemma generate_summary_chunk_failure_witness :
  summarize_with_openai flaky_env
    (clean_transcript (repeat (ch "a") (S max_chunk_size)))
  = Raise (lit "rate limit")
  /\ generate_summary flaky_env (repeat (ch "a") (S max_chunk_size))
     = local_summary flaky_env
         (clean_transcript (repeat (ch "a") (S max_chunk_size))).
Proof.
  apply (@generate_summary_chunk_failure
           flaky_env (repeat (ch "a") (S max_chunk_size)) 0
           (repeat (ch "a") max_chunk_size) (lit "rate limit")).
  - reflexivity.
  - apply Nat.ltb_lt. vm_compute. reflexivity.
  - vm_compute. reflexivity.
  - vm_compute. reflexivity.
  - intros j earlier Hj. lia.
Defined.

(** *** The local paths *)

Lemma summarize_with_transformers_raises (env : environment) (transcript e : str) :
  summarize_with_transformers env transcript = Raise e <-> pipeline env = Raise e.
Proof.
  unfold summarize_with_transformers.
  destruct (pipeline env) as [summarizer|e']; cbn [bind]; split; intro H;
    try discriminate; injection H as ->; reflexivity.
Qed.

(** X6: [generate_summary] raises in one case only: the remote path is
    not available -- no credential, or it raised -- the [transformers]
    library is installed, and loading its pipeline raises; the error is
    the pipeline's. The rule-based summary is not tried then. *)
Theorem generate_summary_raises_iff :
  forall env transcript e,
    generate_summary env transcript = Raise e <->
    (OPENAI_API_KEY env = false
     \/ exists e', summarize_with_openai env (clean_transcript transcript) = Raise e')
    /\ has_transformers env = true
    /\ pipeline env = Raise e.
Proof.
  intros env transcript e. unfold generate_summary. cbv zeta.
  assert (Hlocal :
            (if has_transformers env
             then summarize_with_transformers env (clean_transcript transcript)
             else Ok (simple_extractive_summary (clean_transcript transcript)))
            = Raise e
            <-> has_transformers env = true /\ pipeline env = Raise e).
  { destruct (has_transformers env).
    - rewrite summarize_with_transformers_raises. tauto.
    - split; [discriminate|intros [H _]; discriminate]. }
  destruct (OPENAI_API_KEY env).
  - destruct (summarize_with_openai env (clean_transcript transcript)) as [s|e'];
      cbn [try_except].
    + split; [discriminate|]. intros [[H|[e' H]] _]; discriminate.
    + rewrite Hlocal. split; [intros [H1 H2]; eauto|tauto].
  - rewrite Hlocal. tauto.
Qed.

Lemma chunk_summaries_fold (summarizer : str -> nat -> nat -> result str)
      (chunks : list str) :
  forall acc,
    fold_left (fun acc chunk =>
                 match summarizer chunk 150 50 with
                 | Ok summary => acc ++ [summary]
                 | Raise _ => acc
                 end) chunks acc
    = acc ++ successful_summaries summarizer chunks.
Proof.
  induction chunks as [|chunk chunks IH]; intro acc.
  - cbn. rewrite app_nil_r. reflexivity.
  - cbn [fold_left successful_summaries flat_map]. rewrite IH.
    destruct (summarizer chunk 150 50); [rewrite <- app_assoc|]; reflexivity.
Qed.

Lemma key_point_bullets_fold (sentences : list str) :
  forall acc : str,
    fold_left (fun acc sentence =>
                 if 10 <? length sentence
                 then acc ++ lit "- " ++ sentence ++ [nl]
                 else acc)
              sentences acc
    = acc ++ flat_map bullet (filter (fun s => 10 <? length s) sentences).
Proof.
  induction sentences as [|sentence sentences IH]; intro acc.
  - cbn. rewrite app_nil_r. reflexivity.
  - cbn [fold_left filter]. rewrite IH.
    destruct (10 <? length sentence); [|reflexivity].
    cbn [flat_map]. unfold bullet at 2. rewrite <- !app_assoc. reflexivity.
Qed.

(** X7: with its pipeline loaded, the local-model path never raises. Its
    narrative is made of the summaries of the chunks on which the model
    did not raise, in order; its Key Points are those of the first five
    sentences of the narrative that are longer than 10 characters, so at
    most five; and when no chunk is summarized -- the model raises on
    every chunk, or the transcript has no word -- the document is the two
    headers with nothing under them. *)
Theorem summarize_with_transformers_document :
  forall env transcript summarizer,
    pipeline env = Ok summarizer ->
    let summaries := successful_summaries summarizer (chunk_text transcript 1000) in
    let combined := join (lit " ") summaries in
    let key_sentences :=
      filter (fun s => 10 <? length s) (firstn 5 (split_sentences combined)) in
    summarize_with_transformers env transcript
    = Ok (meeting_summary_header ++ combined ++ [nl; nl]
          ++ key_points_header ++ flat_map bullet key_sentences)
    /\ length key_sentences <= 5
    /\ (summaries = [] ->
        summarize_with_transformers env transcript
        = Ok (meeting_summary_header ++ [nl; nl] ++ key_points_header)).
Proof.
  intros env transcript summarizer Hpipe summaries combined key_sentences.
  assert (Hrun : summarize_with_transformers env transcript
                 = Ok (meeting_summary_header ++ combined ++ [nl; nl]
                       ++ key_points_header ++ flat_map bullet key_sentences)).
  { unfold summarize_with_transformers. rewrite Hpipe. cbn [bind]. cbv zeta.
    rewrite chunk_summaries_fold. cbn [app]. fold summaries. fold combined.
    rewrite key_point_bullets_fold. fold key_sentences.
    rewrite <- !app_assoc. reflexivity. }
  split; [exact Hrun|]. split.
  - subst key_sentences.
    etransitivity; [apply filter_length_le|]. apply firstn_le_length.
  - intro Hnone. rewrite Hrun. subst key_sentences combined. rewrite Hnone.
    reflexivity.
Qed.

(** The example transcript, summarized by a model that echoes its chunk. *)
Lemma summarize_with_transformers_document_witness :
  summarize_with_transformers echo_env example_transcript
  = Ok (meeting_summary_header ++ example_transcript ++ [nl; nl]
        ++ key_points_header
        ++ bullet (lit "Speaker A: Hello.")
        ++ bullet (lit "Speaker B: Let's discuss budget.")
        ++ bullet (lit "Speaker A: Agreed.")).
Proof.
  destruct (@summarize_with_transformers_document
              echo_env example_transcript _ eq_refl) as [Hrun _].
  rewrite Hrun. vm_compute. reflexivity.
Defined.

(** *** The chunks of the local-model path *)

Lemma join_words_nonempty (group : list str) :
  group <> [] -> Forall is_word group -> join (lit " ") group <> [].
Proof.
  intros Hne Hwords. destruct group as [|w group]; [now elim Hne|].
  inversion Hwords as [|? ? [Hw _] _]; subst.
  rewrite join_cons. destruct w; [now elim Hw|discriminate].
Qed.

Lemma chunk_words_nonempty_groups (max_length : nat) (words : list str) :
  forall chunks current_chunk current_length,
    current_chunk <> [] ->
    exists groups,
      chunk_words max_length words (chunks, current_chunk, current_length)
      = chunks ++ map (join (lit " ")) groups
      /\ concat groups = current_chunk ++ words
      /\ Forall (fun group => group <> []) groups
      /\ length groups <= 1 + length words.
Proof.
  unfold chunk_words.
  induction words as [|word words IH];
    intros chunks current_chunk current_length Hcurrent.
  - cbn [fold_left]. destruct current_chunk as [|w ws]; [now elim Hcurrent|].
    exists [w :: ws]. cbn [map concat length]. rewrite !app_nil_r.
    repeat split; [|lia]. constructor; [discriminate|constructor].
  - cbn [fold_left]. rewrite chunk_step_unfold.
    destruct (max_length <? current_length + length word + 1).
    + destruct (IH (chunks ++ [join (lit " ") current_chunk]) [word] (length word))
        as (groups & -> & Hgroups & Hne & Hcount); [discriminate|].
      exists (current_chunk :: groups). cbn [map concat length].
      rewrite <- app_assoc, Hgroups. repeat split; [|lia].
      constructor; assumption.
    + destruct (IH chunks (current_chunk ++ [word])
                   (current_length + length word + 1))
        as (groups & -> & Hgroups & Hne & Hcount).
      { destruct current_chunk; discriminate. }
      exists groups. rewrite Hgroups, <- app_assoc. cbn [length].
      repeat split; [assumption|lia].
Qed.

Lemma Forall_concat_inv {A} (P : A -> Prop) (groups : list (list A)) :
  Forall P (concat groups) -> Forall (Forall P) groups.
Proof.
  induction groups as [|g groups IH]; intro H; [constructor|].
  cbn [concat] in H. apply Forall_app in H. destruct H as [Hg Hrest].
  constructor; [exact Hg|apply IH, Hrest].
Qed.

(** X8: [chunk_text] returns no chunk exactly when the text has no word.
    Its first chunk is the empty string exactly when the first word is at
    least [max_length] characters long; no later chunk is ever empty; and
    there is at most one chunk more than there are words. *)
Theorem chunk_text_empty_chunks :
  forall text max_length,
    let chunks := chunk_text text max_length in
    (chunks = [] <-> split_ws text = [])
    /\ (nth_error chunks 0 = Some [] <->
        exists word rest, split_ws text = word :: rest /\ max_length <= length word)
    /\ (forall k chunk, nth_error chunks (S k) = Some chunk -> chunk <> [])
    /\ length chunks <= length (split_ws text) + 1.
Proof.
  intros text max_length chunks. subst chunks. unfold chunk_text.
  pose proof (split_ws_words text) as Hwords.
  destruct (split_ws text) as [|word rest] eqn:Hsplit.
  - cbn. split; [tauto|]. split; [|split; [|lia]].
    + split; [discriminate|]. intros (w & r & H & _). discriminate.
    + intros k chunk H. discriminate.
  - assert (Hstart :
              chunk_words max_length (word :: rest) ([], [], 0)
              = chunk_words max_length rest
                  (if max_length <? length word + 1
                   then ([[]], [word], length word)
                   else ([], [word], length word + 1)))
      by reflexivity.
    rewrite Hstart. clear Hstart.
    assert (Hgroups :
              forall chunks0 len,
              exists groups,
                chunk_words max_length rest (chunks0, [word], len)
                = chunks0 ++ map (join (lit " ")) groups
                /\ groups <> []
                /\ Forall (fun chunk : str => chunk <> [])
                          (map (join (lit " ")) groups)
                /\ length groups <= 1 + length rest).
    { intros chunks0 len.
      destruct (@chunk_words_nonempty_groups max_length rest chunks0 [word] len)
        as (groups & Hrun & Hconcat & Hne & Hcount); [discriminate|].
      exists groups. split; [exact Hrun|]. split; [|split; [|exact Hcount]].
      - intros ->. discriminate.
      - change (word :: rest) with ([word] ++ rest) in Hwords.
        rewrite <- Hconcat in Hwords. apply Forall_concat_inv in Hwords.
        apply Forall_map. rewrite Forall_forall in *.
        intros g Hg. apply join_words_nonempty; [apply Hne, Hg|apply Hwords, Hg]. }
    destruct (max_length <? length word + 1) eqn:Hfull.
    + apply Nat.ltb_lt in Hfull.
      destruct (Hgroups [[]] (length word)) as (groups & -> & _ & Hne & Hcount).
      cbn [app nth_error length]. split; [split; discriminate|].
      split; [split; [intros _; exists word, rest; split; [reflexivity|lia]|reflexivity]|].
      split; [|rewrite length_map; lia].
      intros k chunk Hk. rewrite Forall_forall in Hne.
      apply Hne. apply nth_error_In in Hk. exact Hk.
    + apply Nat.ltb_ge in Hfull.
      destruct (Hgroups [] (length word + 1)) as (groups & -> & Hsome & Hne & Hcount).
      cbn [app]. rewrite Forall_forall in Hne.
      split; [split; [|discriminate]|].
      { destruct groups; [now elim Hsome|discriminate]. }
      split; [split|].
      * intro H0. apply nth_error_In in H0. elim (Hne _ H0). reflexivity.
      * intros (w & r & Heq & Hlong). injection Heq as <- <-. lia.
      * split; [|rewrite length_map; cbn [length]; lia].
        intros k chunk Hk. apply Hne. apply nth_error_In in Hk. exact Hk.
Qed.

(** *** The narrative of the rule-based path *)

Lemma in_firstn {A} (n : nat) (l : list A) (x : A) : In x (firstn n l) -> In x l.
Proof.
  intro H. rewrite <- (firstn_skipn n l). apply in_or_app. left. exact H.
Qed.

Lemma in_skipn {A} (n : nat) (l : list A) (x : A) : In x (skipn n l) -> In x l.
Proof.
  intro H. rewrite <- (firstn_skipn n l). apply in_or_app. right. exact H.
Qed.

Lemma selected_sentences_length (sentences : list str) :
  length (selected_sentences sentences)
  = Nat.min 3 (length sentences)
    + Nat.min 2 (length sentences - length sentences / 2)
    + Nat.min 3 (length sentences).
Proof.
  unfold selected_sentences, slice, last_n.
  rewrite !length_app, !length_firstn, !length_skipn.
  pose proof (Nat.Div0.div_le_upper_bound (length sentences) 2 (length sentences)).
  lia.
Qed.

(** X9: the narrative of the rule-based summary joins the first three
    sentences, the two at the middle and the last three. They are
    sentences of the transcript, at least 3 and at most 8 of them, 8 as
    soon as the transcript has 3 sentences; a transcript of 8 sentences
    or fewer has one of its sentences twice in the narrative. *)
Theorem simple_extractive_summary_narrative :
  forall transcript,
    let sentences := split_sentences transcript in
    let selected := selected_sentences sentences in
    (exists key_points,
        simple_extractive_summary transcript
        = meeting_summary_header ++ join (lit " ") selected ++ [nl; nl]
          ++ key_points_header ++ key_points)
    /\ incl selected sentences
    /\ 3 <= length selected <= 8
    /\ (3 <= length sentences -> length selected = 8)
    /\ (length sentences <= 8 -> ~ NoDup selected).
Proof.
  intros transcript sentences selected.
  assert (Hsome : 1 <= length sentences) by apply split_pieces_nonempty.
  pose proof (selected_sentences_length sentences) as Hlen. fold selected in Hlen.
  assert (Hhalf : length sentences / 2 * 2 <= length sentences
                  /\ length sentences < length sentences / 2 * 2 + 2).
  { pose proof (Nat.div_mod_eq (length sentences) 2) as Hdm.
    pose proof (Nat.mod_upper_bound (length sentences) 2 ltac:(lia)). lia. }
  assert (Hincl : incl selected sentences).
  { subst selected. unfold selected_sentences, slice, last_n.
    intros s Hs. apply in_app_or in Hs. destruct Hs as [Hs|Hs].
    - apply (in_firstn _ _ _ Hs).
    - apply in_app_or in Hs. destruct Hs as [Hs|Hs].
      + apply in_firstn in Hs. apply (in_skipn _ _ _ Hs).
      + apply (in_skipn _ _ _ Hs). }
  split; [|split; [exact Hincl|split; [lia|split; [lia|]]]].
  - exists (key_points_lines
              (length (nodup str_eq_dec (find_speaker_turns transcript)))
              (length sentences)
              (length (find_speaker_turns transcript))).
    subst selected sentences.
    unfold simple_extractive_summary, selected_sentences, key_points_lines.
    cbv zeta. cbn [app]. rewrite <- !app_assoc. reflexivity.
  - intros Hfew Hnodup.
    destruct (Nat.eq_dec (length sentences) 8) as [Height|Hless].
    + subst selected. unfold selected_sentences, slice, last_n in Hnodup.
      rewrite Height in Hnodup.
      destruct sentences as [|s0 [|s1 [|s2 [|s3 [|s4 [|s5 [|s6 [|s7 [|s8 l]]]]]]]]];
        try discriminate.
      cbn in Hnodup.
      apply (NoDup_remove_2 [s0; s1; s2; s4] [s5; s6; s7] s5) in Hnodup.
      apply Hnodup. cbn. tauto.
    + pose proof (NoDup_incl_length Hnodup Hincl). lia.
Qed.

End SummarizerCoverage.

(* ===================================================================== *)
(** ** More of the title suggester                                       *)
(* ===================================================================== *)

Section TitleCoverage.
Import TitleGeneration.

Lemma scan_after_start (U : unicode_db) (s : str) :
  forall p skip,
    flat_map (fun piece => match piece with Char c => [c] | Match _ => [] end)
             (scan (list_markup U) (Some p) skip s)
    = skipn skip s.
Proof.
  induction s as [|c s IH]; intros p skip.
  - destruct skip; reflexivity.
  - cbn [scan]. destruct skip as [|k]; [|apply IH].
    cbn [list_markup flat_map app]. rewrite IH. reflexivity.
Qed.

(** The substitution of line 65 drops the list markup a line starts with. *)
Lemma re_sub_list_markup (U : unicode_db) (line : str) :
  re_sub (list_markup U) [] line = drop_while (is_list_markup U) line.
Proof.
  unfold re_sub. destruct line as [|c line]; [reflexivity|].
  cbn [scan list_markup]. unfold run_of. cbn [take_while drop_while].
  destruct (is_list_markup U c).
  - cbn [length flat_map app]. rewrite scan_after_start. apply skipn_take_while.
  - cbn [length flat_map app]. rewrite scan_after_start. reflexivity.
Qed.

Lemma markup_includes_space (U : unicode_db) (c : char) :
  is_list_markup U c = false -> isspace c = false.
Proof.
  unfold is_list_markup. intro H. apply orb_false_iff in H. apply H.
Qed.

Lemma clean_line_head (U : unicode_db) (line : str) (c : char) (rest : str) :
  clean_line U line = c :: rest -> is_list_markup U c = false.
Proof.
  unfold clean_line. rewrite re_sub_list_markup. intro Hclean.
  destruct (strip_prefix_of_drop (drop_while (is_list_markup U) line))
    as [tail Hdrop].
  rewrite Hclean in Hdrop.
  destruct (drop_while (is_list_markup U) line) as [|x s] eqn:Hs; [discriminate|].
  pose proof (drop_while_head _ _ Hs) as Hx.
  cbn [drop_while] in Hdrop. rewrite (markup_includes_space _ _ Hx) in Hdrop.
  injection Hdrop as -> _. exact Hx.
Qed.

Lemma parsed_titles_from_lines (U : unicode_db) (lines : list str) :
  forall titles (P : str -> Prop),
    Forall P titles ->
    (forall line,
        In line lines -> clean_line U line <> [] ->
        length (clean_line U line) < 60 -> P (clean_line U line)) ->
    Forall P (fold_left (title_step U) lines titles).
Proof.
  induction lines as [|line lines IH]; intros titles P Htitles Hline;
    [exact Htitles|].
  cbn [fold_left]. apply IH.
  - unfold title_step. fold (clean_line U line).
    destruct (clean_line U line) as [|c clean] eqn:Hclean; [exact Htitles|].
    destruct (length (c :: clean) <? 60) eqn:Hshort; [|exact Htitles].
    apply Forall_app. split; [exact Htitles|]. constructor; [|constructor].
    rewrite <- Hclean. apply Hline; [left; reflexivity| |];
      rewrite Hclean; [discriminate|apply Nat.ltb_lt, Hshort].
  - intros l Hl. apply Hline. right. exact Hl.
Qed.

Lemma placeholder_short (n : nat) : 1 <= n <= 3 -> length (placeholder n) < 60.
Proof.
  intro Hn. destruct n as [|[|[|[|n]]]]; try lia; vm_compute; lia.
Qed.

(** X10: every title read off a completion is a line of the completion
    without the list markup at its start and the whitespace at its ends:
    it is not empty, shorter than 60 characters, and starts with a
    character that is no digit, dot, dash, star, bullet or whitespace.
    The three titles of the remote path, placeholders included, are all
    shorter than 60 characters. *)
Theorem generate_titles_with_openai_shape :
  forall env summary,
    (forall content,
        Forall (fun title =>
                  title <> [] /\ length title < 60 /\ trimmed title
                  /\ (forall c rest,
                         title = c :: rest ->
                         is_list_markup (unicode env) c = false)
                  /\ exists line,
                      In line (split_on nl (strip content))
                      /\ title = clean_line (unicode env) line)
               (parsed_titles (unicode env) content))
    /\ (forall titles,
          generate_titles_with_openai env summary = Ok titles ->
          length titles = 3 /\ Forall (fun title => length title < 60) titles).
Proof.
  intros env summary. split.
  - intro content. unfold parsed_titles.
    apply parsed_titles_from_lines; [constructor|].
    intros line Hline Hne Hshort.
    split; [exact Hne|]. split; [exact Hshort|].
    split; [apply strip_trimmed|]. split; [|eauto].
    intros c rest Hclean. apply (clean_line_head _ _ Hclean).
  - intros titles Hrun.
    destruct (chat_completions_create env
                (lit "You are a professional title generator for business meetings.")
                (prompt summary) 100) as [content|e] eqn:Hchat.
    + destruct (generate_titles_with_openai_three env summary Hchat)
        as (Heq & Hparsed & _).
      set (parsed := parsed_titles (unicode env) content) in *.
      assert (Htitles : titles
                        = firstn 3 (parsed ++ map placeholder
                                      (seq (length parsed + 1) (3 - length parsed))))
        by congruence.
      rewrite Htitles. clear Htitles Hrun Heq.
      split.
      * rewrite length_firstn, length_app, length_map, length_seq. lia.
      * apply Forall_forall. intros title Hin. apply in_firstn in Hin.
        apply in_app_or in Hin. destruct Hin as [Hin|Hin].
        -- rewrite Forall_forall in Hparsed. apply (Hparsed _ Hin).
        -- apply in_map_iff in Hin. destruct Hin as (n & <- & Hn).
           apply in_seq in Hn. apply placeholder_short. lia.
    + unfold generate_titles_with_openai in Hrun. rewrite Hchat in Hrun.
      discriminate.
Qed.

Lemma templates_distinct : NoDup templates.
Proof.
  assert (H : nodup str_eq_dec templates = templates) by (vm_compute; reflexivity).
  rewrite <- H. apply NoDup_nodup.
Qed.

(** X11: the rule-based titles are three different templates of the table
    of eight, the first three after the shuffle, all filled with the same
    topics: the topics found or, when only one is found, that topic and
    the generic "Discussion". *)
Theorem generate_titles_rule_based_templates :
  forall env summary,
    (forall l, Permutation l (shuffle env l)) ->
    let topics := padded_topics (unicode env) summary in
    exists a b c,
      firstn 3 (shuffle env templates) = [a; b; c]
      /\ In a templates /\ In b templates /\ In c templates
      /\ a <> b /\ a <> c /\ b <> c
      /\ generate_titles_rule_based env summary
         = mapM (fill_template (unicode env) topics) [a; b; c]
      /\ (2 <= length (extract_key_topics (unicode env) summary) ->
          topics = extract_key_topics (unicode env) summary)
      /\ (forall topic,
            extract_key_topics (unicode env) summary = [topic] ->
            topics = topic :: map lit ["Discussion"; "Planning"; "Review"]%string).
Proof.
  intros env summary Hshuffle topics.
  pose proof (Hshuffle templates) as Hperm.
  assert (Hnodup : NoDup (shuffle env templates))
    by (apply (Permutation_NoDup Hperm), templates_distinct).
  destruct (@firstn_three _ (fun t => In t templates) (shuffle env templates))
    as (a & b & c & Hfirst & Ha & Hb & Hc).
  - apply Forall_forall. intros t Ht.
    apply (Permutation_in _ (Permutation_sym Hperm)), Ht.
  - rewrite <- (Permutation_length Hperm). cbn. lia.
  - exists a, b, c. split; [exact Hfirst|].
    rewrite <- (firstn_skipn 3 (shuffle env templates)), Hfirst in Hnodup.
    apply NoDup_app_remove_r in Hnodup.
    inversion Hnodup as [|? ? Hab Hbc]; subst.
    inversion Hbc as [|? ? Hb' _]; subst.
    repeat split; try assumption.
    + intros ->. apply Hab. left. reflexivity.
    + intros ->. apply Hab. right. left. reflexivity.
    + intros ->. apply Hb'. left. reflexivity.
    + unfold generate_titles_rule_based. cbv zeta. rewrite Hfirst. reflexivity.
    + intro Hlen. subst topics. unfold padded_topics. cbv zeta.
      apply Nat.ltb_ge in Hlen. rewrite Hlen. reflexivity.
    + intros topic Hone. subst topics. unfold padded_topics. cbv zeta.
      rewrite Hone. reflexivity.
Qed.

(** A shuffle that reverses the table, on the example summary. *)
Lemma generate_titles_rule_based_templates_witness :
  (forall l, Permutation l (shuffle offline_env l))
  /\ exists a b c,
      firstn 3 (shuffle offline_env templates) = [a; b; c]
      /\ a <> b /\ a <> c /\ b <> c.
Proof.
  assert (Hshuffle : forall l, Permutation l (shuffle offline_env l))
    by (intro l; apply Permutation_rev).
  split; [exact Hshuffle|].
  destruct (generate_titles_rule_based_templates offline_env example_summary Hshuffle)
    as (a & b & c & Hfirst & _ & _ & _ & Hab & Hac & Hbc & _).
  exists a, b, c. auto.
Defined.

End TitleCoverage.

(* ===================================================================== *)
(** ** The endpoint                                                      *)
(* ===================================================================== *)

Section EndpointCoverage.
Import Main.

Lemma transcribe_audio_returns (env : Transcription.environment) (audio_path : str) :
  exists transcript, Transcription.transcribe_audio env audio_path = Ok transcript.
Proof.
  destruct (transcribe_with_whisper_returns env audio_path) as (local & Hlocal & _).
  unfold Transcription.transcribe_audio.
  destruct (Transcription.api_key env); [|eauto].
  destruct (Transcription.transcribe_with_openai env audio_path); cbn; eauto.
Qed.

Lemma generate_titles_returns (env : TitleGeneration.environment) (summary : str) :
  (forall l, Permutation l (TitleGeneration.shuffle env l)) ->
  TitleGeneration.three_titles (TitleGeneration.generate_titles env summary).
Proof.
  intro Hshuffle.
  pose proof (generate_titles_rule_based_three env summary Hshuffle) as Hrule.
  unfold TitleGeneration.generate_titles.
  destruct (TitleGeneration.OPENAI_API_KEY env); [|exact Hrule].
  destruct (TitleGeneration.generate_titles_with_openai env summary)
    as [titles|e] eqn:Hremote; [|exact Hrule].
  cbn [try_except]. rewrite <- Hremote.
  unfold TitleGeneration.generate_titles_with_openai in Hremote.
  destruct (TitleGeneration.chat_completions_create env _
              (TitleGeneration.prompt summary) 100)
    as [content|e] eqn:Hchat; [|discriminate].
  apply (generate_titles_with_openai_three env summary Hchat).
Qed.

Lemma generate_summary_raise_cause (env : Summarization.environment)
      (transcript e : str) :
  Summarization.generate_summary env transcript = Raise e ->
  Summarization.has_transformers env = true /\ Summarization.pipeline env = Raise e.
Proof.
  unfold Summarization.generate_summary. cbv zeta.
  assert (Hlocal :
            (if Summarization.has_transformers env
             then Summarization.summarize_with_transformers env
                    (Summarization.clean_transcript transcript)
             else Ok (Summarization.simple_extractive_summary
                        (Summarization.clean_transcript transcript)))
            = Raise e ->
            Summarization.has_transformers env = true
            /\ Summarization.pipeline env = Raise e).
  { destruct (Summarization.has_transformers env); [|discriminate].
    intro H. apply summarize_with_transformers_raises in H. auto. }
  destruct (Summarization.OPENAI_API_KEY env); [|exact Hlocal].
  destruct (Summarization.summarize_with_openai env _); [discriminate|exact Hlocal].
Qed.

(** The three stages in a row: a response with three titles, unless the
    pipeline of the local summarization model fails to load. *)
Lemma process_audio_outcome (svc : services) (proc : process) (path : str) :
  (forall l, Permutation l (shuffle svc l)) ->
  exists transcript,
    Transcription.transcribe_audio (transcription_env svc proc) path = Ok transcript
    /\ ((exists summary t1 t2 t3,
            Summarization.generate_summary (summarization_env svc proc) transcript
            = Ok summary
            /\ t1 <> [] /\ t2 <> [] /\ t3 <> []
            /\ process_audio svc proc path
               = Ok {| summary := summary;
                       suggested_titles := [t1; t2; t3];
                       full_transcript := transcript |})
        \/ (exists e,
               process_audio svc proc path = Raise e
               /\ has_transformers svc = true /\ pipeline svc = Raise e)).
Proof.
  intro Hshuffle. unfold process_audio.
  destruct (transcribe_audio_returns (transcription_env svc proc) path)
    as [transcript Htranscript].
  exists transcript. split; [exact Htranscript|]. rewrite Htranscript. cbn [bind].
  destruct (Summarization.generate_summary (summarization_env svc proc) transcript)
    as [summary|e] eqn:Hsummary; cbn [bind].
  - left.
    destruct (generate_titles_returns (title_env svc proc) summary Hshuffle)
      as (t1 & t2 & t3 & Htitles & H1 & H2 & H3).
    rewrite Htitles. cbn [bind]. exists summary, t1, t2, t3. auto.
  - right. exists e. split; [reflexivity|].
    apply (generate_summary_raise_cause _ _ Hsummary).
Qed.

(** X12: a request fails in two cases only: the upload cannot be saved,
    or the [transformers] library is installed and its pipeline fails to
    load. Neither the transcriber nor the title suggester can make it
    fail; without [transformers], every saved upload is answered, with
    three titles. *)
Theorem generate_call_summary_failures :
  forall svc proc req,
    (forall l, Permutation l (shuffle svc l)) ->
    (forall e,
        save_upload svc (filename req) = Raise e ->
        fst (generate_call_summary svc proc req)
        = Raise (lit "Error processing audio: " ++ e))
    /\ (forall detail,
          fst (generate_call_summary svc proc req) = Raise detail ->
          (exists e,
              save_upload svc (filename req) = Raise e
              /\ detail = lit "Error processing audio: " ++ e)
          \/ (has_transformers svc = true
              /\ exists e,
                  pipeline svc = Raise e
                  /\ detail
                     = lit "Error processing audio: "
                       ++ http_exception_str svc
                            (lit "Error processing audio: " ++ e)))
    /\ (has_transformers svc = false ->
        forall path,
          save_upload svc (filename req) = Ok path ->
          exists response t1 t2 t3,
            fst (generate_call_summary svc proc req) = Ok response
            /\ suggested_titles response = [t1; t2; t3]).
Proof.
  intros svc proc req Hshuffle.
  unfold generate_call_summary. cbv zeta. cbn [fst].
  set (proc' := set_api_key proc req).
  split; [|split].
  - intros e Hsave. rewrite Hsave. reflexivity.
  - intros detail Hfail.
    destruct (save_upload svc (filename req)) as [path|e] eqn:Hsave.
    + right. cbn [bind] in Hfail.
      destruct (process_audio_outcome svc proc' path Hshuffle)
        as (transcript & _ & [(summary & t1 & t2 & t3 & _ & _ & _ & _ & Hok)
                             |(e & Hraise & Hinstalled & Hpipe)]).
      * rewrite Hok in Hfail. discriminate.
      * rewrite Hraise in Hfail. cbn [try_except] in Hfail.
        injection Hfail as <-. split; [exact Hinstalled|]. exists e. auto.
    + left. cbn [bind try_except] in Hfail. injection Hfail as <-. eauto.
  - intros Hnone path Hsave. rewrite Hsave. cbn [bind].
    destruct (process_audio_outcome svc proc' path Hshuffle)
      as (transcript & _ & [(summary & t1 & t2 & t3 & _ & _ & _ & _ & Hok)
                           |(e & _ & Hinstalled & _)]).
    + rewrite Hok. cbn [try_except]. eexists _, t1, t2, t3. split; reflexivity.
    + congruence.
Qed.

(** Nothing installed, nothing answering: the request is still answered. *)
Lemma generate_call_summary_failures_witness :
  (forall l, Permutation l (shuffle bare_services l))
  /\ exists response t1 t2 t3,
      fst (generate_call_summary bare_services fresh_process
             {| filename := lit "call.wav"; x_api_key := None |})
      = Ok response
      /\ suggested_titles response = [t1; t2; t3].
Proof.
  assert (Hshuffle : forall l, Permutation l (shuffle bare_services l))
    by (intro l; apply Permutation_rev).
  split; [exact Hshuffle|].
  destruct (generate_call_summary_failures
              bare_services fresh_process
              {| filename := lit "call.wav"; x_api_key := None |} Hshuffle)
    as (_ & _ & Hanswer).
  apply (Hanswer eq_refl (lit "/tmp/call.wav") eq_refl).
Defined.

(** What a request that is answered went through: the upload was saved
    and each stage returned the field of the response it fills. *)
Lemma generate_call_summary_answered (svc : services) (proc : process)
      (req : request) (response : SummaryResponse) :
  fst (generate_call_summary svc proc req) = Ok response ->
  let proc' := set_api_key proc req in
  exists path,
    save_upload svc (filename req) = Ok path
    /\ Transcription.transcribe_audio (transcription_env svc proc') path
       = Ok (full_transcript response)
    /\ Summarization.generate_summary (summarization_env svc proc')
         (full_transcript response)
       = Ok (summary response)
    /\ TitleGeneration.generate_titles (title_env svc proc') (summary response)
       = Ok (suggested_titles response).
Proof.
  unfold generate_call_summary. cbv zeta. cbn [fst].
  set (proc' := set_api_key proc req). intro Hrun.
  destruct (save_upload svc (filename req)) as [path|e]; [|discriminate].
  exists path. split; [reflexivity|].
  cbn [bind] in Hrun. unfold process_audio in Hrun.
  destruct (Transcription.transcribe_audio (transcription_env svc proc') path)
    as [transcript|e]; [|discriminate].
  cbn [bind] in Hrun.
  destruct (Summarization.generate_summary (summarization_env svc proc') transcript)
    as [doc|e] eqn:Hsummary; [|discriminate].
  cbn [bind] in Hrun.
  destruct (TitleGeneration.generate_titles (title_env svc proc') doc)
    as [titles|e] eqn:Htitles; [|discriminate].
  cbn [bind try_except] in Hrun. injection Hrun as <-.
  cbn [full_transcript summary suggested_titles]. auto.
Qed.

(** X13: a transcription that fails on both paths is no error of the
    request. [transcribe_audio] returns the description of the failure,
    and the request goes on with it as the transcript: if
    [generate_summary] returns a document for it, the answer holds that
    document, the three titles [generate_titles] returns for that
    document, and the description as the transcript; the request fails
    only if [generate_summary] raises on the description, that is if the
    pipeline of the installed local model fails to load. Without key and
    without local model the summary is the rule-based one of the
    description. *)
Theorem generate_call_summary_failed_transcription :
  forall svc proc req path e,
    (forall l, Permutation l (shuffle svc l)) ->
    save_upload svc (filename req) = Ok path ->
    Transcription.remote_failed (transcription_env svc proc) path ->
    whisper_transcribe svc path = Raise e ->
    let proc' := set_api_key proc req in
    let message := lit "Transcription failed: " ++ e in
    Transcription.transcribe_audio (transcription_env svc proc') path = Ok message
    /\ (forall doc,
          Summarization.generate_summary (summarization_env svc proc') message
          = Ok doc ->
          exists titles,
            TitleGeneration.generate_titles (title_env svc proc') doc = Ok titles
            /\ length titles = 3
            /\ fst (generate_call_summary svc proc req)
               = Ok {| summary := doc;
                       suggested_titles := titles;
                       full_transcript := message |})
    /\ (forall e',
          Summarization.generate_summary (summarization_env svc proc') message
          = Raise e' ->
          has_transformers svc = true
          /\ pipeline svc = Raise e'
          /\ fst (generate_call_summary svc proc req)
             = Raise (lit "Error processing audio: "
                      ++ http_exception_str svc
                           (lit "Error processing audio: " ++ e')))
    /\ (truthy (environ_OPENAI_API_KEY proc') = false ->
        has_transformers svc = false ->
        Summarization.generate_summary (summarization_env svc proc') message
        = Ok (Summarization.simple_extractive_summary
                (Summarization.clean_transcript message))).
Proof.
  intros svc proc req path e Hshuffle Hsave Hremote Hlocal proc' message.
  assert (Henv : transcription_env svc proc' = transcription_env svc proc).
  { subst proc'. unfold set_api_key, transcription_env.
    destruct (truthy (x_api_key req)); reflexivity. }
  assert (Htranscript :
            Transcription.transcribe_audio (transcription_env svc proc') path
            = Ok message).
  { rewrite Henv.
    assert (Hwhisper :
              Transcription.transcribe_with_whisper (transcription_env svc proc) path
              = Ok message).
    { unfold Transcription.transcribe_with_whisper. cbn [transcription_env
        Transcription.whisper_transcribe]. rewrite Hlocal. reflexivity. }
    unfold Transcription.transcribe_audio.
    destruct Hremote as [Hkey|[e' He']].
    - rewrite Hkey. exact Hwhisper.
    - destruct (Transcription.api_key (transcription_env svc proc));
        [rewrite He'|]; exact Hwhisper. }
  assert (Hrun : fst (generate_call_summary svc proc req)
                 = try_except (process_audio svc proc' path)
                     (fun e0 =>
                        Raise (lit "Error processing audio: "
                               ++ http_exception_str svc
                                    (lit "Error processing audio: " ++ e0)))).
  { unfold generate_call_summary. cbv zeta. cbn [fst]. fold proc'.
    rewrite Hsave. cbn [bind].
    destruct (process_audio svc proc' path); reflexivity. }
  split; [exact Htranscript|]. split; [|split].
  - intros doc Hdoc.
    destruct (generate_titles_returns (title_env svc proc') doc Hshuffle)
      as (t1 & t2 & t3 & Htitles & _).
    exists [t1; t2; t3]. split; [exact Htitles|]. split; [reflexivity|].
    rewrite Hrun. unfold process_audio.
    rewrite Htranscript. cbn [bind]. rewrite Hdoc. cbn [bind].
    rewrite Htitles. reflexivity.
  - intros e' Hraise.
    destruct (generate_summary_raise_cause _ _ Hraise) as [Hinstalled Hpipe].
    split; [exact Hinstalled|]. split; [exact Hpipe|].
    rewrite Hrun. unfold process_audio.
    rewrite Htranscript. cbn [bind]. rewrite Hraise. reflexivity.
  - intros Hkey Hnone. unfold Summarization.generate_summary. cbv zeta.
    cbn [summarization_env Summarization.OPENAI_API_KEY
         Summarization.has_transformers].
    rewrite Hkey, Hnone. reflexivity.
Qed.

(** Neither remote nor local transcription available. *)
Lemma generate_call_summary_failed_transcription_witness :
  exists titles,
    length titles = 3
    /\ fst (generate_call_summary bare_services fresh_process
              {| filename := lit "call.wav"; x_api_key := None |})
       = Ok {| summary :=
                 Summarization.simple_extractive_summary
                   (Summarization.clean_transcript
                      (lit "Transcription failed: No module named 'whisper'"));
               suggested_titles := titles;
               full_transcript :=
                 lit "Transcription failed: No module named 'whisper'" |}.
Proof.
  destruct (@generate_call_summary_failed_transcription
              bare_services fresh_process
              {| filename := lit "call.wav"; x_api_key := None |}
              (lit "/tmp/call.wav") (lit "No module named 'whisper'"))
    as (_ & Hanswer & _ & Hrule).
  - intro l. apply Permutation_rev.
  - reflexivity.
  - left. reflexivity.
  - reflexivity.
  - destruct (Hanswer _ (Hrule eq_refl eq_refl)) as (titles & _ & Hthree & Hrun).
    exists titles. split; [exact Hthree|exact Hrun].
Defined.

Lemma set_api_key_none (proc : process) (req : request) :
  x_api_key req = None -> set_api_key proc req = proc.
Proof. unfold set_api_key. intros ->. reflexivity. Qed.

(** X14: a non-empty key sent in the header of one request stays in the
    process, whatever becomes of that request. A later request without a
    key leaves the process as it is and is served exactly as if it
    carried the key itself: its summary is what the remote summarizer
    returns, whenever that one returns. On a process that holds no key,
    the summary of a request without a key is the local path's. *)
Theorem generate_call_summary_key_persists :
  forall svc proc req1 req2 key,
    x_api_key req1 = Some key ->
    key <> [] ->
    x_api_key req2 = None ->
    let proc1 := snd (generate_call_summary svc proc req1) in
    environ_OPENAI_API_KEY proc1 = Some key
    /\ openai_api_key proc1 = openai_api_key proc
    /\ snd (generate_call_summary svc proc1 req2) = proc1
    /\ fst (generate_call_summary svc proc1 req2)
       = fst (generate_call_summary svc proc
                {| filename := filename req2; x_api_key := Some key |})
    /\ (forall response remote,
          fst (generate_call_summary svc proc1 req2) = Ok response ->
          Summarization.summarize_with_openai (summarization_env svc proc1)
            (Summarization.clean_transcript (full_transcript response))
          = Ok remote ->
          summary response = remote)
    /\ (truthy (environ_OPENAI_API_KEY proc) = false ->
        forall response,
          fst (generate_call_summary svc proc req2) = Ok response ->
          Summarization.local_summary (summarization_env svc proc)
            (Summarization.clean_transcript (full_transcript response))
          = Ok (summary response)).
Proof.
  intros svc proc req1 req2 key Hkey1 Hne Hkey2 proc1.
  assert (Htruthy : truthy (Some key) = true)
    by (destruct key; [now elim Hne|reflexivity]).
  assert (Hproc1 : proc1 = {| environ_OPENAI_API_KEY := Some key;
                              openai_api_key := openai_api_key proc |}).
  { subst proc1. unfold generate_call_summary. cbv zeta. cbn [snd].
    unfold set_api_key. rewrite Hkey1, Htruthy. reflexivity. }
  assert (Hstay : set_api_key proc1 req2 = proc1)
    by apply (set_api_key_none _ _ Hkey2).
  split; [rewrite Hproc1; reflexivity|]. split; [rewrite Hproc1; reflexivity|].
  split; [|split; [|split]].
  - unfold generate_call_summary. cbv zeta. cbn [snd]. exact Hstay.
  - unfold generate_call_summary. cbv zeta. cbn [fst]. rewrite Hstay.
    unfold set_api_key. cbn [x_api_key filename].
    rewrite Htruthy, <- Hproc1. reflexivity.
  - intros response remote Hrun Hremote.
    destruct (generate_call_summary_answered _ _ _ Hrun)
      as (path & _ & _ & Hsummary & _).
    cbv zeta in Hsummary. rewrite Hstay in Hsummary.
    unfold Summarization.generate_summary in Hsummary. cbv zeta in Hsummary.
    assert (Hkey : Summarization.OPENAI_API_KEY (summarization_env svc proc1) = true).
    { rewrite Hproc1. exact Htruthy. }
    rewrite Hkey, Hremote in Hsummary. cbn [try_except] in Hsummary.
    congruence.
  - intros Hnokey response Hrun.
    destruct (generate_call_summary_answered _ _ _ Hrun)
      as (path & _ & _ & Hsummary & _).
    cbv zeta in Hsummary. rewrite (set_api_key_none _ _ Hkey2) in Hsummary.
    unfold Summarization.generate_summary in Hsummary. cbv zeta in Hsummary.
    assert (Hkey : Summarization.OPENAI_API_KEY (summarization_env svc proc) = false)
      by exact Hnokey.
    rewrite Hkey in Hsummary. exact Hsummary.
Qed.

(** A first request with a key, a second one without. *)
Lemma generate_call_summary_key_persists_witness :
  let first := {| filename := lit "a.wav"; x_api_key := Some (lit "sk-1") |} in
  let second := {| filename := lit "b.wav"; x_api_key := None |} in
  let proc1 := snd (generate_call_summary remote_services fresh_process first) in
  environ_OPENAI_API_KEY proc1 = Some (lit "sk-1")
  /\ exists response,
      fst (generate_call_summary remote_services proc1 second) = Ok response
      /\ summary response = lit "OK".
Proof.
  cbv zeta.
  destruct (@generate_call_summary_key_persists
              remote_services fresh_process
              {| filename := lit "a.wav"; x_api_key := Some (lit "sk-1") |}
              {| filename := lit "b.wav"; x_api_key := None |}
              (lit "sk-1"))
    as (Hkey & _ & _ & _ & Hremote & _).
  - reflexivity.
  - discriminate.
  - reflexivity.
  - split; [exact Hkey|].
    eexists. split; [vm_compute; reflexivity|].
    eapply Hremote; vm_compute; reflexivity.
Defined.

(** X15: the key of the header never reaches the transcriber, which
    looks at [openai.api_key] as it was set at start-up: without a key
    there, the transcript is the local path's whatever the header holds,
    while the summarizer does use the key of the header. *)
Theorem generate_call_summary_transcriber_ignores_header :
  forall svc proc req path response,
    truthy (openai_api_key proc) = false ->
    save_upload svc (filename req) = Ok path ->
    fst (generate_call_summary svc proc req) = Ok response ->
    Transcription.transcribe_with_whisper (transcription_env svc proc) path
    = Ok (full_transcript response)
    /\ (truthy (x_api_key req) = true ->
        forall remote,
          Summarization.summarize_with_openai
            (summarization_env svc (set_api_key proc req))
            (Summarization.clean_transcript (full_transcript response))
          = Ok remote ->
          summary response = remote).
Proof.
  intros svc proc req path response Hnokey Hsave Hrun.
  unfold generate_call_summary in Hrun. cbv zeta in Hrun. cbn [fst] in Hrun.
  rewrite Hsave in Hrun. cbn [bind] in Hrun.
  set (proc' := set_api_key proc req) in *.
  assert (Henv : transcription_env svc proc' = transcription_env svc proc).
  { subst proc'. unfold set_api_key, transcription_env.
    destruct (truthy (x_api_key req)); reflexivity. }
  unfold process_audio in Hrun. rewrite Henv in Hrun.
  assert (Hlocal :
            Transcription.transcribe_audio (transcription_env svc proc) path
            = Transcription.transcribe_with_whisper (transcription_env svc proc) path).
  { unfold Transcription.transcribe_audio.
    cbn [transcription_env Transcription.api_key]. rewrite Hnokey. reflexivity. }
  rewrite Hlocal in Hrun.
  destruct (Transcription.transcribe_with_whisper (transcription_env svc proc) path)
    as [transcript|e]; [|discriminate].
  cbn [bind] in Hrun.
  destruct (Summarization.generate_summary (summarization_env svc proc') transcript)
    as [s|e] eqn:Hsummary; [|discriminate].
  cbn [bind] in Hrun.
  destruct (TitleGeneration.generate_titles (title_env svc proc') s)
    as [titles|e]; [|discriminate].
  cbn [bind try_except] in Hrun. injection Hrun as <-. cbn [full_transcript summary].
  split; [reflexivity|].
  intros Hheader remote Hremote.
  unfold Summarization.generate_summary in Hsummary. cbv zeta in Hsummary.
  assert (Hkey : Summarization.OPENAI_API_KEY (summarization_env svc proc') = true).
  { subst proc'. unfold set_api_key. rewrite Hheader. exact Hheader. }
  rewrite Hkey, Hremote in Hsummary. cbn [try_except] in Hsummary.
  congruence.
Qed.

(** A request with a key on a process started without one. *)
Lemma generate_call_summary_transcriber_ignores_header_witness :
  exists response,
    fst (generate_call_summary remote_services fresh_process
           {| filename := lit "a.wav"; x_api_key := Some (lit "sk-1") |})
    = Ok response
    /\ full_transcript response = lit "Speaker: Hello there."
    /\ summary response = lit "OK".
Proof.
  eexists. split; [vm_compute; reflexivity|].
  destruct (@generate_call_summary_transcriber_ignores_header
              remote_services fresh_process
              {| filename := lit "a.wav"; x_api_key := Some (lit "sk-1") |}
              (lit "/tmp/a.wav") _ eq_refl eq_refl eq_refl)
    as [Hlocal Hremote].
  split; [vm_compute; reflexivity|].
  apply (Hremote eq_refl). vm_compute. reflexivity.
Defined.

End EndpointCoverage.

(* ===================================================================== *)
(** ** The topics of the rule-based titles                               *)
(* ===================================================================== *)

Section TopicFacts.
Import TitleGeneration.

(** *** Heading markers *)

Lemma re_sub_cons (m : matcher) (repl : str) (c : char) (s : str) :
  (forall p q x, m p x = m q x) ->
  re_sub m repl (c :: s)
  = match m None (c :: s) with
    | Some (S k) => repl ++ re_sub m repl (skipn k s)
    | _ => c :: re_sub m repl s
    end.
Proof.
  intro Hm. unfold re_sub. cbn [scan].
  destruct (m None (c :: s)) as [[|k]|]; cbn [flat_map].
  - rewrite (scan_prev_irrelevant m Hm _ (Some c) None). reflexivity.
  - rewrite (scan_skip m Hm), (scan_prev_irrelevant m Hm _ (Some c) None).
    reflexivity.
  - rewrite (scan_prev_irrelevant m Hm _ (Some c) None). reflexivity.
Qed.

Lemma run_of_take_while (p : char -> bool) (s : str) :
  run_of p s
  = match take_while p s with
    | [] => None
    | _ :: _ => Some (length (take_while p s))
    end.
Proof. unfold run_of. destruct (take_while p s); reflexivity. Qed.

Lemma heading_marker_at (prev : option char) (s : str) :
  heading_marker prev s
  = if heading_at s
    then Some (length (take_while (char_eqb (ch "#")) s)
               + length (take_while isspace (drop_while (char_eqb (ch "#")) s)))
    else None.
Proof.
  unfold heading_marker. rewrite run_of_take_while.
  destruct (take_while (char_eqb (ch "#")) s) as [|a h] eqn:Hhashes.
  - destruct s as [|c s]; [reflexivity|].
    unfold heading_at. cbn [take_while] in Hhashes.
    destruct (char_eqb (ch "#") c); [discriminate|reflexivity].
  - rewrite <- Hhashes, skipn_take_while, run_of_take_while.
    destruct s as [|c s]; [discriminate|].
    unfold heading_at. cbn [take_while] in Hhashes.
    destruct (char_eqb (ch "#") c) eqn:Hc; [|discriminate].
    cbn [andb].
    destruct (drop_while (char_eqb (ch "#")) (c :: s)) as [|d r]; [reflexivity|].
    cbn [take_while]. destruct (isspace d); reflexivity.
Qed.

Lemma strip_heading_cons (c : char) (s : str) :
  re_sub heading_marker [] (c :: s)
  = if heading_at (c :: s)
    then re_sub heading_marker []
           (drop_while isspace (drop_while (char_eqb (ch "#")) s))
    else c :: re_sub heading_marker [] s.
Proof.
  rewrite re_sub_cons by reflexivity. rewrite heading_marker_at.
  destruct (heading_at (c :: s)) eqn:Hat; [|reflexivity].
  unfold heading_at in Hat. apply andb_prop in Hat. destruct Hat as [Hc _].
  cbn [take_while drop_while]. rewrite Hc. cbn [length Nat.add app].
  rewrite Nat.add_comm, <- skipn_skipn, !skipn_take_while. reflexivity.
Qed.

Lemma heading_at_hashes (c : char) (s : str) :
  char_eqb (ch "#") c = true ->
  heading_at (c :: s)
  = match s with
    | [] => false
    | d :: _ => if char_eqb (ch "#") d then heading_at s else isspace d
    end.
Proof.
  intro Hc. unfold heading_at. cbn [drop_while]. rewrite Hc. cbn [andb].
  destruct s as [|d s]; [reflexivity|].
  cbn [drop_while]. destruct (char_eqb (ch "#") d); reflexivity.
Qed.

Lemma hash_not_space (c : char) :
  char_eqb (ch "#") c = true -> isspace c = false.
Proof. intro H. apply N.eqb_eq in H. subst c. reflexivity. Qed.

(** The stripped text starts with the first character of the text when
    no marker starts there. *)
Lemma strip_heading_head (c : char) (s : str) :
  char_eqb (ch "#") c = true -> heading_at (c :: s) = false ->
  match re_sub heading_marker [] s with
  | [] => True
  | d :: _ => isspace d = false
  end.
Proof.
  intros Hc Hat. rewrite (@heading_at_hashes c s Hc) in Hat.
  destruct s as [|d s]; [exact I|].
  rewrite strip_heading_cons.
  destruct (char_eqb (ch "#") d) eqn:Hd.
  - rewrite Hat. apply hash_not_space, Hd.
  - unfold heading_at. rewrite Hd. cbn [andb]. exact Hat.
Qed.

Lemma strip_heading_no_marker (n : nat) :
  forall s, length s <= n ->
            has_heading_marker (re_sub heading_marker [] s) = false.
Proof.
  induction n as [|n IH]; intros s Hlen.
  - destruct s; [reflexivity|cbn in Hlen; lia].
  - destruct s as [|c s]; [reflexivity|]. cbn [length] in Hlen.
    rewrite strip_heading_cons. destruct (heading_at (c :: s)) eqn:Hat.
    + apply IH.
      pose proof (drop_while_length isspace (drop_while (char_eqb (ch "#")) s)).
      pose proof (drop_while_length (char_eqb (ch "#")) s). lia.
    + pose proof (IH s ltac:(lia)) as Hrest.
      destruct (char_eqb (ch "#") c) eqn:Hc.
      * pose proof (@strip_heading_head c s Hc Hat) as Hhead.
        destruct (re_sub heading_marker [] s) as [|d t]; [reflexivity|].
        change (has_heading_marker (c :: d :: t))
          with ((char_eqb (ch "#") c && isspace d) || has_heading_marker (d :: t)).
        rewrite Hhead, Hrest, andb_false_r. reflexivity.
      * destruct (re_sub heading_marker [] s) as [|d t]; [reflexivity|].
        change (has_heading_marker (c :: d :: t))
          with ((char_eqb (ch "#") c && isspace d) || has_heading_marker (d :: t)).
        rewrite Hc, Hrest. reflexivity.
Qed.

Lemma filter_drop_while (p q : char -> bool) (s : str) :
  (forall c, p c = true -> q c = false) ->
  filter q (drop_while p s) = filter q s.
Proof.
  intro Hpq. induction s as [|c s IH]; [reflexivity|].
  cbn [drop_while]. destruct (p c) eqn:Hc; [|reflexivity].
  cbn [filter]. rewrite (Hpq _ Hc). exact IH.
Qed.

Lemma strip_heading_text (n : nat) :
  forall s, length s <= n ->
            filter is_text (re_sub heading_marker [] s) = filter is_text s.
Proof.
  induction n as [|n IH]; intros s Hlen.
  - destruct s; [reflexivity|cbn in Hlen; lia].
  - destruct s as [|c s]; [reflexivity|]. cbn [length] in Hlen.
    rewrite strip_heading_cons. destruct (heading_at (c :: s)) eqn:Hat.
    + rewrite IH.
      * unfold heading_at in Hat. apply andb_prop in Hat. destruct Hat as [Hc _].
        rewrite !filter_drop_while.
        -- cbn [filter]. unfold is_text at 2. rewrite Hc. reflexivity.
        -- intros d Hd. unfold is_text. rewrite Hd. reflexivity.
        -- intros d Hd. unfold is_text. rewrite Hd. apply andb_false_r.
      * pose proof (drop_while_length isspace (drop_while (char_eqb (ch "#")) s)).
        pose proof (drop_while_length (char_eqb (ch "#")) s). lia.
    + cbn [filter]. rewrite IH by lia. reflexivity.
Qed.

Lemma heading_at_marker (s : str) :
  heading_at s = true -> has_heading_marker s = true.
Proof.
  induction s as [|c s IH]; [discriminate|]. intro Hat.
  assert (Hc : char_eqb (ch "#") c = true).
  { unfold heading_at in Hat. apply andb_prop in Hat. apply Hat. }
  rewrite (@heading_at_hashes c s Hc) in Hat.
  destruct s as [|d s]; [discriminate|].
  change (has_heading_marker (c :: d :: s))
    with ((char_eqb (ch "#") c && isspace d) || has_heading_marker (d :: s)).
  destruct (char_eqb (ch "#") d).
  - rewrite (IH Hat). apply orb_true_r.
  - rewrite Hc, Hat. reflexivity.
Qed.

Lemma strip_heading_id (s : str) :
  has_heading_marker s = false -> re_sub heading_marker [] s = s.
Proof.
  induction s as [|c s IH]; [reflexivity|]. intro Hnone.
  rewrite strip_heading_cons.
  destruct (heading_at (c :: s)) eqn:Hat.
  - apply heading_at_marker in Hat. congruence.
  - f_equal. apply IH. destruct s as [|d s]; [reflexivity|].
    change (has_heading_marker (c :: d :: s))
      with ((char_eqb (ch "#") c && isspace d) || has_heading_marker (d :: s))
      in Hnone.
    apply orb_false_elim in Hnone. apply Hnone.
Qed.

(** *** Frequency and first-seen order among all the words *)

Lemma occurrences_filter (p : str -> bool) (w : str) (l : list str) :
  p w = true -> occurrences w (filter p l) = occurrences w l.
Proof.
  intro Hw. unfold occurrences. induction l as [|x l IH]; [reflexivity|].
  cbn [filter]. destruct (p x) eqn:Hx.
  - cbn [count_occ]. destruct (str_eq_dec x w); rewrite IH; reflexivity.
  - cbn [count_occ]. destruct (str_eq_dec x w) as [->|Hne]; [congruence|exact IH].
Qed.

Lemma first_index_filter (p : str -> bool) (a b : str) (l : list str) :
  p a = true -> p b = true -> In a l -> In b l ->
  first_index a l < first_index b l ->
  first_index a (filter p l) < first_index b (filter p l).
Proof.
  intros Ha Hb. induction l as [|x l IH]; intros Hina Hinb Hlt; [destruct Hina|].
  cbn [first_index] in Hlt. cbn [filter].
  destruct (str_eqb a x) eqn:Hax.
  - apply str_eqb_eq in Hax. subst x. rewrite Ha. cbn [first_index].
    rewrite str_eqb_refl.
    destruct (str_eqb b a); lia.
  - destruct (str_eqb b x) eqn:Hbx; [lia|].
    assert (Hina' : In a l).
    { destruct Hina as [->|H]; [|exact H]. rewrite str_eqb_refl in Hax. discriminate. }
    assert (Hinb' : In b l).
    { destruct Hinb as [->|H]; [|exact H]. rewrite str_eqb_refl in Hbx. discriminate. }
    specialize (IH Hina' Hinb' ltac:(lia)).
    destruct (p x); [|exact IH].
    cbn [first_index]. rewrite Hax, Hbx. lia.
Qed.

Lemma first_index_inj (a b : str) (l : list str) :
  In a l -> In b l -> first_index a l = first_index b l -> a = b.
Proof.
  induction l as [|x l IH]; intros Hina Hinb Heq; [destruct Hina|].
  cbn [first_index] in Heq.
  destruct (str_eqb a x) eqn:Hax; destruct (str_eqb b x) eqn:Hbx;
    try discriminate.
  - apply str_eqb_eq in Hax, Hbx. congruence.
  - apply IH; [| |lia].
    + destruct Hina as [->|H]; [|exact H]. rewrite str_eqb_refl in Hax. discriminate.
    + destruct Hinb as [->|H]; [|exact H]. rewrite str_eqb_refl in Hbx. discriminate.
Qed.

Lemma ranks_above_filter (p : str -> bool) (a b : str) (l : list str) :
  p a = true -> p b = true -> In a l -> In b l ->
  ranks_above (filter p l) a b -> ranks_above l a b.
Proof.
  intros Ha Hb Hina Hinb. unfold ranks_above.
  rewrite !occurrences_filter by assumption.
  intros [Hmore|[Hsame Hfirst]]; [left; exact Hmore|right].
  split; [exact Hsame|].
  destruct (Nat.lt_trichotomy (first_index a l) (first_index b l))
    as [Hlt|[Heq|Hgt]]; [exact Hlt| |].
  - apply (@first_index_inj a b l Hina Hinb) in Heq. subst b. lia.
  - pose proof (@first_index_filter p b a l Hb Ha Hinb Hina Hgt). lia.
Qed.

Lemma filtered_words_counted (U : unicode_db) (summary word : str) :
  In word (filtered_words U summary)
  <-> counted (split_ws (lower U (re_sub newlines (lit " ")
                                         (re_sub heading_marker [] summary))))
              word.
Proof.
  unfold filtered_words, counted. cbv zeta. rewrite filter_In, andb_true_iff.
  rewrite negb_true_iff, Nat.ltb_lt. split.
  - intros (Hin & Hstop & Hlong). split; [exact Hin|split; [|exact Hlong]].
    intro Hs. assert (existsb (str_eqb word) stop_words = true); [|congruence].
    apply existsb_exists. exists word. split; [exact Hs|apply str_eqb_refl].
  - intros (Hin & Hstop & Hlong). split; [exact Hin|split; [|exact Hlong]].
    destruct (existsb (str_eqb word) stop_words) eqn:E; [|reflexivity].
    apply existsb_exists in E. destruct E as (x & Hx & Heq).
    apply str_eqb_eq in Heq. subst x. now elim Hstop.
Qed.

(** C9: the topics come from the words of the lower-cased summary
    without its heading markers. The stripped summary holds no '#' with
    whitespace right after it, differs from the summary by '#' and
    whitespace characters only, and is the summary itself when that holds
    no marker. The words counted are those that are no stop word and
    longer than 3 characters. If there is none, the topics are the three
    default ones; otherwise they are at most 5 counted words, without
    repetition, each ranking above the ones after it and above every
    counted word left out: more frequent among the words, or as frequent
    and seen first. For "## Meeting Summary\n\nBudget budget budget
    planning planning review" they are budget, planning, review; for
    "#### Budget review" they are budget, review. *)
Theorem extract_key_topics_ranked :
  forall U summary,
    let stripped := re_sub heading_marker [] summary in
    let words := split_ws (lower U (re_sub newlines (lit " ") stripped)) in
    let topics := extract_key_topics U summary in
    has_heading_marker stripped = false
    /\ filter is_text stripped = filter is_text summary
    /\ (has_heading_marker summary = false -> stripped = summary)
    /\ length topics <= 5
    /\ ((forall word, ~ counted words word) -> topics = default_topics)
    /\ ((exists word, counted words word) ->
        NoDup topics
        /\ (forall topic, In topic topics -> counted words topic)
        /\ (forall i j a b,
              i < j -> nth_error topics i = Some a -> nth_error topics j = Some b ->
              ranks_above words a b)
        /\ (forall word,
              counted words word -> ~ In word topics ->
              length topics = 5
              /\ forall topic, In topic topics -> ranks_above words topic word))
    /\ extract_key_topics ascii_db example_summary
       = map lit ["budget"; "planning"; "review"]%string
    /\ extract_key_topics ascii_db (lit "#### Budget review")
       = map lit ["budget"; "review"]%string.
Proof.
  intros U summary stripped words topics.
  pose proof (extract_key_topics_of_filtered_words U summary) as Hfiltered.
  cbv zeta in Hfiltered. fold topics in Hfiltered.
  destruct Hfiltered as (Hlen & _ & Hdefault & Hranked & Hexample).
  assert (Hcounted : forall word,
             In word (filtered_words U summary) <-> counted words word)
    by (intro word; apply filtered_words_counted).
  set (keep := fun word : str =>
                 negb (existsb (str_eqb word) stop_words) && (3 <? length word)).
  assert (Hfilter : filtered_words U summary = filter keep words) by reflexivity.
  assert (Hkeep : forall word, counted words word -> keep word = true /\ In word words).
  { intros word Hword. apply Hcounted in Hword. rewrite Hfilter in Hword.
    apply filter_In in Hword. tauto. }
  split; [apply (strip_heading_no_marker (n := length summary)), le_n|].
  split; [apply (strip_heading_text (n := length summary)), le_n|].
  split; [apply strip_heading_id|].
  split; [exact Hlen|]. split; [|split; [|split; [exact Hexample|]]].
  - intro Hnone. apply Hdefault.
    destruct (filtered_words U summary) as [|word rest] eqn:E; [reflexivity|].
    elim (Hnone word). apply Hcounted. left. reflexivity.
  - intros [word Hword].
    assert (Hne : filtered_words U summary <> []).
    { apply Hcounted in Hword. intro E. rewrite E in Hword. destruct Hword. }
    destruct (Hranked Hne) as (Hnd & Hin & Horder & Hout).
    split; [exact Hnd|]. split; [|split].
    + intros topic Htopic. apply Hcounted, Hin, Htopic.
    + intros i j a b Hij Ha Hb.
      destruct (Hkeep a) as [Hpa Hina];
        [apply Hcounted, Hin, (nth_error_In _ _ Ha)|].
      destruct (Hkeep b) as [Hpb Hinb];
        [apply Hcounted, Hin, (nth_error_In _ _ Hb)|].
      apply (@ranks_above_filter keep a b words Hpa Hpb Hina Hinb).
      rewrite <- Hfilter. apply (Horder i j a b Hij Ha Hb).
    + intros other Hother Hleft.
      destruct (Hout other (proj2 (Hcounted other) Hother) Hleft) as [Hfive Habove].
      split; [exact Hfive|]. intros topic Htopic.
      destruct (Hkeep topic) as [Hpa Hina]; [apply Hcounted, Hin, Htopic|].
      destruct (Hkeep other Hother) as [Hpb Hinb].
      apply (@ranks_above_filter keep topic other words Hpa Hpb Hina Hinb).
      rewrite <- Hfilter. apply (Habove topic Htopic).
  - vm_compute. reflexivity.
Qed.

(** C9 fails as stated on a summary that is a heading only: the three
    words returned are no words of the lower-cased summary, they are not
    in lower case, and "Meeting" is a stop word once lower-cased. *)
Lemma extract_key_topics_default_topics :
  extract_key_topics ascii_db heading_only
  = [lit "Business"; lit "Meeting"; lit "Discussion"]
  /\ split_ws (lower ascii_db heading_only)
     = [lit "##"; lit "meeting"; lit "summary"]
  /\ existsb (str_eqb (lower ascii_db (lit "Meeting"))) stop_words = true.
Proof. repeat split; vm_compute; reflexivity. Qed.

End TopicFacts.
